(** * PearlHunt: the label-placement engine (src/utils/LabelPlacer.ts)

    A shallow embedding of [LabelPlacer] and the proofs of its placement
    properties.

    Numbers.  A JavaScript [number] is modelled as an extended real: a real
    number, one of the two infinities, or NaN.  The arithmetic follows
    IEEE 754 on the special values (x/0, Infinity - Infinity, comparisons
    with NaN, ...), and is exact on the finite ones: rounding error and
    overflow of binary64 are abstracted away, and the two zeros are not
    told apart (a finite zero divisor acts as +0).  Where a property
    hinges on the rounding itself, the code is evaluated on the binary64
    numbers of the kernel instead (section Binary64 below).

    Objects.  The points handed to the engine are JavaScript objects that
    refer to each other through [allPoints]; they live in a heap and are
    named by their identity, so that [otherPt === pt] is an equality of
    identities.

    Around the engine.  The development also covers the callers of the
    engine and what feeds them: the chart plug-in that builds the points
    and runs a pass (plugins/ChartJsLabelPlugin.ts, utils/measureText.ts),
    the plug-in that aligns the scales with the border of the chart area
    (plugins/BorderAlignPlugin.ts), and the preparation of the chart data
    (components/ScatterPlotChart.tsx).  What these read from the canvas and
    from the scales of the chart enters as a function. *)

From Stdlib Require Import Reals Lra Lia Psatz List String Ascii Bool ZArith.
From Stdlib Require Import Permutation Sorted.
From Stdlib Require PrimFloat FloatOps SpecFloat QArith.
Import ListNotations.
Open Scope R_scope.

(* ================================================================== *)
(** ** Booleans from the order on the reals *)

Definition Rltb (a b : R) : bool := if Rlt_dec a b then true else false.
Definition Rleb (a b : R) : bool := if Rle_dec a b then true else false.
Definition Reqb (a b : R) : bool := if Req_dec_T a b then true else false.

(* ================================================================== *)
(** ** JavaScript numbers *)

Inductive number : Type :=
| NaN
| NegInf
| Fin (r : R)
| PosInf.

Definition number_eq_dec (a b : number) : {a = b} + {a <> b}.
Proof.
  destruct a as [ | | x | ], b as [ | | y | ];
    try (left; reflexivity); try (right; discriminate).
  destruct (Req_dec_T x y) as [E | N].
  - left; now subst.
  - right; intros H; now inversion H.
Defined.

Definition isFinite (a : number) : bool :=
  match a with Fin _ => true | _ => false end.

Definition isNaN (a : number) : bool :=
  match a with NaN => true | _ => false end.

(** [a + b] *)
Definition add (a b : number) : number :=
  match a, b with
  | NaN, _ | _, NaN => NaN
  | PosInf, NegInf | NegInf, PosInf => NaN
  | PosInf, _ | _, PosInf => PosInf
  | NegInf, _ | _, NegInf => NegInf
  | Fin x, Fin y => Fin (x + y)
  end.

(** [-a] *)
Definition neg (a : number) : number :=
  match a with
  | NaN => NaN
  | NegInf => PosInf
  | Fin x => Fin (- x)
  | PosInf => NegInf
  end.

(** [a - b] *)
Definition sub (a b : number) : number :=
  match a, b with
  | NaN, _ | _, NaN => NaN
  | PosInf, PosInf | NegInf, NegInf => NaN
  | PosInf, _ | _, NegInf => PosInf
  | NegInf, _ | _, PosInf => NegInf
  | Fin x, Fin y => Fin (x - y)
  end.

(** The infinity that a nonzero finite factor [x] turns [PosInf] into. *)
Definition scaleInf (x : R) (pos : bool) : number :=
  if Reqb x 0 then NaN
  else if Bool.eqb (Rltb 0 x) pos then PosInf else NegInf.

(** [a * b] *)
Definition mul (a b : number) : number :=
  match a, b with
  | NaN, _ | _, NaN => NaN
  | Fin x, Fin y => Fin (x * y)
  | Fin x, PosInf | PosInf, Fin x => scaleInf x true
  | Fin x, NegInf | NegInf, Fin x => scaleInf x false
  | PosInf, PosInf | NegInf, NegInf => PosInf
  | PosInf, NegInf | NegInf, PosInf => NegInf
  end.

(** [a / b]; a finite zero divisor is +0. *)
Definition div (a b : number) : number :=
  match a, b with
  | NaN, _ | _, NaN => NaN
  | Fin x, Fin y => if Reqb y 0 then scaleInf x true else Fin (x / y)
  | Fin _, (PosInf | NegInf) => Fin 0
  | (PosInf | NegInf), (PosInf | NegInf) => NaN
  | PosInf, Fin y => if Rltb y 0 then NegInf else PosInf
  | NegInf, Fin y => if Rltb y 0 then PosInf else NegInf
  end.

(** [a < b] *)
Definition lt (a b : number) : bool :=
  match a, b with
  | NaN, _ | _, NaN => false
  | _, NegInf => false
  | NegInf, _ => true
  | PosInf, _ => false
  | Fin _, PosInf => true
  | Fin x, Fin y => Rltb x y
  end.

(** [a <= b] *)
Definition le (a b : number) : bool :=
  match a, b with
  | NaN, _ | _, NaN => false
  | NegInf, _ => true
  | _, PosInf => true
  | _, NegInf => false
  | PosInf, _ => false
  | Fin x, Fin y => Rleb x y
  end.

(** [a > b] and [a >= b] *)
Definition gt (a b : number) : bool := lt b a.
Definition ge (a b : number) : bool := le b a.

Definition ofNat (n : nat) : number := Fin (INR n).

(** *** The Math object *)

Definition Math_PI : number := Fin PI.
Definition Math_SQRT2 : number := Fin (sqrt 2).

Definition Math_sqrt (a : number) : number :=
  match a with
  | NaN | NegInf => NaN
  | PosInf => PosInf
  | Fin x => if Rltb x 0 then NaN else Fin (sqrt x)
  end.

(** [Math.pow(a, 2)] *)
Definition Math_pow2 (a : number) : number := mul a a.

Definition Math_abs (a : number) : number :=
  match a with
  | NaN => NaN
  | NegInf | PosInf => PosInf
  | Fin x => Fin (Rabs x)
  end.

Definition Math_cos (a : number) : number :=
  match a with Fin x => Fin (cos x) | _ => NaN end.

Definition Math_sin (a : number) : number :=
  match a with Fin x => Fin (sin x) | _ => NaN end.

(** [Math.round]: the nearest integer, halves towards +Infinity. *)
Definition Math_round (a : number) : number :=
  match a with
  | Fin x => Fin (IZR (Int_part (x + / 2)))
  | _ => a
  end.

Definition max2 (a b : number) : number :=
  match a, b with
  | NaN, _ | _, NaN => NaN
  | PosInf, _ | _, PosInf => PosInf
  | NegInf, c | c, NegInf => c
  | Fin x, Fin y => Fin (Rmax x y)
  end.

Definition min2 (a b : number) : number :=
  match a, b with
  | NaN, _ | _, NaN => NaN
  | NegInf, _ | _, NegInf => NegInf
  | PosInf, c | c, PosInf => c
  | Fin x, Fin y => Fin (Rmin x y)
  end.

(** [Math.max(...l)] and [Math.min(...l)], of any number of arguments. *)
Definition Math_max (l : list number) : number := fold_left max2 l NegInf.
Definition Math_min (l : list number) : number := fold_left min2 l PosInf.

(* ================================================================== *)
(** ** Strings *)

Open Scope string_scope.
Open Scope list_scope.

(** A string is a sequence of code units below 256.  Among these, the
    white space and line terminators that [String.prototype.trim] strips
    and that [\s] matches are TAB, LF, VT, FF, CR, SP and the no-break
    space U+00A0; the others (U+FEFF, U+2028, U+2029 and the space
    separators from U+1680 on) are not code units of such a string. *)
Definition isWhiteSpace (c : ascii) : bool :=
  match nat_of_ascii c with
  | 9%nat | 10%nat | 11%nat | 12%nat | 13%nat | 32%nat | 160%nat => true
  | _ => false
  end.

Fixpoint trimStart (s : string) : string :=
  match s with
  | EmptyString => EmptyString
  | String c s' => if isWhiteSpace c then trimStart s' else s
  end.

Fixpoint revString (s acc : string) : string :=
  match s with
  | EmptyString => acc
  | String c s' => revString s' (String c acc)
  end.

Definition trim (s : string) : string :=
  revString (trimStart (revString (trimStart s) "")) "".

(** [parts.join(sep)] *)
Definition join (sep : string) (parts : list string) : string :=
  String.concat sep parts.

(* ================================================================== *)
(** ** Data model *)

(** Identity of a point object of the caller. *)
Abbreviation ObjId := nat (only parsing).

(** interface Point *)
Record Point : Type := mkPoint {
  x : number;
  y : number;
  text : string;
  width : number;
  height : number;
  allPoints : option (list ObjId)
}.

(** The caller's objects. *)
Definition Heap := ObjId -> Point.

(** The point a label is placed for: an object of the caller, or the
    combined point that [placeAll] builds for a group of several points,
    which is a new object, identical to none of the caller's. *)
Inductive PointRef : Type :=
| Existing (id : ObjId)
| Combined (p : Point).

Definition deref (h : Heap) (r : PointRef) : Point :=
  match r with
  | Existing id => h id
  | Combined p => p
  end.

(** [otherPt === pt], where [otherPt] is an element of [allPoints]. *)
Definition sameObject (other : ObjId) (pt : PointRef) : bool :=
  match pt with
  | Existing id => Nat.eqb other id
  | Combined _ => false
  end.

(** interface Candidate *)
Record Candidate : Type := mkCandidate {
  cx : number;
  cy : number;
  rotation : number;
  score : number
}.

(** interface LabelBox (./types) *)
Record LabelBox : Type := mkLabelBox {
  lx : number;
  ly : number;
  lwidth : number;
  lheight : number;
  lrotation : number;
  ltext : string;
  forPoint : PointRef
}.

(** interface RTreeBox (./types) *)
Record RTreeBox : Type := mkRTreeBox {
  minX : number;
  minY : number;
  maxX : number;
  maxY : number;
  __ref : option LabelBox
}.

(** interface ChartSize (./types) *)
Record ChartSize : Type := mkChartSize {
  chartWidth : number;
  chartHeight : number
}.

(** Required<LabelPlacerOptions & { debug: boolean }>; [rings] and
    [anglesPerRing] are numbers of rings and of angles. *)
Record Options : Type := mkOptions {
  radius : number;
  rings : nat;
  anglesPerRing : nat;
  padding : number;
  overlapPenalty : number;
  pointPenalty : number;
  outOfBoundsPenalty : number;
  idealAngleBonus : number;
  debug : bool
}.

(** Partial<LabelPlacerOptions & { debug?: boolean }>: [None] is an
    omitted key. *)
Record PartialOptions : Type := mkPartialOptions {
  radius_opt : option number;
  rings_opt : option nat;
  anglesPerRing_opt : option nat;
  padding_opt : option number;
  overlapPenalty_opt : option number;
  pointPenalty_opt : option number;
  outOfBoundsPenalty_opt : option number;
  idealAngleBonus_opt : option number;
  debug_opt : option bool
}.

Definition DEFAULT_OPTIONS : Options := {|
  radius := Fin 10;
  rings := 5;
  anglesPerRing := 32;
  padding := Fin 4;
  overlapPenalty := Fin 1000;
  pointPenalty := Fin 500;
  outOfBoundsPenalty := Fin 300;
  idealAngleBonus := Fin 0;
  debug := false
|}.

Definition orDefault {A : Type} (o : option A) (d : A) : A :=
  match o with Some a => a | None => d end.

(** [{ ...DEFAULT_OPTIONS, ...options }] *)
Definition mergeOptions (d : Options) (o : PartialOptions) : Options := {|
  radius := orDefault (radius_opt o) (radius d);
  rings := orDefault (rings_opt o) (rings d);
  anglesPerRing := orDefault (anglesPerRing_opt o) (anglesPerRing d);
  padding := orDefault (padding_opt o) (padding d);
  overlapPenalty := orDefault (overlapPenalty_opt o) (overlapPenalty d);
  pointPenalty := orDefault (pointPenalty_opt o) (pointPenalty d);
  outOfBoundsPenalty := orDefault (outOfBoundsPenalty_opt o) (outOfBoundsPenalty d);
  idealAngleBonus := orDefault (idealAngleBonus_opt o) (idealAngleBonus d);
  debug := orDefault (debug_opt o) (debug d)
|}.

(** The options argument left out: [options = {}]. *)
Definition noOptions : PartialOptions :=
  mkPartialOptions None None None None None None None None None.

(** type DebugInfo (./types), without the per-term score breakdown. *)
Record DebugInfo : Type := mkDebugInfo {
  dpoint : PointRef;
  dcandidates : list Candidate;
  selectedCandidateIndex : option nat;
  dplacedLabels : list (number * number * string)
}.

(** The fields of a LabelPlacer. *)
Record LabelPlacer : Type := mkLabelPlacer {
  tree : list RTreeBox;
  placedLabels : list LabelBox;
  options : Options;
  debugInfo : list DebugInfo;
  chartSize : ChartSize
}.

(** [new LabelPlacer(chartSize, options)] *)
Definition newLabelPlacer (size : ChartSize) (o : PartialOptions) : LabelPlacer := {|
  tree := [];
  placedLabels := [];
  options := mergeOptions DEFAULT_OPTIONS o;
  debugInfo := [];
  chartSize := size
|}.

(** *** The spatial index (rbush)

    The engine uses three operations of the library: [clear], [insert] and
    [search].  A tree is modelled by the list of its items, oldest first.
    [search] compares the query box with the bounding box of the root
    first, and then returns the items whose box meets the query box,
    borders included (the library's [intersects] test); the engine reads
    the number of these items only.  The bounding box of the root is kept
    with [Math.min] and [Math.max] over the boxes of all items, so that a
    coordinate of it is NaN as soon as that coordinate is NaN in one item:
    from then on the first comparison fails and every search is empty.
    For items without NaN it holds every item and changes nothing. *)

Definition intersects (a b : RTreeBox) : bool :=
  le (minX b) (maxX a) && le (minY b) (maxY a) &&
  ge (maxX b) (minX a) && ge (maxY b) (minY a).

(** A coordinate of the box is NaN. *)
Definition boxHasNaN (b : RTreeBox) : bool :=
  isNaN (minX b) || isNaN (minY b) || isNaN (maxX b) || isNaN (maxY b).

Definition tree_search (t : list RTreeBox) (q : RTreeBox) : list RTreeBox :=
  if existsb boxHasNaN t then [] else filter (intersects q) t.

Definition tree_insert (t : list RTreeBox) (b : RTreeBox) : list RTreeBox :=
  t ++ [b].

(** *** Array.prototype.sort

    The sort is stable; a comparator result that is NaN counts as 0.
    [insertSorted] puts [a] behind every element it does not have to
    precede. *)

Section Sort.
Context {A : Type} (compareFn : A -> A -> number).

Fixpoint insertSorted (a : A) (l : list A) : list A :=
  match l with
  | [] => [a]
  | b :: l' =>
      if gt (compareFn b a) (Fin 0) then a :: b :: l'
      else b :: insertSorted a l'
  end.

Definition sort (l : list A) : list A :=
  fold_left (fun acc a => insertSorted a acc) l [].

End Sort.

(** Exceptions: the only one the engine can raise is the TypeError of
    reading a property of [undefined]. *)
Inductive result (A : Type) : Type :=
| Ok (a : A)
| TypeError.
Arguments Ok {A} a.
Arguments TypeError {A}.

(* ================================================================== *)
(** ** The engine *)

(** Helper: convert a LabelBox into an RTree-compatible box with padding
    (the default padding, 2, is the only one used). *)
Definition toRTreeBox (label : LabelBox) : RTreeBox :=
  let padding := Fin 2 in {|
    minX := sub (lx label) padding;
    minY := sub (ly label) padding;
    maxX := add (add (lx label) (lwidth label)) padding;
    maxY := add (add (ly label) (lheight label)) padding;
    __ref := Some label
  |}.

(** interface Rect *)
Record Rect : Type := mkRect {
  rect_x : number;
  rect_y : number;
  rect_width : number;
  rect_height : number
}.

(** Check if a point sits inside a rectangle *)
Definition pointInRect (px py : number) (rect : Rect) : bool :=
  ge px (rect_x rect) && le px (add (rect_x rect) (rect_width rect)) &&
  ge py (rect_y rect) && le py (add (rect_y rect) (rect_height rect)).

(** [const pointRadius = 6; const boundaryBuffer = 1;
     const exclusionRadius = pointRadius + boundaryBuffer;] *)
Definition pointRadius : number := Fin 6.
Definition boundaryBuffer : number := Fin 1.
Definition exclusionRadius : number := add pointRadius boundaryBuffer.

(** Check if a label box is out of bounds of the chart area *)
Definition isOutOfBounds (this : LabelPlacer) (box : Rect) : bool :=
  let margin := Fin 1 in
  lt (rect_x box) margin ||
  lt (rect_y box) margin ||
  gt (add (rect_x box) (rect_width box)) (sub (chartWidth (chartSize this)) margin) ||
  gt (add (rect_y box) (rect_height box)) (sub (chartHeight (chartSize this)) margin).

(** The distance test of the two clamped ring families:
    [distanceToPoint >= exclusionRadius]. *)
Definition distanceToPoint (pt : Point) (candidateX candidateY : number) : number :=
  Math_sqrt
    (add (Math_pow2 (sub (add candidateX (div (width pt) (Fin 2))) (x pt)))
         (Math_pow2 (sub (add candidateY (div (height pt) (Fin 2))) (y pt)))).

(** One turn of the loop over the 64 primary angles. *)
Definition primaryCandidate (this : LabelPlacer) (pt : Point) (i : nat)
  : list Candidate :=
  let margin := Fin 1 in
  let minX := margin in
  let minY := margin in
  let maxX := sub (sub (chartWidth (chartSize this)) margin) (width pt) in
  let maxY := sub (sub (chartHeight (chartSize this)) margin) (height pt) in
  let primaryAngles := 64%nat in
  let primaryAngleStep := div (mul (Fin 2) Math_PI) (ofNat primaryAngles) in
  let angle := mul (ofNat i) primaryAngleStep in
  let cos := Math_cos angle in
  let sin := Math_sin angle in
  let '(dx, dy) :=
    if gt (Math_abs cos) (Math_abs sin) then
      let dx :=
        if gt cos (Fin 0) then exclusionRadius
        else sub (neg exclusionRadius) (width pt) in
      let dy := sub (mul sin exclusionRadius) (div (height pt) (Fin 2)) in
      (dx, dy)
    else
      let dy :=
        if gt sin (Fin 0) then exclusionRadius
        else sub (neg exclusionRadius) (height pt) in
      let dx := sub (mul cos exclusionRadius) (div (width pt) (Fin 2)) in
      (dx, dy) in
  let candidateX := add (x pt) dx in
  let candidateY := add (y pt) dy in
  let candidateX := Math_max [minX; Math_min [candidateX; maxX]] in
  let candidateY := Math_max [minY; Math_min [candidateY; maxY]] in
  if ge (distanceToPoint pt candidateX candidateY) exclusionRadius
  then [mkCandidate candidateX candidateY (Fin 0) (Fin 0)]
  else [].

(** One turn of the inner loop of the expanding rings, ring [r], angle [i]
    out of [angles]. *)
Definition expandingCandidate (this : LabelPlacer) (pt : Point)
  (r angles i : nat) : list Candidate :=
  let margin := Fin 1 in
  let minX := margin in
  let minY := margin in
  let maxX := sub (sub (chartWidth (chartSize this)) margin) (width pt) in
  let maxY := sub (sub (chartHeight (chartSize this)) margin) (height pt) in
  let rScale := add (Fin 1) (mul (ofNat r) (Fin 0.5)) in
  let angle := mul (mul (div (ofNat i) (ofNat angles)) Math_PI) (Fin 2) in
  let dx := mul (Math_cos angle) (mul exclusionRadius rScale) in
  let dy := mul (Math_sin angle) (mul exclusionRadius rScale) in
  let candidateX := add (x pt) dx in
  let candidateY := add (y pt) dy in
  let candidateX := Math_max [minX; Math_min [candidateX; maxX]] in
  let candidateY := Math_max [minY; Math_min [candidateY; maxY]] in
  if ge (distanceToPoint pt candidateX candidateY) exclusionRadius
  then [mkCandidate candidateX candidateY (Fin 0) (Fin 0)]
  else [].

Definition expandingRing (this : LabelPlacer) (pt : Point) (r : nat)
  : list Candidate :=
  let angles := Nat.max 8 (anglesPerRing (options this) / (r + 1)) in
  flat_map (expandingCandidate this pt r angles) (seq 0 angles).

(** One turn of the inner loop of the fallback rings. *)
Definition fallbackCandidate (this : LabelPlacer) (pt : Point)
  (ring i : nat) : Candidate :=
  let r := add exclusionRadius (mul (ofNat ring) (Fin 5)) in
  let totalAngles := anglesPerRing (options this) in
  let angleStep := div (mul (Fin 2) Math_PI) (ofNat totalAngles) in
  let angle := mul (ofNat i) angleStep in
  let x_ := sub (add (x pt) (mul r (Math_cos angle))) (div (width pt) (Fin 2)) in
  let y_ := sub (add (y pt) (mul r (Math_sin angle))) (div (height pt) (Fin 2)) in
  mkCandidate x_ y_ (Fin 0) (Fin 0).

(** One turn of the inner loop of the half-step rings. *)
Definition halfStepCandidate (this : LabelPlacer) (pt : Point)
  (ring i : nat) : Candidate :=
  let r := Math_max [exclusionRadius; mul (radius (options this)) (ofNat ring)] in
  let totalAngles := anglesPerRing (options this) in
  let angleStep := div (mul (Fin 2) Math_PI) (ofNat totalAngles) in
  let halfStep := div angleStep (Fin 2) in
  let angle := add (mul (ofNat i) angleStep) halfStep in
  let x_ := sub (add (x pt) (mul r (Math_cos angle))) (div (width pt) (Fin 2)) in
  let y_ := sub (add (y pt) (mul r (Math_sin angle))) (div (height pt) (Fin 2)) in
  mkCandidate x_ y_ (Fin 0) (Fin 0).

(** Generate candidate positions around the point *)
Definition generateCandidates (this : LabelPlacer) (pt : Point) : list Candidate :=
  let rings := rings (options this) in
  let anglesPerRing := anglesPerRing (options this) in
  (* primary candidates *)
  flat_map (primaryCandidate this pt) (seq 0 64)
  (* more rings with increasing radius and sparser angles: r = 1 .. rings-1 *)
  ++ flat_map (expandingRing this pt) (seq 1 (rings - 1))
  (* fallback rings: ring = 1 .. rings *)
  ++ flat_map (fun ring => map (fallbackCandidate this pt ring) (seq 0 anglesPerRing))
       (seq 1 rings)
  (* intermediate angles: ring = 1 .. rings *)
  ++ flat_map (fun ring => map (halfStepCandidate this pt ring) (seq 0 anglesPerRing))
       (seq 1 rings).

(** *** Scoring (the first half of placeLabelForPoint) *)

(** [this.tree.search({...})]: the placed boxes that meet the candidate's
    rectangle padded by 2 px. *)
Definition collisions (this : LabelPlacer) (pt : Point) (c : Candidate)
  : list RTreeBox :=
  let labelPadding := Fin 2 in
  tree_search (tree this) {|
    minX := sub (cx c) labelPadding;
    minY := sub (cy c) labelPadding;
    maxX := add (add (cx c) (width pt)) labelPadding;
    maxY := add (add (cy c) (height pt)) labelPadding;
    __ref := None
  |}.

(** The loop over [pt.allPoints]: the sum of [options.pointPenalty] over the
    other points that sit inside the candidate's rectangle. *)
Definition coveredPenalty (this : LabelPlacer) (h : Heap) (ptr : PointRef)
  (c : Candidate) (others : list ObjId) : number :=
  let pt := deref h ptr in
  fold_left
    (fun pointPenalty_ otherPt =>
       if sameObject otherPt ptr then pointPenalty_
       else if pointInRect (x (h otherPt)) (y (h otherPt))
                 (mkRect (cx c) (cy c) (width pt) (height pt))
            then add pointPenalty_ (pointPenalty (options this))
            else pointPenalty_)
    others (Fin 0).

Definition labelCenterX (pt : Point) (c : Candidate) : number :=
  add (cx c) (div (width pt) (Fin 2)).
Definition labelCenterY (pt : Point) (c : Candidate) : number :=
  add (cy c) (div (height pt) (Fin 2)).

Definition minBorderDistance (this : LabelPlacer) (pt : Point) (c : Candidate)
  : number :=
  let left := labelCenterX pt c in
  let right := sub (chartWidth (chartSize this)) (labelCenterX pt c) in
  let top := labelCenterY pt c in
  let bottom := sub (chartHeight (chartSize this)) (labelCenterY pt c) in
  Math_min [left; right; top; bottom].

Definition centerBonus (this : LabelPlacer) (pt : Point) (c : Candidate)
  : number :=
  let centerX := div (chartWidth (chartSize this)) (Fin 2) in
  let centerY := div (chartHeight (chartSize this)) (Fin 2) in
  let dx := div (sub (labelCenterX pt c) centerX)
                (div (chartWidth (chartSize this)) (Fin 2)) in
  let dy := div (sub (labelCenterY pt c) centerY)
                (div (chartHeight (chartSize this)) (Fin 2)) in
  let distanceFromCenter :=
    div (Math_sqrt (add (mul dx dx) (mul dy dy))) Math_SQRT2 in
  mul (sub (Fin 1) distanceFromCenter) (Fin 10).

(** Distance from the label centre to the point. *)
Definition distance (pt : Point) (c : Candidate) : number :=
  Math_sqrt
    (add (Math_pow2 (sub (labelCenterX pt c) (x pt)))
         (Math_pow2 (sub (labelCenterY pt c) (y pt)))).

(** The body of [candidates.map(c => ...)]: the score of one candidate. *)
Definition scoreOf (this : LabelPlacer) (h : Heap) (ptr : PointRef)
  (c : Candidate) : number :=
  let pt := deref h ptr in
  let score := Fin 0 in
  (* 1) overlap with existing labels *)
  let n := List.length (collisions this pt c) in
  let score :=
    if (0 <? n)%nat then sub score (mul (Fin 100000) (ofNat n)) else score in
  (* 2) covering other data points *)
  let score :=
    match allPoints pt with
    | Some others =>
        let pointPenalty := coveredPenalty this h ptr c others in
        if gt pointPenalty (Fin 0) then sub score pointPenalty else score
    | None => score
    end in
  (* 2.5) border proximity penalty *)
  let borderThreshold := Fin 10 in
  let score :=
    if lt (minBorderDistance this pt c) borderThreshold then
      let borderPenalty :=
        mul (Math_pow2 (div (sub borderThreshold (minBorderDistance this pt c))
                            borderThreshold))
            (Fin 100) in
      sub score borderPenalty
    else score in
  (* 2.6) prefer positions that are more centered *)
  let score := add score (centerBonus this pt c) in
  (* 3) out-of-bounds penalty *)
  let score :=
    if isOutOfBounds this (mkRect (cx c) (cy c) (width pt) (height pt))
    then sub score (outOfBoundsPenalty (options this)) else score in
  (* 4) distance from point *)
  let distancePenalty := mul (distance pt c) (Fin 10) in
  sub score distancePenalty.

Definition scoreCandidate (this : LabelPlacer) (h : Heap) (ptr : PointRef)
  (c : Candidate) : Candidate :=
  mkCandidate (cx c) (cy c) (rotation c) (scoreOf this h ptr c).

(** *** The exclusion zone of the label's own point (the second loop) *)

Definition cornerDistance (pt : Point) (cornerX cornerY : number) : number :=
  Math_sqrt (add (Math_pow2 (sub cornerX (x pt)))
                 (Math_pow2 (sub cornerY (y pt)))).

(** Some corner of the label box is within the exclusion zone. *)
Definition violatesBoundary (pt : Point) (cand : Candidate) : bool :=
  let labelCorners :=
    [ (cx cand, cy cand);
      (add (cx cand) (width pt), cy cand);
      (cx cand, add (cy cand) (height pt));
      (add (cx cand) (width pt), add (cy cand) (height pt)) ] in
  existsb (fun corner =>
             lt (cornerDistance pt (fst corner) (snd corner)) exclusionRadius)
          labelCorners.

(** The label box overlaps the square around the point. *)
Definition overlapsExclusionZone (pt : Point) (cand : Candidate) : bool :=
  let labelLeft := cx cand in
  let labelRight := add (cx cand) (width pt) in
  let labelTop := cy cand in
  let labelBottom := add (cy cand) (height pt) in
  let exclusionLeft := sub (x pt) exclusionRadius in
  let exclusionRight := add (x pt) exclusionRadius in
  let exclusionTop := sub (y pt) exclusionRadius in
  let exclusionBottom := add (y pt) exclusionRadius in
  let overlapsHorizontally :=
    lt labelLeft exclusionRight && gt labelRight exclusionLeft in
  let overlapsVertically :=
    lt labelTop exclusionBottom && gt labelBottom exclusionTop in
  overlapsHorizontally && overlapsVertically.

(** The body of [for (let cand of scored)]. *)
Definition applyBoundaryPenalty (pt : Point) (cand : Candidate) : Candidate :=
  if overlapsExclusionZone pt cand || violatesBoundary pt cand
  then mkCandidate (cx cand) (cy cand) (rotation cand)
         (sub (score cand) (Fin 100000))
  else cand.

(** [scored], as it is when it is sorted. *)
Definition scoredCandidates (this : LabelPlacer) (h : Heap) (ptr : PointRef)
  : list Candidate :=
  map (applyBoundaryPenalty (deref h ptr))
      (map (scoreCandidate this h ptr) (generateCandidates this (deref h ptr))).

(** [scored.sort((a, b) => b.score - a.score)] *)
Definition byScoreDescending (a b : Candidate) : number :=
  sub (score b) (score a).

(** Place a single label for [pt], given already-placed labels and all data
    points.  The result is the label (or null), and the debug entry that is
    pushed when a label is returned. *)
Definition placeLabelForPoint (this : LabelPlacer) (h : Heap) (ptr : PointRef)
  : result (option (LabelBox * DebugInfo)) :=
  let pt := deref h ptr in
  let candidates := generateCandidates this pt in
  let debugCandidates := map (scoreCandidate this h ptr) candidates in
  let scored := sort byScoreDescending (scoredCandidates this h ptr) in
  match scored with
  | [] => TypeError                       (* chosen is undefined *)
  | chosen :: _ =>
      if le (score chosen) (Fin (-100000)) then Ok None
      else
        let info := {|
          dpoint := ptr;
          dcandidates := debugCandidates;
          selectedCandidateIndex := Some 0%nat;
          dplacedLabels :=
            map (fun l => (lx l, ly l, ltext l)) (placedLabels this)
        |} in
        Ok (Some ({|
          lx := cx chosen;
          ly := cy chosen;
          lwidth := width pt;
          lheight := height pt;
          lrotation := rotation chosen;
          ltext := text pt;
          forPoint := ptr
        |}, info))
  end.

(** *** placeAll *)

(** [pt.text && pt.text.trim() !== ''] *)
Definition hasLabel (pt : Point) : bool :=
  negb (String.eqb (text pt) "") && negb (String.eqb (trim (text pt)) "").

(** The map key [`${Math.round(pt.x)},${Math.round(pt.y)}`]: two keys are
    the same string exactly when the two rounded numbers are the same. *)
Definition Key : Type := number * number.

Definition keyOf (pt : Point) : Key := (Math_round (x pt), Math_round (y pt)).

Definition key_eqb (a b : Key) : bool :=
  if number_eq_dec (fst a) (fst b)
  then if number_eq_dec (snd a) (snd b) then true else false
  else false.

(** [pointGroups], a Map in insertion order: the body of the forEach, which
    appends [pt] to the group of [key], created at the end when missing. *)
Fixpoint addToGroup (key : Key) (pt : ObjId) (groups : list (Key * list ObjId))
  : list (Key * list ObjId) :=
  match groups with
  | [] => [(key, [pt])]
  | (k, g) :: rest =>
      if key_eqb k key then (k, g ++ [pt]) :: rest
      else (k, g) :: addToGroup key pt rest
  end.

Definition pointGroups (h : Heap) (pointsWithLabels : list ObjId)
  : list (Key * list ObjId) :=
  fold_left (fun groups pt => addToGroup (keyOf (h pt)) pt groups)
            pointsWithLabels [].

(** [a[0].y] of a group; no group of the map is empty. *)
Definition firstY (h : Heap) (entry : Key * list ObjId) : number :=
  match snd entry with
  | first :: _ => y (h first)
  | [] => NaN
  end.

(** [.sort(([, a], [, b]) => a[0].y - b[0].y)] *)
Definition byFirstY (h : Heap) (a b : Key * list ObjId) : number :=
  sub (firstY h a) (firstY h b).

Definition sortedGroups (h : Heap) (points : list ObjId) : list (list ObjId) :=
  map snd
    (sort (byFirstY h)
       (pointGroups h (filter (fun pt => hasLabel (h pt)) points))).

(** For overlapping points, combine their labels. *)
Definition combinedPoint (h : Heap) (groupPoints : list ObjId)
  (firstPoint : Point) : Point := {|
  x := x firstPoint;
  y := y firstPoint;
  text := join ", " (map (fun p => text (h p)) groupPoints);
  width := Math_max (map (fun p => width (h p)) groupPoints);
  height := Math_max (map (fun p => height (h p)) groupPoints);
  allPoints := allPoints firstPoint
|}.

(** The point that is placed for a group. *)
Definition groupPoint (h : Heap) (groupPoints : list ObjId) : option PointRef :=
  match groupPoints with
  | [] => None
  | [only] => Some (Existing only)
  | first :: _ => Some (Combined (combinedPoint h groupPoints (h first)))
  end.

(** [this.tree.insert(toRTreeBox(label)); this.placedLabels.push(label)],
    with the debug entry that placeLabelForPoint pushed. *)
Definition commit (this : LabelPlacer) (label : LabelBox) (info : DebugInfo)
  : LabelPlacer := {|
  tree := tree_insert (tree this) (toRTreeBox label);
  placedLabels := placedLabels this ++ [label];
  options := options this;
  debugInfo := debugInfo this ++ [info];
  chartSize := chartSize this
|}.

(** The body of [for (const [, groupPoints] of sortedGroups)]. *)
Definition placeGroup (this : LabelPlacer) (h : Heap) (groupPoints : list ObjId)
  : result LabelPlacer :=
  match groupPoint h groupPoints with
  | None => TypeError
  | Some ptr =>
      match placeLabelForPoint this h ptr with
      | TypeError => TypeError
      | Ok None => Ok this
      | Ok (Some (label, info)) => Ok (commit this label info)
      end
  end.

Fixpoint placeGroups (this : LabelPlacer) (h : Heap) (groups : list (list ObjId))
  : result LabelPlacer :=
  match groups with
  | [] => Ok this
  | groupPoints :: rest =>
      match placeGroup this h groupPoints with
      | TypeError => TypeError
      | Ok this' => placeGroups this' h rest
      end
  end.

(** [this.tree.clear(); this.placedLabels = []; this.debugInfo = []] *)
Definition reset (this : LabelPlacer) : LabelPlacer := {|
  tree := [];
  placedLabels := [];
  options := options this;
  debugInfo := [];
  chartSize := chartSize this
|}.

(** Public: call this with all points; returns placed label boxes.  The
    result is the returned array together with the engine after the pass. *)
Definition placeAll (this : LabelPlacer) (h : Heap) (points : list ObjId)
  : result (list LabelBox * LabelPlacer) :=
  match placeGroups (reset this) h (sortedGroups h points) with
  | TypeError => TypeError
  | Ok this' => Ok (placedLabels this', this')
  end.

(** The labels that a pass returns. *)
Definition placed (this : LabelPlacer) (h : Heap) (points : list ObjId)
  : result (list LabelBox) :=
  match placeAll this h points with
  | TypeError => TypeError
  | Ok (labels, _) => Ok labels
  end.

(** *** Specification vocabulary *)

(** The leftmost element that the comparator never asks to move behind a
    later one: what stands first after the sort. *)
Definition pickFirst {A : Type} (compareFn : A -> A -> number)
  (best : option A) (a : A) : option A :=
  match best with
  | None => Some a
  | Some b => if gt (compareFn b a) (Fin 0) then Some a else Some b
  end.

(** The four numbers of a point, of the chart and of the options that
    enter the arithmetic are finite. *)
Definition FinitePoint (pt : Point) : Prop :=
  isFinite (x pt) = true /\ isFinite (y pt) = true /\
  isFinite (width pt) = true /\ isFinite (height pt) = true.

Definition FiniteChart (this : LabelPlacer) : Prop :=
  isFinite (chartWidth (chartSize this)) = true /\
  isFinite (chartHeight (chartSize this)) = true.

Definition FiniteOptions (this : LabelPlacer) : Prop :=
  isFinite (radius (options this)) = true /\
  isFinite (pointPenalty (options this)) = true /\
  isFinite (outOfBoundsPenalty (options this)) = true.

(** The chart has an area: neither side is 0. *)
Definition ProperChart (this : LabelPlacer) : Prop :=
  chartWidth (chartSize this) <> Fin 0 /\ chartHeight (chartSize this) <> Fin 0.

(** Every point of the input that gets a label is finite. *)
Definition FiniteInput (h : Heap) (points : list ObjId) : Prop :=
  forall id, In id points -> hasLabel (h id) = true -> FinitePoint (h id).

(** The padded rectangles of the labels of a list do not meet, pair by
    pair. *)
Definition NoOverlap (labels : list LabelBox) : Prop :=
  forall i j a b, i <> j ->
    nth_error labels i = Some a -> nth_error labels j = Some b ->
    intersects (toRTreeBox a) (toRTreeBox b) = false.

(** The defaults that the specification lists. *)
Definition listedDefaults : Options := {|
  radius := Fin 10;
  rings := 5;
  anglesPerRing := 32;
  padding := Fin 0;
  overlapPenalty := Fin 100000;
  pointPenalty := Fin 500;
  outOfBoundsPenalty := Fin 0;
  idealAngleBonus := Fin 0;
  debug := false
|}.

(** How many other points sit inside the candidate's rectangle. *)
Definition coveredCount (h : Heap) (ptr : PointRef) (c : Candidate)
  (others : list ObjId) : nat :=
  let pt := deref h ptr in
  List.length
    (filter (fun otherPt =>
               negb (sameObject otherPt ptr) &&
               pointInRect (x (h otherPt)) (y (h otherPt))
                 (mkRect (cx c) (cy c) (width pt) (height pt)))
            others).

(** The groups of a map: one per key, each holding, in their order, the
    points of [pts] that have its key. *)
Definition GroupsOf (h : Heap) (pts : list ObjId)
  (groups : list (Key * list ObjId)) : Prop :=
  NoDup (map fst groups) /\
  (forall k g, In (k, g) groups ->
     g <> [] /\ g = filter (fun id => key_eqb k (keyOf (h id))) pts) /\
  (forall id, In id pts -> In (keyOf (h id)) (map fst groups)).

(** A pass on well-formed input: a chart with finite, nonzero sides, finite
    options with an out-of-bounds penalty that is not negative, and finite
    labelled points. *)
Definition WellFormed (this : LabelPlacer) (h : Heap) (points : list ObjId)
  : Prop :=
  FiniteChart this /\ ProperChart this /\ FiniteOptions this /\
  le (Fin 0) (outOfBoundsPenalty (options this)) = true /\
  FiniteInput h points.

(** Two engines with the same chart size and options. *)
Definition SameConfig (a b : LabelPlacer) : Prop :=
  chartSize a = chartSize b /\ options a = options b.

(** The engine between two groups of a pass: the index holds the padded
    boxes of the placed labels, no two of them meet, and none has a
    coordinate that is NaN. *)
Definition IndexInvariant (this : LabelPlacer) : Prop :=
  tree this = map toRTreeBox (placedLabels this) /\
  NoOverlap (placedLabels this) /\
  existsb boxHasNaN (tree this) = false.

(** The chart has no area: one of its sides is 0. *)
Definition ZeroArea (this : LabelPlacer) : Prop :=
  chartWidth (chartSize this) = Fin 0 \/ chartHeight (chartSize this) = Fin 0.

(** No candidate for [pt] has the centre of its label at coordinate 0 on
    an axis along which the chart has no extent. *)
Definition CentresOffAxes (this : LabelPlacer) (pt : Point) : Prop :=
  forall c, In c (generateCandidates this pt) ->
    (chartWidth (chartSize this) = Fin 0 -> labelCenterX pt c <> Fin 0) /\
    (chartHeight (chartSize this) = Fin 0 -> labelCenterY pt c <> Fin 0).

(** The label keeps clear of its own point: its rectangle does not overlap
    the square of half side 7 around the point, and each of its corners is
    at least 7 px away from the point. *)
Definition ClearOfOwnPoint (h : Heap) (label : LabelBox) : Prop :=
  exists px py a b w hh,
    x (deref h (forPoint label)) = Fin px /\
    y (deref h (forPoint label)) = Fin py /\
    lx label = Fin a /\ ly label = Fin b /\
    lwidth label = Fin w /\ lheight label = Fin hh /\
    ~ (a < px + 7 /\ px - 7 < a + w /\ b < py + 7 /\ py - 7 < b + hh) /\
    (forall u v,
       In (u, v) [(a, b); (a + w, b); (a, b + hh); (a + w, b + hh)] ->
       7 <= sqrt ((u - px) * (u - px) + (v - py) * (v - py))).

(** The score of the candidate at [(a, b)] for a finite point, in real
    numbers: [n] labels met, [k] other points covered at [pp] each, [m] the
    distance to the nearest border, [cb] the centre bonus, [oob] whether
    the label leaves the chart (at the price [ob]), [d] the distance to the
    point. *)
Definition realScore (n k : nat) (pp m cb : R) (oob : bool) (ob d : R) : R :=
  let s1 := - 100000 * INR n in
  let s2 := if Rltb 0 (INR k * pp) then s1 - INR k * pp else s1 in
  let s3 := if Rltb m 10 then s2 - (10 - m) / 10 * ((10 - m) / 10) * 100 else s2 in
  let s4 := s3 + cb in
  let s5 := if oob then s4 - ob else s4 in
  s5 - d * 10.

(** *** An example pass: one labelled point in a 400 x 300 chart, default
    options. *)
Definition exampleSize : ChartSize := mkChartSize (Fin 400) (Fin 300).
Definition exampleEngine : LabelPlacer := newLabelPlacer exampleSize noOptions.
Definition examplePoint : Point :=
  mkPoint (Fin 50) (Fin 60) "A" (Fin 40) (Fin 12) (Some [0%nat]).
Definition exampleHeap : Heap := fun _ => examplePoint.

(** *** A chart without area: 0 x 0, default options. *)
Definition zeroEngine : LabelPlacer :=
  newLabelPlacer (mkChartSize (Fin 0) (Fin 0)) noOptions.




(** Two points next to each other on the upper edge of the chart, and a
    point with a wide label there. *)
Definition edgeA : Point :=
  mkPoint (Fin 6) (Fin 0) "A" (Fin 10) (Fin 10) (Some [0%nat; 1%nat]).
Definition edgeB : Point :=
  mkPoint (Fin 7) (Fin 0) "B" (Fin 10) (Fin 10) (Some [0%nat; 1%nat]).
Definition edgePairHeap : Heap :=
  fun id => match id with 0%nat => edgeA | _ => edgeB end.

Definition widePoint : Point :=
  mkPoint (Fin 11) (Fin 0) "A" (Fin 20) (Fin 10) (Some [0%nat]).
Definition wideHeap : Heap := fun _ => widePoint.

(** Two points at one place, far from both axes. *)
Definition farA : Point :=
  mkPoint (Fin 100) (Fin 100) "A" (Fin 40) (Fin 12) (Some [0%nat; 1%nat]).
Definition farB : Point :=
  mkPoint (Fin 100) (Fin 100) "B" (Fin 30) (Fin 14) (Some [0%nat; 1%nat]).
Definition farPairHeap : Heap :=
  fun id => match id with 0%nat => farA | _ => farB end.



(** *** A chart 10 x 10 and an engine without rings: the point (5, 5) has
    an 8 x 8 label. *)
Definition ringlessEngine : LabelPlacer :=
  newLabelPlacer (mkChartSize (Fin 10) (Fin 10))
    (mkPartialOptions None (Some 0%nat) None None None None None None None).
Definition centrePoint : Point :=
  mkPoint (Fin 5) (Fin 5) "A" (Fin 8) (Fin 8) (Some [0%nat]).
Definition centreHeap : Heap := fun _ => centrePoint.

(* ================================================================== *)
(** ** The half-step ring in binary64

    The loop over the half-step rings of generateCandidates and the
    distance of placeLabelForPoint, on binary64 numbers with their rounding
    ([Math.pow(a, 2)] as [a * a]).  What [Math.cos] and [Math.sin] return
    is left to the implementation by ECMAScript; the two functions are
    variables. *)

Section Binary64.
Import PrimFloat.
Local Open Scope float_scope.

Variables Math_cos64 Math_sin64 : float -> float.

Definition Math_PI64 : float := 0x1.921fb54442d18p+1.

(** [Math.max(a, b)] (the two zeros are not told apart). *)
Definition Math_max64 (a b : float) : float :=
  if (is_nan a || is_nan b)%bool then nan else if a <? b then b else a.

Record Point64 : Type := mkPoint64 {
  x64 : float;
  y64 : float;
  width64 : float;
  height64 : float
}.

Record Candidate64 : Type := mkCandidate64 {
  cx64 : float;
  cy64 : float;
  rotation64 : float;
  score64 : float
}.

Definition exclusionRadius64 : float := 6 + 1.

(** One turn of the inner loop of the half-step rings. *)
Definition halfStepCandidate64 (radius anglesPerRing : float) (pt : Point64)
  (ring i : float) : Candidate64 :=
  let r := Math_max64 exclusionRadius64 (radius * ring) in
  let totalAngles := anglesPerRing in
  let angleStep := (2 * Math_PI64) / totalAngles in
  let halfStep := angleStep / 2 in
  let angle := i * angleStep + halfStep in
  let x := x64 pt + r * Math_cos64 angle - width64 pt / 2 in
  let y := y64 pt + r * Math_sin64 angle - height64 pt / 2 in
  mkCandidate64 x y 0 0.

(** The loop counters: the whole numbers from 0 on. *)
Fixpoint ofNat64 (n : nat) : float :=
  match n with
  | O => 0
  | S m => ofNat64 m + 1
  end.

(** Add intermediate angles for better coverage on other rings: the
    candidates of the loop over [ring = 1 .. rings] and
    [i = 0 .. totalAngles - 1], each pushed as it is. *)
Definition halfStepRings64 (radius : float) (rings anglesPerRing : nat)
  (pt : Point64) : list Candidate64 :=
  flat_map
    (fun ring =>
       map (fun i => halfStepCandidate64 radius (ofNat64 anglesPerRing) pt
                       (ofNat64 ring) (ofNat64 i))
           (seq 0 anglesPerRing))
    (seq 1 rings).

(** Distance from the label centre to the point. *)
Definition distance64 (pt : Point64) (c : Candidate64) : float :=
  let labelCenterX := cx64 c + width64 pt / 2 in
  let labelCenterY := cy64 c + height64 pt / 2 in
  sqrt ((labelCenterX - x64 pt) * (labelCenterX - x64 pt)
        + (labelCenterY - y64 pt) * (labelCenterY - y64 pt)).

End Binary64.

(** The rational number that a finite binary64 number is. *)
Definition toQ (f : PrimFloat.float) : option QArith_base.Q :=
  match FloatOps.Prim2SF f with
  | SpecFloat.S754_zero _ => Some (QArith_base.Qmake 0 1)
  | SpecFloat.S754_finite s m e =>
      let n := if s then Z.neg m else Z.pos m in
      Some (match e with
            | Z0 => QArith_base.Qmake n 1
            | Zpos p => QArith_base.Qmake (n * 2 ^ Zpos p) 1
            | Zneg p => QArith_base.Qmake n (2 ^ p)
            end)
  | _ => None
  end.

(* ================================================================== *)
(** ** The debug accessors of the engine *)

(** Get debug information for all placed labels *)
Definition getDebugInfo (this : LabelPlacer) : list DebugInfo := debugInfo this.

(** Clear debug information *)
Definition clearDebugInfo (this : LabelPlacer) : LabelPlacer := {|
  tree := tree this;
  placedLabels := placedLabels this;
  options := options this;
  debugInfo := [];
  chartSize := chartSize this
|}.

(* ================================================================== *)
(** ** Measuring text (utils/measureText.ts) *)

(** The value of a decimal digit. *)
Definition digitValue (c : ascii) : option Z :=
  let n := nat_of_ascii c in
  if (48 <=? n)%nat && (n <=? 57)%nat then Some (Z.of_nat (n - 48)) else None.

(** The longest run of decimal digits at the start of [s], as a number;
    [acc] is the value read so far, [None] before the first digit. *)
Fixpoint parseDigits (s : string) (acc : option Z) : option Z :=
  match s with
  | EmptyString => acc
  | String c s' =>
      match digitValue c with
      | Some d => parseDigits s' (Some (10 * orDefault acc 0 + d)%Z)
      | None => acc
      end
  end.

(** [parseInt(s, 10)]: white space at the start is skipped, then come an
    optional sign and the longest run of decimal digits; what follows is
    ignored, and the result is NaN when there is no digit. *)
Definition parseInt (s : string) : number :=
  let s := trimStart s in
  let '(sign, digits) :=
    match s with
    | String c s' =>
        if Ascii.eqb c "-"%char then ((-1)%Z, s')
        else if Ascii.eqb c "+"%char then (1%Z, s')
        else (1%Z, s)
    | EmptyString => (1%Z, s)
    end in
  match parseDigits digits None with
  | Some n => Fin (IZR (sign * n))
  | None => NaN
  end.

(** The size that measureText returns. *)
Record TextSize : Type := mkTextSize {
  size_width : number;
  size_height : number
}.

Section Canvas.

(** [ctx.measureText(text).width] when [ctx.font] is [font]: the metrics of
    the canvas. *)
Variable ctx_measureText : string -> string -> number.

(** [measureText(ctx, text, font)]; the height is approximated by the font
    size, the number at the start of [font]. *)
Definition measureText (text_ font : string) : TextSize :=
  let metrics_width := ctx_measureText font text_ in
  let estimatedHeight := parseInt font in
  {| size_width := metrics_width; size_height := estimatedHeight |}.

(** The default font of measureText. *)
Definition defaultFont : string := "12px sans-serif".

(* ================================================================== *)
(** ** The chart plug-in (plugins/ChartJsLabelPlugin.ts) *)

(** [\d.-]: a decimal digit, a dot or a minus sign. *)
Definition isCoordChar (c : ascii) : bool :=
  let n := nat_of_ascii c in
  ((48 <=? n)%nat && (n <=? 57)%nat) || (n =? 46)%nat || (n =? 45)%nat.

(** The longest prefix of [s] whose characters satisfy [f], and the rest. *)
Fixpoint span (f : ascii -> bool) (s : string) : string * string :=
  match s with
  | EmptyString => (EmptyString, EmptyString)
  | String c s' =>
      if f c then let '(taken, rest) := span f s' in (String c taken, rest)
      else (EmptyString, s)
  end.

(** A match of [/\([\d.-]+\s*,\s*[\d.-]+\)/] that begins at the start of
    [s].  The class of each repetition shares no character with what has to
    follow it, so a repetition can only succeed on its longest run: the
    backtracking of the regular expression finds a match exactly when this
    reading does, and the same one. *)
Definition matchCoordAt (s : string) : option string :=
  match s with
  | String c s1 =>
      if negb (Ascii.eqb c "("%char) then None
      else
        let '(digits1, s2) := span isCoordChar s1 in
        if String.eqb digits1 "" then None
        else
          let '(space1, s3) := span isWhiteSpace s2 in
          match s3 with
          | String c3 s4 =>
              if negb (Ascii.eqb c3 ","%char) then None
              else
                let '(space2, s5) := span isWhiteSpace s4 in
                let '(digits2, s6) := span isCoordChar s5 in
                if String.eqb digits2 "" then None
                else
                  match s6 with
                  | String c6 _ =>
                      if negb (Ascii.eqb c6 ")"%char) then None
                      else Some (String.concat ""
                                   ["("; digits1; space1; ","; space2; digits2; ")"])
                  | EmptyString => None
                  end
          | EmptyString => None
          end
  | EmptyString => None
  end.

(** [labelText.match(/\([\d.-]+\s*,\s*[\d.-]+\)/)]: the leftmost match,
    [coordMatch[0]]. *)
Fixpoint coordMatch (labelText : string) : option string :=
  match matchCoordAt labelText with
  | Some m => Some m
  | None =>
      match labelText with
      | EmptyString => None
      | String _ rest => coordMatch rest
      end
  end.

(** [coordMatch ? coordMatch[0] : labelText] *)
Definition cleanLabel (labelText : string) : string :=
  match coordMatch labelText with
  | Some m => m
  | None => labelText
  end.

(** A data item of a dataset: its label (absent, or a string), its
    coordinates as [Number(pointData.x)] and [Number(pointData.y)] read
    them, and its colour. *)
Record DataItem : Type := mkDataItem {
  item_label : option string;
  item_x : number;
  item_y : number;
  item_backgroundColor : option string
}.

Record Dataset : Type := mkDataset {
  dataset_data : list DataItem;
  dataset_backgroundColor : option string
}.

(** [chart.chartArea] *)
Record ChartArea : Type := mkChartArea {
  area_left : number;
  area_top : number;
  area_right : number;
  area_bottom : number
}.

(** [xScale.getPixelForValue] and [yScale.getPixelForValue] of the chart. *)
Variables xScale_getPixelForValue yScale_getPixelForValue : number -> number.

(** The body of [datasetPoints.forEach]: the point that is pushed for a
    data item, with [allPoints] still empty; none for an item without a
    label, or with a coordinate that is not a number.  The colour and the
    item itself, which the plug-in also stores on the point object, are
    not read by the engine and are left out. *)
Definition pointOfItem (pointData : DataItem) : list Point :=
  match item_label pointData with
  | None => []
  | Some label =>
      if String.eqb label "" then []
      else
        let xValue := item_x pointData in
        let yValue := item_y pointData in
        if isNaN xValue || isNaN yValue then []
        else
          let pixelX := xScale_getPixelForValue xValue in
          let pixelY := yScale_getPixelForValue yValue in
          let labelText := label in
          let cleanLabel := cleanLabel labelText in
          [ {| x := pixelX;
               y := pixelY;
               text := cleanLabel;
               width := size_width (measureText cleanLabel "12px sans-serif");
               height := size_height (measureText cleanLabel defaultFont);
               allPoints := Some [] |} ]
  end.

(** 1) Prepare Point objects from all datasets *)
Definition preparePoints (datasets : list Dataset) : list Point :=
  flat_map (fun dataset => flat_map pointOfItem (dataset_data dataset)) datasets.

(** [points.forEach(pt => { pt.allPoints = points; })]: the objects of the
    array [points], named by their index, each referring to the whole
    array. *)
Definition attachAllPoints (points : list Point) : Heap :=
  fun id =>
    let pt := nth id points (mkPoint NaN NaN "" NaN NaN None) in
    {| x := x pt; y := y pt; text := text pt;
       width := width pt; height := height pt;
       allPoints := Some (seq 0 (List.length points)) |}.

(** The options that the plug-in passes to the engine. *)
Definition pluginOptions : PartialOptions := {|
  radius_opt := Some (Fin 10);
  rings_opt := Some 5%nat;
  anglesPerRing_opt := Some 32%nat;
  padding_opt := Some (Fin 0);
  overlapPenalty_opt := Some (Fin 100000);
  pointPenalty_opt := Some (Fin 500);
  outOfBoundsPenalty_opt := Some (Fin 0);
  idealAngleBonus_opt := Some (Fin 0);
  debug_opt := Some true
|}.

(** 2) Place labels with debug option: [new LabelPlacer({...}, {...})] *)
Definition pluginPlacer (chartArea : ChartArea) : LabelPlacer :=
  newLabelPlacer
    {| chartWidth := sub (area_right chartArea) (area_left chartArea);
       chartHeight := sub (area_bottom chartArea) (area_top chartArea) |}
    pluginOptions.

(** What afterDraw does: nothing when the plug-in is disabled; otherwise it
    draws the labels that the pass returns, unless the pass raises, in
    which case the error is caught and logged and nothing is drawn. *)
Inductive DrawOutcome : Type :=
| Disabled
| Drawn (labelBoxes : list LabelBox)
| Caught.

(** [afterDraw], up to the drawing of the label boxes; [enabled] is
    [pluginOptions?.enabled], [None] when it is undefined. *)
Definition afterDraw (enabled : option bool) (chartArea : ChartArea)
  (datasets : list Dataset) : DrawOutcome :=
  match enabled with
  | Some false => Disabled
  | _ =>
      let points := preparePoints datasets in
      let placer := pluginPlacer chartArea in
      match placed placer (attachAllPoints points) (seq 0 (List.length points)) with
      | Ok labelBoxes => Drawn labelBoxes
      | TypeError => Caught
      end
  end.

End Canvas.

(* ================================================================== *)
(** ** Aligning a scale with the border (plugins/BorderAlignPlugin.ts) *)

(** What patchScale reads and writes of a scale of the chart:
    [_edgeAligned] is false while it is undefined. *)
Record Scale : Type := mkScale {
  _edgeAligned : bool;
  scale_min : number;
  getPixelForValue : number -> number
}.

(** Patch a scale so [getPixelForValue(min)] returns the exact edge
    pixel. *)
Definition patchScale (scale : Scale) (edgePx : number) : Scale :=
  if _edgeAligned scale then scale (* already patched *)
  else
    let original := getPixelForValue scale in
    let current := original (scale_min scale) in
    let delta := sub current edgePx in
    if lt (Math_abs delta) (Fin 0.5) then
      (* Already aligned to sub-pixel precision; nothing to do. *)
      {| _edgeAligned := true;
         scale_min := scale_min scale;
         getPixelForValue := original |}
    else
      {| _edgeAligned := true;
         scale_min := scale_min scale;
         getPixelForValue := fun value => sub (original value) delta |}.

(** The chart as afterUpdate sees it: the chart area and the scales x and
    y, when there are such. *)
Record ScatterChart : Type := mkScatterChart {
  chartArea : ChartArea;
  scales_x : option Scale;
  scales_y : option Scale
}.

(** [afterUpdate(chart)] of the plug-in. *)
Definition afterUpdate (chart : ScatterChart) : ScatterChart := {|
  chartArea := chartArea chart;
  scales_x :=
    match scales_x chart with
    | Some xScale => Some (patchScale xScale (area_left (chartArea chart)))
    | None => None
    end;
  scales_y :=
    match scales_y chart with
    | Some yScale => Some (patchScale yScale (area_top (chartArea chart)))
    | None => None
    end
|}.

(* ================================================================== *)
(** ** Preparing the chart data (components/ScatterPlotChart.tsx) *)

(** type SeriesType *)
Inductive SeriesType : Type :=
| Cyan | Blue | White | Red | Magenta | Green | Yellow | Black.

Definition SeriesType_eqb (a b : SeriesType) : bool :=
  match a, b with
  | Cyan, Cyan | Blue, Blue | White, White | Red, Red
  | Magenta, Magenta | Green, Green | Yellow, Yellow | Black, Black => true
  | _, _ => false
  end.

(** interface DataPoint *)
Record DataPoint : Type := mkDataPoint {
  dp_id : string;
  dp_label : string;
  dp_x : number;
  dp_z : number;
  dp_series : SeriesType
}.

(** The result of rotatePoint. *)
Record Rotated : Type := mkRotated {
  rotated_x : number;
  rotated_z : number
}.

(** Helper function to rotate coordinates around center (0, 0) *)
Definition rotatePoint (x z degrees : number) : Rotated :=
  let rad := div (mul degrees Math_PI) (Fin 180) in
  let cos := Math_cos rad in
  let sin := Math_sin rad in
  {| rotated_x := sub (mul x cos) (mul z sin);
     rotated_z := add (mul x sin) (mul z cos) |}.

(** A number that is truthy: neither 0 nor NaN. *)
Definition truthy (n : number) : bool :=
  match n with
  | NaN => false
  | Fin r => negb (Reqb r 0)
  | _ => true
  end.

(** [scaledPoint]: the point as it is charted; it is rotated, clamped and
    mapped to the pixels of the image when the width and the height of the
    image are given and truthy. *)
Definition scaledPoint (rotation : number) (imageWidth imageHeight : option number)
  (point : DataPoint) : DataPoint :=
  match imageWidth, imageHeight with
  | Some imageWidth, Some imageHeight =>
      if truthy imageWidth && truthy imageHeight then
        let rotated := rotatePoint (dp_x point) (dp_z point) rotation in
        let clampedX := Math_max [Fin (-160); Math_min [Fin 160; rotated_x rotated]] in
        let clampedZ := Math_max [Fin (-160); Math_min [Fin 160; rotated_z rotated]] in
        {| dp_id := dp_id point;
           dp_label := dp_label point;
           dp_x := Math_round (mul (div (add clampedX (Fin 160)) (Fin 320))
                                   (sub imageWidth (Fin 1)));
           dp_z := Math_round (mul (div (add clampedZ (Fin 160)) (Fin 320))
                                   (sub imageHeight (Fin 1)));
           dp_series := dp_series point |}
      else point
  | _, _ => point
  end.

(** [coordKey], the string made of the two coordinates: two keys are the
    same string exactly when the two numbers are the same. *)
Definition coordKey (point : DataPoint) : Key := (dp_x point, dp_z point).

(** [seriesMap], a Map in insertion order. *)
Definition SeriesMap : Type := list (SeriesType * list DataPoint).

Definition seriesMap_has (series : SeriesType) (seriesMap : SeriesMap) : bool :=
  existsb (fun entry => SeriesType_eqb (fst entry) series) seriesMap.

(** [seriesMap.get(series).push(point)] *)
Fixpoint seriesMap_push (series : SeriesType) (point : DataPoint)
  (seriesMap : SeriesMap) : SeriesMap :=
  match seriesMap with
  | [] => []
  | (s, arr) :: rest =>
      if SeriesType_eqb s series then (s, arr ++ [point]) :: rest
      else (s, arr) :: seriesMap_push series point rest
  end.

(** The body of [data.forEach]: the set of the coordinates seen and the map
    of the series, after [point]. *)
Definition addDataPoint (visibleSeries : SeriesType -> bool) (rotation : number)
  (imageWidth imageHeight : option number)
  (state : list Key * SeriesMap) (point : DataPoint) : list Key * SeriesMap :=
  let '(seenCoords, seriesMap) := state in
  if existsb (key_eqb (coordKey point)) seenCoords then state
  else
    let seenCoords := seenCoords ++ [coordKey point] in
    let seriesMap :=
      if seriesMap_has (dp_series point) seriesMap then seriesMap
      else seriesMap ++ [(dp_series point, [])] in
    if visibleSeries (dp_series point) then
      (seenCoords,
       seriesMap_push (dp_series point)
         (scaledPoint rotation imageWidth imageHeight point) seriesMap)
    else (seenCoords, seriesMap).

(** Group data by series, one label per unique coordinate. *)
Definition groupBySeries (visibleSeries : SeriesType -> bool) (rotation : number)
  (imageWidth imageHeight : option number) (data : list DataPoint) : SeriesMap :=
  snd (fold_left (addDataPoint visibleSeries rotation imageWidth imageHeight)
         data ([], [])).

(** Convert background colors to match theme for better visibility *)
Definition getSeriesColor (series : SeriesType) : string :=
  match series with
  | White => "#FFFFFF"
  | Black => "#000000"
  | Cyan => "#00FFFF"
  | Blue => "#0000FF"
  | Red => "#FF0000"
  | Magenta => "#FF00FF"
  | Green => "#00FF00"
  | Yellow => "#FFFF00"
  end.

(** [chartData.datasets], as the label plug-in reads them: the data items
    and the colour of each dataset. *)
Definition chartDatasets (visibleSeries : SeriesType -> bool) (rotation : number)
  (imageWidth imageHeight : option number) (data : list DataPoint) : list Dataset :=
  map (fun entry =>
         {| dataset_data :=
              map (fun p => {| item_label := Some (dp_label p);
                               item_x := dp_x p;
                               item_y := dp_z p;
                               item_backgroundColor := None |})
                  (snd entry);
            dataset_backgroundColor := Some (getSeriesColor (fst entry)) |})
      (filter (fun entry => visibleSeries (fst entry))
         (groupBySeries visibleSeries rotation imageWidth imageHeight data)).

(** The array of a series in the map, empty when the series is not there. *)
Fixpoint seriesMap_get (series : SeriesType) (seriesMap : SeriesMap)
  : list DataPoint :=
  match seriesMap with
  | [] => []
  | (s, arr) :: rest =>
      if SeriesType_eqb s series then arr else seriesMap_get series rest
  end.

(* ================================================================== *)
(** ** Vocabulary of the further properties *)

(** [kept] holds some of the elements of [l], in the order of [l]. *)
Inductive Subsequence {A : Type} : list A -> list A -> Prop :=
| Subsequence_nil : Subsequence [] []
| Subsequence_skip (a : A) (kept l : list A) :
    Subsequence kept l -> Subsequence kept (a :: l)
| Subsequence_keep (a : A) (kept l : list A) :
    Subsequence kept l -> Subsequence (a :: kept) (a :: l).

(** The label is the one of the group: it is placed for the point of the
    group and has its text and its size. *)
Definition LabelOf (h : Heap) (label : LabelBox) (g : list ObjId) : Prop :=
  groupPoint h g = Some (forPoint label) /\
  ltext label = text (deref h (forPoint label)) /\
  lwidth label = width (deref h (forPoint label)) /\
  lheight label = height (deref h (forPoint label)).

(** The debug entry of a label: it names the point of the label, records
    the index 0 and the scored candidates of that point, and lists the
    position and the text of the labels placed [before] it. *)
Definition DebugEntryOf (this : LabelPlacer) (h : Heap) (before : list LabelBox)
  (label : LabelBox) (info : DebugInfo) : Prop :=
  dpoint info = forPoint label /\
  selectedCandidateIndex info = Some 0%nat /\
  dplacedLabels info = map (fun l => (lx l, ly l, ltext l)) before /\
  List.length (dcandidates info)
  = List.length (generateCandidates this (deref h (forPoint label))).

(** The debug entries [infos] are those of the [labels], one per label and
    in their order, the labels [before] having been placed earlier. *)
Fixpoint DebugTracks (this : LabelPlacer) (h : Heap) (before labels : list LabelBox)
  (infos : list DebugInfo) : Prop :=
  match labels, infos with
  | [], [] => True
  | label :: labels', info :: infos' =>
      DebugEntryOf this h before label info /\
      DebugTracks this h (before ++ [label]) labels' infos'
  | _, _ => False
  end.


(** The engine with the options that the placement never reads (padding,
    overlapPenalty, idealAngleBonus and debug) set to fixed values. *)
Definition readOptions (this : LabelPlacer) : LabelPlacer := {|
  tree := tree this;
  placedLabels := placedLabels this;
  options := {|
    radius := radius (options this);
    rings := rings (options this);
    anglesPerRing := anglesPerRing (options this);
    padding := Fin 0;
    overlapPenalty := Fin 0;
    pointPenalty := pointPenalty (options this);
    outOfBoundsPenalty := outOfBoundsPenalty (options this);
    idealAngleBonus := Fin 0;
    debug := false
  |};
  debugInfo := debugInfo this;
  chartSize := chartSize this
|}.

(** The points of [data] that no earlier point of the input shares its
    coordinates with, the points of [earlier] coming first. *)
Fixpoint firstOfCoords (earlier data : list DataPoint) : list DataPoint :=
  match data with
  | [] => []
  | point :: rest =>
      (if existsb (fun q => key_eqb (coordKey point) (coordKey q)) earlier
       then [] else [point])
      ++ firstOfCoords (earlier ++ [point]) rest
  end.

(** The engine with another point penalty. *)
Definition withPointPenalty (penalty : number) (this : LabelPlacer) : LabelPlacer := {|
  tree := tree this;
  placedLabels := placedLabels this;
  options := {|
    radius := radius (options this);
    rings := rings (options this);
    anglesPerRing := anglesPerRing (options this);
    padding := padding (options this);
    overlapPenalty := overlapPenalty (options this);
    pointPenalty := penalty;
    outOfBoundsPenalty := outOfBoundsPenalty (options this);
    idealAngleBonus := idealAngleBonus (options this);
    debug := debug (options this)
  |};
  debugInfo := debugInfo this;
  chartSize := chartSize this
|}.

(** What covering the other points can cost a candidate at most: the point
    penalty, when it is positive, for each point of [allPoints]. *)
Definition coverBound (pp : R) (ap : option (list ObjId)) : R :=
  match ap with
  | Some others => INR (List.length others) * Rmax 0 pp
  | None => 0
  end.

(** *** Two labelled points far apart in the 400 x 300 chart. *)
Definition spreadA : Point :=
  mkPoint (Fin 60) (Fin 60) "A" (Fin 40) (Fin 12) (Some [0%nat; 1%nat]).
Definition spreadB : Point :=
  mkPoint (Fin 340) (Fin 200) "B" (Fin 40) (Fin 12) (Some [0%nat; 1%nat]).
Definition spreadHeap : Heap :=
  fun id => match id with 0%nat => spreadA | _ => spreadB end.




Definition nearA : Point :=
  mkPoint (Fin 50) (Fin 60) "A" (Fin 40) (Fin 12) (Some [0%nat; 1%nat]).
Definition nearB : Point :=
  mkPoint (Fin 70) (Fin 60) "B" (Fin 40) (Fin 12) (Some [0%nat; 1%nat]).
Definition nearHeap : Heap :=
  fun id => match id with 0%nat => nearA | _ => nearB end.


(* ================================================================== *)
(** * Proofs *)

(** ** The order on the reals, as booleans *)

Lemma Rltb_true (a b : R) : a < b -> Rltb a b = true.
Proof. intros H; unfold Rltb; destruct (Rlt_dec a b); [reflexivity | contradiction]. Qed.

Lemma Rltb_false (a b : R) : b <= a -> Rltb a b = false.
Proof. intros H; unfold Rltb; destruct (Rlt_dec a b); [lra | reflexivity]. Qed.

Lemma Rleb_true (a b : R) : a <= b -> Rleb a b = true.
Proof. intros H; unfold Rleb; destruct (Rle_dec a b); [reflexivity | contradiction]. Qed.

Lemma Rleb_false (a b : R) : b < a -> Rleb a b = false.
Proof. intros H; unfold Rleb; destruct (Rle_dec a b); [lra | reflexivity]. Qed.

Lemma Reqb_true (a b : R) : a = b -> Reqb a b = true.
Proof. intros H; unfold Reqb; destruct (Req_dec_T a b); [reflexivity | contradiction]. Qed.

Lemma Reqb_false (a b : R) : a <> b -> Reqb a b = false.
Proof. intros H; unfold Reqb; destruct (Req_dec_T a b); [contradiction | reflexivity]. Qed.

Lemma Rltb_spec (a b : R) : Rltb a b = true <-> a < b.
Proof. unfold Rltb; destruct (Rlt_dec a b); split; intros; try easy. Qed.

Lemma Rleb_spec (a b : R) : Rleb a b = true <-> a <= b.
Proof. unfold Rleb; destruct (Rle_dec a b); split; intros; try easy. Qed.

Lemma Rltb_nspec (a b : R) : Rltb a b = false <-> b <= a.
Proof. unfold Rltb; destruct (Rlt_dec a b); split; intros; try easy; lra. Qed.

Lemma Rleb_nspec (a b : R) : Rleb a b = false <-> b < a.
Proof. unfold Rleb; destruct (Rle_dec a b); split; intros; try easy; lra. Qed.

(** ** Array.prototype.sort *)

Section SortFacts.
Context {A : Type} (compareFn : A -> A -> number).

Lemma insertSorted_hd (a : A) (l : list A) :
  hd_error (insertSorted compareFn a l) = pickFirst compareFn (hd_error l) a.
Proof.
  destruct l as [ | b l']; cbn [insertSorted hd_error pickFirst]; [reflexivity | ].
  destruct (gt (compareFn b a) (Fin 0)); reflexivity.
Qed.

Lemma sort_hd_acc (l acc : list A) :
  hd_error (fold_left (fun acc a => insertSorted compareFn a acc) l acc)
  = fold_left (pickFirst compareFn) l (hd_error acc).
Proof.
  revert acc; induction l as [ | a l IH]; intros acc; simpl; [reflexivity | ].
  now rewrite IH, insertSorted_hd.
Qed.

(** The first element of the sorted array. *)
Lemma sort_hd (l : list A) :
  hd_error (sort compareFn l) = fold_left (pickFirst compareFn) l None.
Proof. unfold sort; now rewrite sort_hd_acc. Qed.

Lemma insertSorted_In (a b : A) (l : list A) :
  In b (insertSorted compareFn a l) <-> b = a \/ In b l.
Proof.
  induction l as [ | c l IH]; cbn [insertSorted In].
  - intuition congruence.
  - destruct (gt (compareFn c a) (Fin 0)); cbn [In]; [intuition congruence | ].
    rewrite IH; intuition congruence.
Qed.

Lemma sort_In_acc (b : A) (l acc : list A) :
  In b (fold_left (fun acc a => insertSorted compareFn a acc) l acc)
  <-> In b l \/ In b acc.
Proof.
  revert acc; induction l as [ | a l IH]; intros acc; simpl; [tauto | ].
  rewrite IH, insertSorted_In; intuition congruence.
Qed.

Lemma sort_In (b : A) (l : list A) : In b (sort compareFn l) <-> In b l.
Proof. unfold sort; rewrite sort_In_acc; simpl; tauto. Qed.

Lemma insertSorted_length (a : A) (l : list A) :
  List.length (insertSorted compareFn a l) = S (List.length l).
Proof.
  induction l as [ | c l IH]; cbn [insertSorted List.length]; [reflexivity | ].
  destruct (gt (compareFn c a) (Fin 0)); cbn [List.length]; now rewrite ?IH.
Qed.

Lemma sort_length_acc (l acc : list A) :
  List.length (fold_left (fun acc a => insertSorted compareFn a acc) l acc)
  = (List.length l + List.length acc)%nat.
Proof.
  revert acc; induction l as [ | a l IH]; intros acc; simpl; [reflexivity | ].
  rewrite IH, insertSorted_length; lia.
Qed.

Lemma sort_length (l : list A) :
  List.length (sort compareFn l) = List.length l.
Proof. unfold sort; rewrite sort_length_acc; simpl; lia. Qed.

Lemma sort_nil_inv (l : list A) : sort compareFn l = [] -> l = [].
Proof.
  intros E; apply (f_equal (@List.length A)) in E.
  rewrite sort_length in E; destruct l; [reflexivity | discriminate].
Qed.

(** When the comparator never asks for a move, the array stays as it is. *)
Lemma insertSorted_last (a : A) (l : list A) :
  (forall b, In b l -> gt (compareFn b a) (Fin 0) = false) ->
  insertSorted compareFn a l = l ++ [a].
Proof.
  induction l as [ | c l IH]; intros H; cbn [insertSorted app]; [reflexivity | ].
  rewrite (H c) by (left; reflexivity).
  rewrite IH; [reflexivity | intros b Hb; apply H; now right].
Qed.

Lemma sort_unmoved_acc (l acc : list A) :
  (forall a b, In a (acc ++ l) -> In b (acc ++ l) ->
     gt (compareFn b a) (Fin 0) = false) ->
  fold_left (fun acc a => insertSorted compareFn a acc) l acc = acc ++ l.
Proof.
  revert acc; induction l as [ | a l IH]; intros acc H; simpl.
  - now rewrite app_nil_r.
  - rewrite insertSorted_last.
    + rewrite IH; rewrite <- app_assoc; simpl; [reflexivity | exact H].
    + intros b Hb; apply H; apply in_or_app; [right; now left | now left].
Qed.

Lemma sort_unmoved (l : list A) :
  (forall a b, In a l -> In b l -> gt (compareFn b a) (Fin 0) = false) ->
  sort compareFn l = l.
Proof. intros H; unfold sort; now rewrite sort_unmoved_acc. Qed.

End SortFacts.

(** ** Arithmetic on finite numbers *)

Lemma add_fin (a b : R) : add (Fin a) (Fin b) = Fin (a + b).
Proof. reflexivity. Qed.
Lemma sub_fin (a b : R) : sub (Fin a) (Fin b) = Fin (a - b).
Proof. reflexivity. Qed.
Lemma mul_fin (a b : R) : mul (Fin a) (Fin b) = Fin (a * b).
Proof. reflexivity. Qed.
Lemma neg_fin (a : R) : neg (Fin a) = Fin (- a).
Proof. reflexivity. Qed.
Lemma cos_fin (a : R) : Math_cos (Fin a) = Fin (cos a).
Proof. reflexivity. Qed.
Lemma sin_fin (a : R) : Math_sin (Fin a) = Fin (sin a).
Proof. reflexivity. Qed.
Lemma abs_fin (a : R) : Math_abs (Fin a) = Fin (Rabs a).
Proof. reflexivity. Qed.
Lemma pow2_fin (a : R) : Math_pow2 (Fin a) = Fin (a * a).
Proof. reflexivity. Qed.
Lemma max_fin2 (a b : R) : Math_max [Fin a; Fin b] = Fin (Rmax a b).
Proof. reflexivity. Qed.
Lemma min_fin2 (a b : R) : Math_min [Fin a; Fin b] = Fin (Rmin a b).
Proof. reflexivity. Qed.
Lemma min_fin4 (a b c d : R) :
  Math_min [Fin a; Fin b; Fin c; Fin d] = Fin (Rmin (Rmin (Rmin a b) c) d).
Proof. reflexivity. Qed.
Lemma lt_fin (a b : R) : lt (Fin a) (Fin b) = Rltb a b.
Proof. reflexivity. Qed.
Lemma le_fin (a b : R) : le (Fin a) (Fin b) = Rleb a b.
Proof. reflexivity. Qed.
Lemma gt_fin (a b : R) : gt (Fin a) (Fin b) = Rltb b a.
Proof. reflexivity. Qed.
Lemma ge_fin (a b : R) : ge (Fin a) (Fin b) = Rleb b a.
Proof. reflexivity. Qed.

Lemma div_fin (a b : R) : b <> 0 -> div (Fin a) (Fin b) = Fin (a / b).
Proof. intros Hb; unfold div; now rewrite (Reqb_false b 0 Hb). Qed.

Lemma sqrt_fin (a : R) : 0 <= a -> Math_sqrt (Fin a) = Fin (sqrt a).
Proof. intros Ha; unfold Math_sqrt; now rewrite (Rltb_false a 0 Ha). Qed.

Lemma INR_pos_ne (n : nat) : (0 < n)%nat -> INR n <> 0.
Proof. intros Hn; apply not_0_INR; lia. Qed.

Lemma sumsq_nonneg (a b : R) : 0 <= a * a + b * b.
Proof. nra. Qed.

Ltac side :=
  solve [ lra | apply INR_pos_ne; lia | apply sumsq_nonneg | assumption
        | apply not_0_INR; lia ].

Create Rewrite HintDb num.
#[export] Hint Rewrite add_fin sub_fin mul_fin neg_fin cos_fin sin_fin abs_fin
  pow2_fin max_fin2 min_fin2 min_fin4 lt_fin le_fin gt_fin ge_fin : num.
#[export] Hint Rewrite div_fin sqrt_fin using side : num.

Ltac num :=
  unfold exclusionRadius, pointRadius, boundaryBuffer, Math_PI, Math_SQRT2, ofNat in *;
  autorewrite with num in *.

Lemma sqrt_ge_7 (v : R) : 49 <= v -> 6 + 1 <= sqrt v.
Proof.
  intros Hv.
  replace (6 + 1) with (sqrt (7 * 7)) by (rewrite sqrt_square; lra).
  apply sqrt_le_1_alt; lra.
Qed.

(** On a circle of radius [r] around the point. *)
Lemma circle_distance (px py w h r a : R) :
  7 <= r ->
  6 + 1 <= sqrt ((px + r * cos a - w / 2 + w / 2 - px) *
                 (px + r * cos a - w / 2 + w / 2 - px) +
                 (py + r * sin a - h / 2 + h / 2 - py) *
                 (py + r * sin a - h / 2 + h / 2 - py)).
Proof.
  intros Hr; apply sqrt_ge_7.
  pose proof (sin2_cos2 a) as E; unfold Rsqr in E.
  replace ((px + r * cos a - w / 2 + w / 2 - px) *
           (px + r * cos a - w / 2 + w / 2 - px) +
           (py + r * sin a - h / 2 + h / 2 - py) *
           (py + r * sin a - h / 2 + h / 2 - py))
    with (r * r * (sin a * sin a + cos a * cos a)) by ring.
  rewrite E; nra.
Qed.

Section FiniteCandidates.
Variables (this : LabelPlacer) (px py w h : R) (t : string) (ap : option (list ObjId)).

Let pt := mkPoint (Fin px) (Fin py) t (Fin w) (Fin h) ap.

(** The candidates of the two clamped families passed the distance test. *)
Lemma primaryCandidate_distance (q : Point) (i : nat) (c : Candidate) :
  In c (primaryCandidate this q i) -> ge (distance q c) exclusionRadius = true.
Proof.
  unfold primaryCandidate.
  match goal with |- context [let '(a, b) := ?E in _] => destruct E as [dx dy] end.
  match goal with |- context [if ?b then _ else _] => destruct b eqn:E end;
    [intros [<- | []]; exact E | intros []].
Qed.

Lemma expandingCandidate_distance (q : Point) (r n i : nat) (c : Candidate) :
  In c (expandingCandidate this q r n i) -> ge (distance q c) exclusionRadius = true.
Proof.
  unfold expandingCandidate.
  match goal with |- context [if ?b then _ else _] => destruct b eqn:E end;
    [intros [<- | []]; exact E | intros []].
Qed.

Section FiniteChart.
Variables (W H : R).
Hypothesis HW : chartSize this = mkChartSize (Fin W) (Fin H).

Lemma primaryCandidate_fin (i : nat) (c : Candidate) :
  In c (primaryCandidate this pt i) ->
  exists a b, c = mkCandidate (Fin a) (Fin b) (Fin 0) (Fin 0).
Proof.
  unfold primaryCandidate; rewrite HW.
  cbn [chartWidth chartHeight x y width height pt]; num.
  repeat match goal with |- context [Rltb ?a ?b] => destruct (Rltb a b) end;
    cbv beta iota zeta; num;
    (match goal with |- context [if ?b then _ else _] => destruct b end;
     [intros [<- | []]; eauto | intros []]).
Qed.

Lemma expandingCandidate_fin (r n i : nat) (c : Candidate) :
  (0 < n)%nat ->
  In c (expandingCandidate this pt r n i) ->
  exists a b, c = mkCandidate (Fin a) (Fin b) (Fin 0) (Fin 0).
Proof.
  intros Hn; unfold expandingCandidate; rewrite HW.
  cbn [chartWidth chartHeight x y width height pt]; num.
  match goal with |- context [if ?b then _ else _] => destruct b end;
     [intros [<- | []]; eauto | intros []].
Qed.

End FiniteChart.

Lemma fallbackCandidate_eq (ring i : nat) :
  (0 < anglesPerRing (options this))%nat ->
  fallbackCandidate this pt ring i =
  mkCandidate
    (Fin (px + (6 + 1 + INR ring * 5)
               * cos (INR i * (2 * PI / INR (anglesPerRing (options this)))) - w / 2))
    (Fin (py + (6 + 1 + INR ring * 5)
               * sin (INR i * (2 * PI / INR (anglesPerRing (options this)))) - h / 2))
    (Fin 0) (Fin 0).
Proof.
  intros Hn; unfold fallbackCandidate.
  cbn [x y width height pt]; num.
  reflexivity.
Qed.

Lemma fallbackCandidate_shape (ring i : nat) :
  (0 < anglesPerRing (options this))%nat ->
  exists r a,
    6 + 1 + INR ring * 5 = r /\
    fallbackCandidate this pt ring i =
    mkCandidate (Fin (px + r * cos a - w / 2)) (Fin (py + r * sin a - h / 2))
                (Fin 0) (Fin 0).
Proof. intros Hn; rewrite (fallbackCandidate_eq ring i Hn); eauto. Qed.

Lemma halfStepCandidate_eq (rad : R) (ring i : nat) :
  (0 < anglesPerRing (options this))%nat ->
  radius (options this) = Fin rad ->
  halfStepCandidate this pt ring i =
  mkCandidate
    (Fin (px + Rmax (6 + 1) (rad * INR ring)
               * cos (INR i * (2 * PI / INR (anglesPerRing (options this)))
                      + 2 * PI / INR (anglesPerRing (options this)) / 2)
          - w / 2))
    (Fin (py + Rmax (6 + 1) (rad * INR ring)
               * sin (INR i * (2 * PI / INR (anglesPerRing (options this)))
                      + 2 * PI / INR (anglesPerRing (options this)) / 2)
          - h / 2))
    (Fin 0) (Fin 0).
Proof.
  intros Hn Hrad; unfold halfStepCandidate; rewrite Hrad.
  cbn [x y width height pt]; num.
  reflexivity.
Qed.

Lemma halfStepCandidate_shape (rad : R) (ring i : nat) :
  (0 < anglesPerRing (options this))%nat ->
  radius (options this) = Fin rad ->
  exists r a,
    Rmax (6 + 1) (rad * INR ring) = r /\
    halfStepCandidate this pt ring i =
    mkCandidate (Fin (px + r * cos a - w / 2)) (Fin (py + r * sin a - h / 2))
                (Fin 0) (Fin 0).
Proof. intros Hn Hrad; rewrite (halfStepCandidate_eq rad ring i Hn Hrad); eauto. Qed.

Lemma circle_candidate_distance (r a : R) :
  7 <= r ->
  ge (distance pt (mkCandidate (Fin (px + r * cos a - w / 2))
                               (Fin (py + r * sin a - h / 2)) (Fin 0) (Fin 0)))
     exclusionRadius = true.
Proof.
  intros Hr; unfold distance, labelCenterX, labelCenterY.
  cbn [x y width height pt cx cy]; num.
  apply Rleb_true, circle_distance, Hr.
Qed.

End FiniteCandidates.

(** ** The candidates *)

Lemma generateCandidates_In (this : LabelPlacer) (pt : Point) (c : Candidate) :
  In c (generateCandidates this pt) ->
  (exists i, In c (primaryCandidate this pt i)) \/
  (exists r n i, (0 < n)%nat /\ In c (expandingCandidate this pt r n i)) \/
  (exists ring i, (1 <= ring <= rings (options this))%nat /\
                  (0 < anglesPerRing (options this))%nat /\
                  c = fallbackCandidate this pt ring i) \/
  (exists ring i, (1 <= ring <= rings (options this))%nat /\
                  (0 < anglesPerRing (options this))%nat /\
                  c = halfStepCandidate this pt ring i).
Proof.
  unfold generateCandidates; rewrite !in_app_iff.
  intros [Hc | [Hc | [Hc | Hc]]].
  - apply in_flat_map in Hc as (i & _ & Hc); left; eauto.
  - apply in_flat_map in Hc as (r & _ & Hc).
    unfold expandingRing in Hc; apply in_flat_map in Hc as (i & _ & Hc).
    right; left; exists r, (Nat.max 8 (anglesPerRing (options this) / (r + 1))), i.
    split; [lia | exact Hc].
  - apply in_flat_map in Hc as (ring & Hring & Hc); apply in_seq in Hring.
    apply in_map_iff in Hc as (i & <- & Hi); apply in_seq in Hi.
    right; right; left; exists ring, i; split; [lia | split; [lia | reflexivity]].
  - apply in_flat_map in Hc as (ring & Hring & Hc); apply in_seq in Hring.
    apply in_map_iff in Hc as (i & <- & Hi); apply in_seq in Hi.
    right; right; right; exists ring, i; split; [lia | split; [lia | reflexivity]].
Qed.

Lemma FinitePoint_inv (pt : Point) :
  FinitePoint pt ->
  exists px py w h t ap,
    pt = mkPoint (Fin px) (Fin py) t (Fin w) (Fin h) ap.
Proof.
  destruct pt as [[ | | px | ] [ | | py | ] t [ | | w | ] [ | | h | ] ap];
    intros (H1 & H2 & H3 & H4); try discriminate.
  now exists px, py, w, h, t, ap.
Qed.

Lemma isFinite_inv (a : number) : isFinite a = true -> exists r, a = Fin r.
Proof. destruct a; try discriminate; eauto. Qed.

Lemma generateCandidates_distance (this : LabelPlacer) (pt : Point) (c : Candidate) :
  FinitePoint pt ->
  isFinite (radius (options this)) = true ->
  In c (generateCandidates this pt) ->
  ge (distance pt c) exclusionRadius = true.
Proof.
  intros Hpt Hrad Hc.
  apply FinitePoint_inv in Hpt as (px & py & w & h & t & ap & ->).
  apply isFinite_inv in Hrad as (rad & Hrad).
  apply generateCandidates_In in Hc
    as [(i & Hc) | [(r & n & i & _ & Hc) | [(ring & i & _ & Hn & ->) | (ring & i & _ & Hn & ->)]]].
  - eapply primaryCandidate_distance; eauto.
  - eapply expandingCandidate_distance; eauto.
  - destruct (fallbackCandidate_shape this px py w h t ap ring i Hn) as (r & a & Hr & ->).
    apply circle_candidate_distance.
    pose proof (pos_INR ring); lra.
  - destruct (halfStepCandidate_shape this px py w h t ap rad ring i Hn Hrad)
      as (r & a & Hr & ->).
    apply circle_candidate_distance.
    pose proof (Rmax_l (6 + 1) (rad * INR ring)); lra.
Qed.

Lemma generateCandidates_fin (this : LabelPlacer) (pt : Point) (c : Candidate) :
  FinitePoint pt -> FiniteChart this ->
  isFinite (radius (options this)) = true ->
  In c (generateCandidates this pt) ->
  exists a b, c = mkCandidate (Fin a) (Fin b) (Fin 0) (Fin 0).
Proof.
  intros Hpt (HW & HH) Hrad Hc.
  apply FinitePoint_inv in Hpt as (px & py & w & h & t & ap & ->).
  apply isFinite_inv in Hrad as (rad & Hrad).
  apply isFinite_inv in HW as (W & HW).
  apply isFinite_inv in HH as (H & HH).
  assert (Hsize : chartSize this = mkChartSize (Fin W) (Fin H))
    by (destruct (chartSize this); simpl in *; now subst).
  apply generateCandidates_In in Hc
    as [(i & Hc) | [(r & n & i & Hn & Hc) | [(ring & i & _ & Hn & ->) | (ring & i & _ & Hn & ->)]]].
  - eapply primaryCandidate_fin; eauto.
  - eapply expandingCandidate_fin; eauto.
  - destruct (fallbackCandidate_shape this px py w h t ap ring i Hn)
      as (r & a & Hr & E); eauto.
  - destruct (halfStepCandidate_shape this px py w h t ap rad ring i Hn Hrad)
      as (r & a & Hr & E); eauto.
Qed.

(** ** The score of a candidate *)

Section ScoreBound.
Variables (this : LabelPlacer) (h : Heap) (ptr : PointRef).
Variables (px py w hh : R) (t : string) (ap : option (list ObjId)).
Hypothesis Hpt : deref h ptr = mkPoint (Fin px) (Fin py) t (Fin w) (Fin hh) ap.
Variables (W H pp ob : R).
Hypothesis HW : chartSize this = mkChartSize (Fin W) (Fin H).
Hypothesis Hpp : pointPenalty (options this) = Fin pp.
Hypothesis Hob : outOfBoundsPenalty (options this) = Fin ob.

Let pt := mkPoint (Fin px) (Fin py) t (Fin w) (Fin hh) ap.

Lemma coveredPenalty_acc (c : Candidate) (others : list ObjId) (acc : R) :
  fold_left
    (fun pointPenalty_ otherPt =>
       if sameObject otherPt ptr then pointPenalty_
       else if pointInRect (x (h otherPt)) (y (h otherPt))
                 (mkRect (cx c) (cy c) (width (deref h ptr)) (height (deref h ptr)))
            then add pointPenalty_ (Fin pp)
            else pointPenalty_)
    others (Fin acc)
  = Fin (acc + INR (coveredCount h ptr c others) * pp).
Proof.
  unfold coveredCount; revert acc.
  induction others as [ | o others IH]; intros acc.
  - simpl; f_equal; lra.
  - cbn [fold_left filter].
    destruct (sameObject o ptr); cbn [negb andb].
    + apply IH.
    + destruct (pointInRect _ _ _).
      * rewrite add_fin, IH.
        cbn [List.length]; rewrite S_INR; f_equal; lra.
      * apply IH.
Qed.

Lemma coveredPenalty_fin (c : Candidate) (others : list ObjId) :
  coveredPenalty this h ptr c others
  = Fin (INR (coveredCount h ptr c others) * pp).
Proof.
  unfold coveredPenalty; rewrite Hpp, coveredPenalty_acc; f_equal; lra.
Qed.

Lemma centerBonus_fin (a b : R) (r0 s0 : number) :
  W <> 0 -> H <> 0 ->
  exists cb,
    centerBonus this pt (mkCandidate (Fin a) (Fin b) r0 s0) = Fin cb /\ cb <= 10.
Proof.
  intros HW0 HH0.
  unfold centerBonus, labelCenterX, labelCenterY; rewrite HW.
  cbn [chartWidth chartHeight x y width height pt cx cy]; num.
  assert (0 < sqrt 2) by (apply sqrt_lt_R0; lra).
  rewrite !div_fin by lra; num.
  eexists; split; [reflexivity | ].
  match goal with |- (1 - sqrt ?v / sqrt 2) * 10 <= 10 =>
    pose proof (sqrt_pos v) as Hv end.
  assert (0 <= / sqrt 2) by (left; now apply Rinv_0_lt_compat).
  unfold Rdiv; nra.
Qed.

Lemma distance_fin (a b : R) (r0 s0 : number) :
  exists d, distance pt (mkCandidate (Fin a) (Fin b) r0 s0) = Fin d /\ 0 <= d.
Proof.
  unfold distance, labelCenterX, labelCenterY.
  cbn [x y width height pt cx cy]; num.
  eexists; split; [reflexivity | apply sqrt_pos].
Qed.

Lemma minBorderDistance_fin (a b : R) (r0 s0 : number) :
  exists m, minBorderDistance this pt (mkCandidate (Fin a) (Fin b) r0 s0) = Fin m.
Proof.
  unfold minBorderDistance, labelCenterX, labelCenterY; rewrite HW.
  cbn [chartWidth chartHeight x y width height pt cx cy]; num.
  eauto.
Qed.

Lemma scoreOf_bound (a b : R) (r0 s0 : number) :
  W <> 0 -> H <> 0 -> 0 <= ob ->
  exists s d,
    scoreOf this h ptr (mkCandidate (Fin a) (Fin b) r0 s0) = Fin s /\
    distance pt (mkCandidate (Fin a) (Fin b) r0 s0) = Fin d /\
    s <= 10 - d * 10
         - 100000 * INR (List.length (collisions this pt (mkCandidate (Fin a) (Fin b) r0 s0))).
Proof.
  intros HW0 HH0 Hob0.
  destruct (centerBonus_fin a b r0 s0 HW0 HH0) as (cb & Ecb & Hcb).
  destruct (distance_fin a b r0 s0) as (d & Ed & Hd).
  destruct (minBorderDistance_fin a b r0 s0) as (m & Em).
  exists (
    (let s1 := if (0 <? List.length (collisions this pt (mkCandidate (Fin a) (Fin b) r0 s0)))%nat
               then 0 - 100000 * INR (List.length (collisions this pt (mkCandidate (Fin a) (Fin b) r0 s0)))
               else 0 in
     let s2 := match ap with
               | Some others =>
                   if Rltb 0 (INR (coveredCount h ptr (mkCandidate (Fin a) (Fin b) r0 s0) others) * pp)
                   then s1 - INR (coveredCount h ptr (mkCandidate (Fin a) (Fin b) r0 s0) others) * pp
                   else s1
               | None => s1
               end in
     let s3 := if Rltb m 10 then s2 - (10 - m) / 10 * ((10 - m) / 10) * 100 else s2 in
     let s4 := s3 + cb in
     let s5 := if isOutOfBounds this (mkRect (Fin a) (Fin b) (Fin w) (Fin hh))
               then s4 - ob else s4 in
     s5 - d * 10)), d.
  split; [ | split; [exact Ed | ]].
  - unfold scoreOf; rewrite Hpt; fold pt.
    rewrite Ecb, Ed, Em, Hob.
    cbn [allPoints pt cx cy width height].
    set (n := List.length (collisions this pt _)).
    destruct (0 <? n)%nat; destruct ap as [others | ];
      rewrite ?coveredPenalty_fin; num; cbv zeta;
      repeat match goal with |- context [if ?c then _ else _] => destruct c end;
      num; reflexivity.
  - cbv zeta.
    set (n := List.length (collisions this pt _)).
    pose proof (pos_INR n) as Hn.
    assert (Hn0 : (0 <? n)%nat = false -> INR n = 0).
    { intros E; apply Nat.ltb_ge in E. assert (E0 : n = 0%nat) by (clearbody n; lia).
      now rewrite E0. }
    assert (Hsq : 0 <= (10 - m) / 10 * ((10 - m) / 10) * 100).
    { pose proof (Rle_0_sqr ((10 - m) / 10)) as Hq; unfold Rsqr in Hq; lra. }
    destruct (0 <? n)%nat; [ | rewrite (Hn0 eq_refl)];
      destruct ap as [others | ];
      repeat match goal with |- context [Rltb ?u ?v] =>
               destruct (Rltb u v) eqn:? end;
      repeat match goal with |- context [if ?c then _ else _] => destruct c end;
      repeat match goal with E : Rltb _ _ = true |- _ => apply Rltb_spec in E end;
      lra.
Qed.

End ScoreBound.

(** ** The candidates after both scoring loops *)

(** What the engine needs of its chart and options for the scores to be
    finite numbers. *)
Lemma FiniteChart_inv (this : LabelPlacer) :
  FiniteChart this ->
  exists W H, chartSize this = mkChartSize (Fin W) (Fin H).
Proof.
  intros (HW & HH).
  apply isFinite_inv in HW as (W & HW); apply isFinite_inv in HH as (H & HH).
  exists W, H; destruct (chartSize this); simpl in *; now subst.
Qed.

Lemma scoredCandidates_In (this : LabelPlacer) (h : Heap) (ptr : PointRef)
  (c' : Candidate) :
  In c' (scoredCandidates this h ptr) <->
  exists c, In c (generateCandidates this (deref h ptr)) /\
            c' = applyBoundaryPenalty (deref h ptr) (scoreCandidate this h ptr c).
Proof.
  unfold scoredCandidates; rewrite in_map_iff; split.
  - intros (c1 & <- & Hc1); apply in_map_iff in Hc1 as (c & <- & Hc); eauto.
  - intros (c & Hc & ->); eexists; split; [reflexivity | ].
    apply in_map_iff; eauto.
Qed.

Section ScoredCandidates.
Variables (this : LabelPlacer) (h : Heap) (ptr : PointRef).
Hypothesis Hpt : FinitePoint (deref h ptr).
Hypothesis Hchart : FiniteChart this.
Hypothesis Hproper : ProperChart this.
Hypothesis Hopts : FiniteOptions this.
Hypothesis Hoob : le (Fin 0) (outOfBoundsPenalty (options this)) = true.

(** A candidate that meets a placed label, or the exclusion zone of its own
    point, ends with a score of -100000 or less; all scores are finite. *)
Lemma scoredCandidates_bound (c' : Candidate) :
  In c' (scoredCandidates this h ptr) ->
  exists a b s,
    c' = mkCandidate (Fin a) (Fin b) (Fin 0) (Fin s) /\
    s <= - 60
         - 100000 * INR (List.length (collisions this (deref h ptr) c'))
         - (if overlapsExclusionZone (deref h ptr) c' || violatesBoundary (deref h ptr) c'
            then 100000 else 0).
Proof.
  intros Hc'; apply scoredCandidates_In in Hc' as (c & Hc & ->).
  destruct Hopts as (Hrad & Hpp & Hob).
  pose proof (generateCandidates_distance this _ c Hpt Hrad Hc) as Hd.
  destruct (generateCandidates_fin this _ c Hpt Hchart Hrad Hc) as (a & b & ->).
  destruct (FinitePoint_inv _ Hpt) as (px & py & w & hh & t & ap & Ept).
  destruct (FiniteChart_inv _ Hchart) as (W & H & Esize).
  apply isFinite_inv in Hpp as (pp & Hpp); apply isFinite_inv in Hob as (ob & Hob).
  destruct Hproper as (HW0 & HH0); rewrite Esize in HW0, HH0; cbn in HW0, HH0.
  assert (HW1 : W <> 0) by (intros ->; now apply HW0).
  assert (HH1 : H <> 0) by (intros ->; now apply HH0).
  rewrite Hob in Hoob; cbn in Hoob; apply Rleb_spec in Hoob.
  destruct (scoreOf_bound this h ptr px py w hh t ap Ept W H pp ob Esize Hpp Hob
              a b (Fin 0) (Fin 0) HW1 HH1 Hoob) as (s & d & Es & Ed & Hs).
  rewrite Ept in Hd |- *; rewrite Ed in Hd.
  unfold exclusionRadius, pointRadius, boundaryBuffer in Hd; cbn in Hd.
  apply Rleb_spec in Hd.
  unfold applyBoundaryPenalty, scoreCandidate; cbn [cx cy rotation score].
  rewrite Es.
  assert (Eo : forall r0 s0,
             overlapsExclusionZone (deref h ptr) (mkCandidate (Fin a) (Fin b) r0 s0)
             || violatesBoundary (deref h ptr) (mkCandidate (Fin a) (Fin b) r0 s0)
             = overlapsExclusionZone (deref h ptr) (mkCandidate (Fin a) (Fin b) (Fin 0) (Fin 0))
               || violatesBoundary (deref h ptr) (mkCandidate (Fin a) (Fin b) (Fin 0) (Fin 0)))
    by reflexivity.
  assert (Ec : forall r0 s0,
             collisions this (deref h ptr) (mkCandidate (Fin a) (Fin b) r0 s0)
             = collisions this (deref h ptr) (mkCandidate (Fin a) (Fin b) (Fin 0) (Fin 0)))
    by reflexivity.
  rewrite Ept in Eo, Ec.
  destruct (overlapsExclusionZone _ _ || violatesBoundary _ _).
  - exists a, b, (s - 100000); split; [reflexivity | ].
    rewrite Eo, Ec; lra.
  - exists a, b, s; split; [reflexivity | ].
    rewrite Eo, Ec; lra.
Qed.

(** A candidate whose score is above -100000 is clear of every placed label
    and of the exclusion zone of its own point. *)
Lemma scoredCandidates_clear (c' : Candidate) :
  In c' (scoredCandidates this h ptr) ->
  le (score c') (Fin (-100000)) = false ->
  collisions this (deref h ptr) c' = [] /\
  overlapsExclusionZone (deref h ptr) c' = false /\
  violatesBoundary (deref h ptr) c' = false.
Proof.
  intros Hc' Hle.
  destruct (scoredCandidates_bound c' Hc') as (a & b & s & E & Hs).
  rewrite E in Hle; cbn in Hle; apply Rleb_nspec in Hle.
  pose proof (pos_INR (List.length (collisions this (deref h ptr) c'))) as Hn.
  destruct (collisions this (deref h ptr) c') as [ | box l] eqn:Ecol.
  - split; [reflexivity | ].
    destruct (overlapsExclusionZone _ _ || violatesBoundary _ _) eqn:Ev; [lra | ].
    now apply orb_false_iff in Ev.
  - exfalso; cbn [List.length] in Hs, Hn; rewrite S_INR in Hs.
    pose proof (pos_INR (List.length l)).
    destruct (overlapsExclusionZone _ _ || violatesBoundary _ _); lra.
Qed.

Lemma scoredCandidates_notNaN (c' : Candidate) :
  In c' (scoredCandidates this h ptr) -> isFinite (score c') = true.
Proof.
  intros Hc'; destruct (scoredCandidates_bound c' Hc') as (a & b & s & -> & _).
  reflexivity.
Qed.

End ScoredCandidates.

(** ** Placing one label *)

Lemma placeLabelForPoint_Some (this : LabelPlacer) (h : Heap) (ptr : PointRef)
  (label : LabelBox) (info : DebugInfo) :
  placeLabelForPoint this h ptr = Ok (Some (label, info)) ->
  exists chosen,
    hd_error (sort byScoreDescending (scoredCandidates this h ptr)) = Some chosen /\
    In chosen (scoredCandidates this h ptr) /\
    le (score chosen) (Fin (-100000)) = false /\
    label = {| lx := cx chosen; ly := cy chosen;
               lwidth := width (deref h ptr); lheight := height (deref h ptr);
               lrotation := rotation chosen; ltext := text (deref h ptr);
               forPoint := ptr |}.
Proof.
  unfold placeLabelForPoint.
  destruct (sort byScoreDescending (scoredCandidates this h ptr))
    as [ | chosen rest] eqn:Es; [discriminate | ].
  destruct (le (score chosen) (Fin (-100000))) eqn:Ele; [discriminate | ].
  intros E; inversion E; subst; clear E.
  exists chosen; split; [reflexivity | split; [ | split; [exact Ele | reflexivity]]].
  apply (sort_In byScoreDescending); rewrite Es; now left.
Qed.


Lemma placeLabelForPoint_TypeError (this : LabelPlacer) (h : Heap) (ptr : PointRef) :
  placeLabelForPoint this h ptr = TypeError <->
  generateCandidates this (deref h ptr) = [].
Proof.
  unfold placeLabelForPoint.
  destruct (sort byScoreDescending (scoredCandidates this h ptr))
    as [ | chosen rest] eqn:Es.
  - apply sort_nil_inv in Es; unfold scoredCandidates in Es.
    apply map_eq_nil in Es; apply map_eq_nil in Es; tauto.
  - split.
    + destruct (le (score chosen) (Fin (-100000))); discriminate.
    + intros E; unfold scoredCandidates in Es; rewrite E in Es; discriminate.
Qed.

(** With a ring and an angle there is a candidate: the first one of the
    first fallback ring. *)
Lemma generateCandidates_nonempty (this : LabelPlacer) (pt : Point) :
  (1 <= rings (options this))%nat ->
  (1 <= anglesPerRing (options this))%nat ->
  generateCandidates this pt <> [].
Proof.
  intros Hr Ha E.
  assert (Hin : In (fallbackCandidate this pt 1 0) (generateCandidates this pt)).
  { unfold generateCandidates; rewrite !in_app_iff; right; right; left.
    apply in_flat_map; exists 1%nat; split; [apply in_seq; lia | ].
    apply in_map, in_seq; lia. }
  rewrite E in Hin; destruct Hin.
Qed.

(** ** The groups *)

Lemma key_eqb_eq (a b : Key) : key_eqb a b = true <-> a = b.
Proof.
  unfold key_eqb; destruct a as [a1 a2], b as [b1 b2]; cbn [fst snd].
  destruct (number_eq_dec a1 b1); [destruct (number_eq_dec a2 b2) | ];
    split; intros E; try discriminate; try congruence.
Qed.

Lemma key_eqb_refl (a : Key) : key_eqb a a = true.
Proof. now apply key_eqb_eq. Qed.

Lemma key_eqb_neq (a b : Key) : key_eqb a b = false <-> a <> b.
Proof.
  rewrite <- key_eqb_eq; destruct (key_eqb a b); split; congruence.
Qed.

Lemma Key_eq_dec (a b : Key) : {a = b} + {a <> b}.
Proof.
  destruct (key_eqb a b) eqn:E.
  - left; now apply key_eqb_eq.
  - right; now apply key_eqb_neq.
Qed.

Lemma addToGroup_new (key : Key) (p : ObjId) (groups : list (Key * list ObjId)) :
  ~ In key (map fst groups) ->
  addToGroup key p groups = groups ++ [(key, [p])].
Proof.
  induction groups as [ | [k g] rest IH]; intros Hk; cbn [addToGroup app].
  - reflexivity.
  - cbn [map fst In] in Hk.
    assert (E : key_eqb k key = false) by (apply key_eqb_neq; tauto).
    rewrite E, IH; [reflexivity | tauto].
Qed.

Lemma addToGroup_old (key : Key) (p : ObjId) (l1 l2 : list (Key * list ObjId))
  (g : list ObjId) :
  ~ In key (map fst l1) ->
  addToGroup key p (l1 ++ (key, g) :: l2) = l1 ++ (key, g ++ [p]) :: l2.
Proof.
  induction l1 as [ | [k g1] rest IH]; intros Hk; cbn [addToGroup app].
  - now rewrite key_eqb_refl.
  - cbn [map fst In] in Hk.
    assert (E : key_eqb k key = false) by (apply key_eqb_neq; tauto).
    rewrite E, IH; [reflexivity | tauto].
Qed.

Lemma first_key (key : Key) (groups : list (Key * list ObjId)) :
  In key (map fst groups) ->
  exists l1 g l2, groups = l1 ++ (key, g) :: l2 /\ ~ In key (map fst l1).
Proof.
  induction groups as [ | [k g] rest IH]; cbn [map fst In]; [tauto | ].
  intros Hk; destruct (Key_eq_dec k key) as [-> | Hne].
  - exists [], g, rest; split; [reflexivity | tauto].
  - destruct IH as (l1 & g1 & l2 & -> & Hl1); [tauto | ].
    exists ((k, g) :: l1), g1, l2; split; [reflexivity | ].
    cbn [map fst In]; tauto.
Qed.

Lemma filter_snoc {A : Type} (f : A -> bool) (l : list A) (a : A) :
  filter f (l ++ [a]) = filter f l ++ (if f a then [a] else []).
Proof. rewrite filter_app; reflexivity. Qed.

Lemma filter_nil_iff {A : Type} (f : A -> bool) (l : list A) :
  filter f l = [] <-> forall a, In a l -> f a = false.
Proof.
  induction l as [ | b l IH]; cbn [filter In]; [tauto | ].
  destruct (f b) eqn:E; split.
  - discriminate.
  - intros H; rewrite (H b) in E by tauto; discriminate.
  - intros H a [<- | Ha]; [exact E | now apply IH].
  - intros H; apply IH; intros a Ha; apply H; tauto.
Qed.

Lemma addToGroup_GroupsOf (h : Heap) (pts : list ObjId) (p : ObjId)
  (groups : list (Key * list ObjId)) :
  GroupsOf h pts groups ->
  GroupsOf h (pts ++ [p]) (addToGroup (keyOf (h p)) p groups).
Proof.
  intros (Hnd & Hg & Hk).
  destruct (in_dec Key_eq_dec (keyOf (h p)) (map fst groups)) as [Hin | Hnin].
  - destruct (first_key _ _ Hin) as (l1 & g & l2 & -> & Hl1).
    rewrite addToGroup_old by exact Hl1.
    assert (Ekeys : map fst (l1 ++ (keyOf (h p), g ++ [p]) :: l2)
                    = map fst (l1 ++ (keyOf (h p), g) :: l2))
      by (rewrite !map_app; reflexivity).
    split; [now rewrite Ekeys | split].
    + intros k g' Hin'; rewrite filter_snoc.
      apply in_app_or in Hin' as [Hin' | [Hin' | Hin']].
      * destruct (Hg k g') as (Hne & Eg); [apply in_or_app; now left | ].
        assert (Ek : key_eqb k (keyOf (h p)) = false).
        { apply key_eqb_neq; intros ->; apply Hl1.
          apply in_map_iff; exists (keyOf (h p), g'); split; [reflexivity | exact Hin']. }
        rewrite Ek, app_nil_r; tauto.
      * inversion Hin'; subst; clear Hin'.
        destruct (Hg (keyOf (h p)) g) as (Hne & Eg);
          [apply in_or_app; right; now left | ].
        rewrite key_eqb_refl, <- Eg; split; [ | reflexivity].
        destruct g; discriminate.
      * destruct (Hg k g') as (Hne & Eg); [apply in_or_app; right; now right | ].
        assert (Ek : key_eqb k (keyOf (h p)) = false).
        { apply key_eqb_neq; intros ->.
          rewrite map_app in Hnd; cbn [map fst] in Hnd.
          apply NoDup_remove_2 in Hnd; apply Hnd, in_or_app; right.
          apply in_map_iff; exists (keyOf (h p), g'); split; [reflexivity | exact Hin']. }
        rewrite Ek, app_nil_r; tauto.
    + intros id Hid; rewrite Ekeys.
      apply in_app_or in Hid as [Hid | [<- | []]]; [now apply Hk | exact Hin].
  - rewrite addToGroup_new by exact Hnin.
    split; [ | split].
    + rewrite map_app; cbn [map fst].
      apply NoDup_rev in Hnd.
      rewrite <- (rev_involutive (map fst groups ++ [keyOf (h p)])).
      apply NoDup_rev; rewrite rev_app_distr; cbn [rev app].
      constructor; [rewrite <- in_rev; exact Hnin | exact Hnd].
    + intros k g' Hin'; rewrite filter_snoc.
      apply in_app_or in Hin' as [Hin' | [Hin' | []]].
      * destruct (Hg k g' Hin') as (Hne & Eg).
        assert (Ek : key_eqb k (keyOf (h p)) = false).
        { apply key_eqb_neq; intros ->; apply Hnin.
          apply in_map_iff; exists (keyOf (h p), g'); split; [reflexivity | exact Hin']. }
        rewrite Ek, app_nil_r; tauto.
      * inversion Hin'; subst; clear Hin'.
        rewrite key_eqb_refl; split; [discriminate | ].
        replace (filter _ pts) with (@nil ObjId); [reflexivity | ].
        symmetry; apply filter_nil_iff; intros id Hid.
        apply key_eqb_neq; intros E; apply Hnin; rewrite E; now apply Hk.
    + intros id Hid; rewrite map_app; apply in_or_app.
      apply in_app_or in Hid as [Hid | [<- | []]]; [left; now apply Hk | right; now left].
Qed.

Lemma pointGroups_acc (h : Heap) (pts pre : list ObjId)
  (groups : list (Key * list ObjId)) :
  GroupsOf h pre groups ->
  GroupsOf h (pre ++ pts)
    (fold_left (fun groups pt => addToGroup (keyOf (h pt)) pt groups) pts groups).
Proof.
  revert pre groups; induction pts as [ | p pts IH]; intros pre groups HG.
  - now rewrite app_nil_r.
  - cbn [fold_left].
    replace (pre ++ p :: pts) with ((pre ++ [p]) ++ pts)
      by (rewrite <- app_assoc; reflexivity).
    apply IH, addToGroup_GroupsOf, HG.
Qed.

Lemma pointGroups_GroupsOf (h : Heap) (pts : list ObjId) :
  GroupsOf h pts (pointGroups h pts).
Proof.
  apply (pointGroups_acc h pts [] []).
  split; [constructor | split; intros; contradiction].
Qed.

(** The sort rearranges. *)
Lemma insertSorted_Permutation {A : Type} (compareFn : A -> A -> number)
  (a : A) (l : list A) :
  Permutation (insertSorted compareFn a l) (a :: l).
Proof.
  induction l as [ | b l IH]; cbn [insertSorted]; [reflexivity | ].
  destruct (gt (compareFn b a) (Fin 0)); [reflexivity | ].
  rewrite IH; apply perm_swap.
Qed.

Lemma sort_Permutation_acc {A : Type} (compareFn : A -> A -> number)
  (l acc : list A) :
  Permutation (fold_left (fun acc a => insertSorted compareFn a acc) l acc)
              (acc ++ l).
Proof.
  revert acc; induction l as [ | a l IH]; intros acc; cbn [fold_left].
  - now rewrite app_nil_r.
  - rewrite IH, insertSorted_Permutation; cbn [app].
    apply Permutation_middle.
Qed.

Lemma sort_Permutation {A : Type} (compareFn : A -> A -> number) (l : list A) :
  Permutation (sort compareFn l) l.
Proof. unfold sort; now rewrite sort_Permutation_acc. Qed.

(** Every group that is processed is a non-empty list of labelled points of
    the input. *)
Lemma sortedGroups_In (h : Heap) (points : list ObjId) (g : list ObjId) :
  In g (sortedGroups h points) ->
  g <> [] /\ forall id, In id g -> In id points /\ hasLabel (h id) = true.
Proof.
  unfold sortedGroups; intros Hg.
  apply in_map_iff in Hg as ([k g'] & <- & Hg); cbn [snd].
  apply sort_In in Hg.
  destruct (pointGroups_GroupsOf h (filter (fun pt => hasLabel (h pt)) points))
    as (_ & HG & _).
  destruct (HG k g' Hg) as (Hne & Eg); split; [exact Hne | ].
  intros id Hid; rewrite Eg in Hid.
  apply filter_In in Hid as (Hid & _); now apply filter_In in Hid.
Qed.

(** ** The point of a group *)

Lemma groupPoint_Some (h : Heap) (g : list ObjId) :
  g <> [] -> exists ptr, groupPoint h g = Some ptr.
Proof.
  destruct g as [ | a [ | b g]]; [congruence | | ]; intros _; cbn; eauto.
Qed.

Lemma max2_finite_acc (l : list number) (acc : number) :
  (forall a, In a l -> isFinite a = true) ->
  isFinite acc = true ->
  isFinite (fold_left max2 l acc) = true.
Proof.
  revert acc; induction l as [ | a l IH]; intros acc Hl Hacc; cbn [fold_left].
  - exact Hacc.
  - apply IH; [intros b Hb; apply Hl; now right | ].
    destruct acc; try discriminate.
    specialize (Hl a (or_introl eq_refl)); destruct a; try discriminate.
    reflexivity.
Qed.

Lemma Math_max_finite (l : list number) :
  l <> [] ->
  (forall a, In a l -> isFinite a = true) ->
  isFinite (Math_max l) = true.
Proof.
  destruct l as [ | a l]; [congruence | ]; intros _ Hl.
  unfold Math_max; cbn [fold_left]; apply max2_finite_acc.
  - intros b Hb; apply Hl; now right.
  - specialize (Hl a (or_introl eq_refl)); destruct a; try discriminate.
    reflexivity.
Qed.

Lemma groupPoint_finite (h : Heap) (g : list ObjId) (ptr : PointRef) :
  groupPoint h g = Some ptr ->
  (forall id, In id g -> FinitePoint (h id)) ->
  FinitePoint (deref h ptr).
Proof.
  destruct g as [ | a [ | b g]]; [discriminate | | ]; intros E Hg;
    inversion E; subst; clear E; cbn [deref].
  - apply Hg; now left.
  - destruct (Hg a (or_introl eq_refl)) as (Hx & Hy & _ & _).
    unfold FinitePoint, combinedPoint; cbn [x y width height].
    repeat split; try assumption.
    + apply Math_max_finite; [discriminate | ].
      intros v Hv; apply in_map_iff in Hv as (id & <- & Hid).
      now apply Hg.
    + apply Math_max_finite; [discriminate | ].
      intros v Hv; apply in_map_iff in Hv as (id & <- & Hid).
      now apply Hg.
Qed.

(** ** The loop over the groups *)

Lemma placeGroup_Ok (this this' : LabelPlacer) (h : Heap) (g : list ObjId) :
  placeGroup this h g = Ok this' ->
  exists ptr,
    groupPoint h g = Some ptr /\
    ((placeLabelForPoint this h ptr = Ok None /\ this' = this) \/
     (exists label info,
        placeLabelForPoint this h ptr = Ok (Some (label, info)) /\
        this' = commit this label info)).
Proof.
  unfold placeGroup.
  destruct (groupPoint h g) as [ptr | ]; [ | discriminate].
  destruct (placeLabelForPoint this h ptr) as [[[label info] | ] | ] eqn:Ep;
    intros E; inversion E; subst; exists ptr; (split; [reflexivity | ]).
  - right; exists label, info; split; [exact Ep | reflexivity].
  - left; split; [exact Ep | reflexivity].
Qed.

Lemma placeGroup_TypeError (this : LabelPlacer) (h : Heap) (g : list ObjId) :
  placeGroup this h g = TypeError ->
  g = [] \/ exists ptr, groupPoint h g = Some ptr /\
                        generateCandidates this (deref h ptr) = [].
Proof.
  unfold placeGroup.
  destruct (groupPoint h g) as [ptr | ] eqn:Eg.
  - destruct (placeLabelForPoint this h ptr) as [[[label info] | ] | ] eqn:Ep;
      try discriminate.
    intros _; right; exists ptr; split; [reflexivity | ].
    now apply placeLabelForPoint_TypeError.
  - intros _; left; destruct g as [ | a [ | b g]]; [reflexivity | discriminate | discriminate].
Qed.

Lemma placeGroups_invariant (P : LabelPlacer -> Prop) (h : Heap)
  (groups : list (list ObjId)) :
  (forall this g this',
     P this -> In g groups -> placeGroup this h g = Ok this' -> P this') ->
  forall this this',
    P this -> placeGroups this h groups = Ok this' -> P this'.
Proof.
  induction groups as [ | g groups IH]; intros Hstep this this' HP; cbn [placeGroups].
  - intros E; inversion E; now subst.
  - destruct (placeGroup this h g) as [mid | ] eqn:Eg; [ | discriminate].
    apply IH.
    + intros t g' t' Ht Hg'; apply Hstep; [exact Ht | now right].
    + eapply Hstep; [exact HP | now left | exact Eg].
Qed.

Lemma placeGroups_total (P : LabelPlacer -> Prop) (h : Heap)
  (groups : list (list ObjId)) :
  (forall this g this',
     P this -> In g groups -> placeGroup this h g = Ok this' -> P this') ->
  (forall this g,
     P this -> In g groups -> placeGroup this h g <> TypeError) ->
  forall this, P this -> exists this', placeGroups this h groups = Ok this'.
Proof.
  induction groups as [ | g groups IH]; intros Hstep Hok this HP; cbn [placeGroups].
  - eauto.
  - destruct (placeGroup this h g) as [mid | ] eqn:Eg.
    + apply IH.
      * intros t g' t' Ht Hg'; apply Hstep; [exact Ht | now right].
      * intros t g' Ht Hg'; apply Hok; [exact Ht | now right].
      * eapply Hstep; [exact HP | now left | exact Eg].
    + exfalso; eapply Hok; [exact HP | now left | exact Eg].
Qed.

Lemma commit_config (this : LabelPlacer) (label : LabelBox) (info : DebugInfo) :
  SameConfig (commit this label info) this.
Proof. split; reflexivity. Qed.

Lemma reset_config (this : LabelPlacer) : SameConfig (reset this) this.
Proof. split; reflexivity. Qed.

Lemma SameConfig_trans (a b c : LabelPlacer) :
  SameConfig a b -> SameConfig b c -> SameConfig a c.
Proof. intros [E1 E2] [E3 E4]; split; congruence. Qed.

Lemma placeGroup_config (this this' : LabelPlacer) (h : Heap) (g : list ObjId) :
  placeGroup this h g = Ok this' -> SameConfig this' this.
Proof.
  intros E; apply placeGroup_Ok in E
    as (ptr & _ & [(_ & ->) | (label & info & _ & ->)]); split; reflexivity.
Qed.

Lemma WellFormed_config (a b : LabelPlacer) (h : Heap) (points : list ObjId) :
  SameConfig a b -> WellFormed b h points -> WellFormed a h points.
Proof.
  intros [E1 E2] (H1 & H2 & H3 & H4 & H5).
  unfold WellFormed, FiniteChart, ProperChart, FiniteOptions in *.
  rewrite E1, E2; tauto.
Qed.

(** The point of a processed group is finite, on finite input. *)
Lemma group_finite (h : Heap) (points g : list ObjId) (ptr : PointRef) :
  FiniteInput h points ->
  In g (sortedGroups h points) ->
  groupPoint h g = Some ptr ->
  FinitePoint (deref h ptr).
Proof.
  intros Hfin Hg Eptr; apply (groupPoint_finite h g ptr Eptr).
  intros id Hid; destruct (sortedGroups_In h points g Hg) as (_ & Hall).
  destruct (Hall id Hid); now apply Hfin.
Qed.

(** No pass on a well-formed input with a ring and an angle raises. *)
Lemma placeGroup_no_TypeError (this : LabelPlacer) (h : Heap)
  (points g : list ObjId) :
  (1 <= rings (options this))%nat ->
  (1 <= anglesPerRing (options this))%nat ->
  In g (sortedGroups h points) ->
  placeGroup this h g <> TypeError.
Proof.
  intros Hr Ha Hg E; apply placeGroup_TypeError in E as [-> | (ptr & _ & E)].
  - now destruct (sortedGroups_In h points [] Hg).
  - now apply (generateCandidates_nonempty this (deref h ptr) Hr Ha).
Qed.

Lemma placeAll_total (this : LabelPlacer) (h : Heap) (points : list ObjId) :
  (1 <= rings (options this))%nat ->
  (1 <= anglesPerRing (options this))%nat ->
  exists labels, placed this h points = Ok labels.
Proof.
  intros Hr Ha; unfold placed, placeAll.
  destruct (placeGroups_total (fun t => SameConfig t this) h (sortedGroups h points))
    with (this := reset this) as (this' & E).
  - intros t g t' Ht Hg Et; eapply SameConfig_trans; [ | exact Ht].
    now apply placeGroup_config in Et.
  - intros t g [_ Ht] Hg; apply (placeGroup_no_TypeError t h points g);
      try rewrite Ht; assumption.
  - apply reset_config.
  - rewrite E; eauto.
Qed.

(** ** No two labels of a pass overlap *)

Lemma intersects_sym (a b : RTreeBox) : intersects a b = intersects b a.
Proof.
  unfold intersects, ge.
  destruct (le (minX b) (maxX a)), (le (minY b) (maxY a)),
           (le (minX a) (maxX b)), (le (minY a) (maxY b)); reflexivity.
Qed.

Lemma NoOverlap_nil : NoOverlap [].
Proof. intros i j a b _ Hi; destruct i; discriminate. Qed.

Lemma NoOverlap_snoc (l : list LabelBox) (x : LabelBox) :
  NoOverlap l ->
  (forall a, In a l -> intersects (toRTreeBox x) (toRTreeBox a) = false) ->
  NoOverlap (l ++ [x]).
Proof.
  intros Hl Hx i j a b Hij Hi Hj.
  assert (Hlast : forall k c, nth_error (l ++ [x]) k = Some c ->
                    (k < List.length l)%nat /\ nth_error l k = Some c
                    \/ k = List.length l /\ c = x).
  { intros k c Hk.
    destruct (Nat.lt_ge_cases k (List.length l)) as [Hlt | Hge].
    - left; split; [exact Hlt | ]; now rewrite nth_error_app1 in Hk.
    - right; rewrite nth_error_app2 in Hk by exact Hge.
      destruct (k - List.length l)%nat as [ | m] eqn:Em; cbn in Hk.
      + split; [lia | congruence].
      + destruct m; discriminate. }
  destruct (Hlast i a Hi) as [(Hi1 & Hi2) | (Hi1 & ->)];
    destruct (Hlast j b Hj) as [(Hj1 & Hj2) | (Hj1 & ->)].
  - exact (Hl i j a b Hij Hi2 Hj2).
  - rewrite intersects_sym; apply Hx; eapply nth_error_In; eauto.
  - apply Hx; eapply nth_error_In; eauto.
  - lia.
Qed.

Lemma placeGroup_IndexInvariant (this0 this this' : LabelPlacer) (h : Heap)
  (points g : list ObjId) :
  WellFormed this0 h points ->
  SameConfig this this0 ->
  In g (sortedGroups h points) ->
  placeGroup this h g = Ok this' ->
  IndexInvariant this -> IndexInvariant this'.
Proof.
  intros Hwf Hcfg Hg Estep (Htree & Hno & Hnan).
  apply WellFormed_config with (a := this) in Hwf; [ | exact Hcfg].
  destruct Hwf as (Hchart & Hproper & Hopts & Hoob & Hfin).
  apply placeGroup_Ok in Estep
    as (ptr & Eptr & [(_ & ->) | (label & info & Eplace & ->)]);
    [now repeat split | ].
  pose proof (group_finite h points g ptr Hfin Hg Eptr) as Hpt.
  apply placeLabelForPoint_Some in Eplace as (chosen & _ & Hin & Hle & Elabel).
  destruct (scoredCandidates_clear this h ptr Hpt Hchart Hproper Hopts Hoob
              chosen Hin Hle) as (Ecol & _ & _).
  split; [ | split]; cbn [commit tree placedLabels].
  - unfold tree_insert; rewrite map_app, Htree; reflexivity.
  - apply NoOverlap_snoc; [exact Hno | ].
    intros a Ha.
    unfold collisions, tree_search in Ecol; rewrite Hnan in Ecol.
    rewrite filter_nil_iff in Ecol.
    specialize (Ecol (toRTreeBox a)); rewrite Htree in Ecol.
    rewrite <- Ecol by (now apply in_map).
    rewrite Elabel; reflexivity.
  - unfold tree_insert; rewrite existsb_app, Hnan; cbn [existsb orb].
    destruct (scoredCandidates_bound this h ptr Hpt Hchart Hproper Hopts Hoob
                chosen Hin) as (a & b & sc & Echosen & _).
    destruct (FinitePoint_inv _ Hpt) as (px & py & w & hh & t & ap & Ept).
    rewrite Elabel, Echosen, Ept; reflexivity.
Qed.

Lemma placeAll_IndexInvariant (this : LabelPlacer) (h : Heap)
  (points : list ObjId) (labels : list LabelBox) :
  WellFormed this h points ->
  placed this h points = Ok labels -> NoOverlap labels.
Proof.
  intros Hwf; unfold placed, placeAll.
  destruct (placeGroups (reset this) h (sortedGroups h points)) as [this' | ] eqn:E;
    [ | discriminate].
  intros E'; inversion E'; subst; clear E'.
  apply (placeGroups_invariant
           (fun t => SameConfig t this /\ IndexInvariant t) h
           (sortedGroups h points)) with (this := reset this) in E.
  - now destruct E as (_ & _ & Hno & _).
  - intros t g t' [Hcfg Hinv] Hg Et; split.
    + eapply SameConfig_trans; [ | exact Hcfg]; now apply placeGroup_config in Et.
    + eapply placeGroup_IndexInvariant; eauto.
  - split; [apply reset_config
           | split; [reflexivity | split; [apply NoOverlap_nil | reflexivity]]].
Qed.

(** ** A chart without area *)

Lemma add_NaN_r (a : number) : add a NaN = NaN.
Proof. now destruct a. Qed.

Lemma sub_NaN_l (a : number) : sub NaN a = NaN.
Proof. now destruct a. Qed.

Lemma scaleInf_cases (v : R) (pos : bool) :
  (v = 0 /\ scaleInf v pos = NaN) \/
  (v <> 0 /\ (scaleInf v pos = PosInf \/ scaleInf v pos = NegInf)).
Proof.
  unfold scaleInf; destruct (Req_dec_T v 0) as [E | N].
  - left; now rewrite (Reqb_true _ _ E).
  - right; rewrite (Reqb_false _ _ N); split; [exact N | ].
    destruct (Bool.eqb (Rltb 0 v) pos); tauto.
Qed.

(** The bonus for the centre, when one of the two coordinates of the
    centred position is not finite. *)
Lemma centerBonus_tail (dx dy : number) :
  (dx = PosInf \/ dx = NegInf \/ exists v, dx = Fin v) ->
  (dy = PosInf \/ dy = NegInf \/ exists v, dy = Fin v) ->
  ~ ((exists v, dx = Fin v) /\ (exists v, dy = Fin v)) ->
  mul (sub (Fin 1) (div (Math_sqrt (add (mul dx dx) (mul dy dy))) Math_SQRT2))
      (Fin 10) = NegInf.
Proof.
  assert (Hs : Rltb (sqrt 2) 0 = false) by (apply Rltb_false, sqrt_pos).
  assert (H10 : scaleInf 10 false = NegInf).
  { unfold scaleInf; rewrite Reqb_false by lra; rewrite Rltb_true by lra.
    reflexivity. }
  intros [-> | [-> | (u & ->)]] [-> | [-> | (v & ->)]] Hnot;
    cbn [mul add Math_sqrt div sub Math_SQRT2]; rewrite ?Hs; cbn [sub mul];
    try exact H10.
  exfalso; apply Hnot; eauto.
Qed.

Section ZeroArea.
Variables (this : LabelPlacer) (h : Heap) (ptr : PointRef).
Variables (px py w hh : R) (t : string) (ap : option (list ObjId)).
Hypothesis Hpt : deref h ptr = mkPoint (Fin px) (Fin py) t (Fin w) (Fin hh) ap.
Variables (W H pp ob : R).
Hypothesis HW : chartSize this = mkChartSize (Fin W) (Fin H).
Hypothesis Hpp : pointPenalty (options this) = Fin pp.
Hypothesis Hob : outOfBoundsPenalty (options this) = Fin ob.

Let pt := mkPoint (Fin px) (Fin py) t (Fin w) (Fin hh) ap.

(** The two quotients of the centre bonus. *)
Lemma centerBonus_quotients (a b : R) (r0 s0 : number) :
  centerBonus this pt (mkCandidate (Fin a) (Fin b) r0 s0)
  = mul (sub (Fin 1)
          (div (Math_sqrt
                  (add (mul (div (Fin (a + w / 2 - W / 2)) (Fin (W / 2)))
                            (div (Fin (a + w / 2 - W / 2)) (Fin (W / 2))))
                       (mul (div (Fin (b + hh / 2 - H / 2)) (Fin (H / 2)))
                            (div (Fin (b + hh / 2 - H / 2)) (Fin (H / 2))))))
               Math_SQRT2))
        (Fin 10).
Proof.
  unfold centerBonus, labelCenterX, labelCenterY; rewrite HW.
  cbn [chartWidth chartHeight x y width height pt cx cy].
  rewrite !(div_fin _ 2) by lra; rewrite !add_fin, !sub_fin.
  reflexivity.
Qed.

Lemma quotient_cases (u d : R) :
  (d = 0 /\ u = 0 /\ div (Fin u) (Fin d) = NaN) \/
  (d = 0 /\ u <> 0 /\ (div (Fin u) (Fin d) = PosInf \/ div (Fin u) (Fin d) = NegInf)) \/
  (d <> 0 /\ div (Fin u) (Fin d) = Fin (u / d)).
Proof.
  destruct (Req_dec_T d 0) as [E | N].
  - unfold div; rewrite (Reqb_true _ _ E).
    destruct (scaleInf_cases u true) as [(E0 & ->) | (N0 & Hc)]; tauto.
  - right; right; split; [exact N | now apply div_fin].
Qed.

(** Without area the centre bonus is -Infinity, or NaN when the centre of
    the label has the coordinate 0 on an axis without extent. *)
Lemma centerBonus_zero_area (a b : R) (r0 s0 : number) :
  W = 0 \/ H = 0 ->
  (W = 0 -> a + w / 2 <> 0) ->
  (H = 0 -> b + hh / 2 <> 0) ->
  centerBonus this pt (mkCandidate (Fin a) (Fin b) r0 s0) = NegInf.
Proof.
  intros Hzero Hx Hy; rewrite centerBonus_quotients.
  apply centerBonus_tail.
  - destruct (quotient_cases (a + w / 2 - W / 2) (W / 2))
      as [(E & E0 & _) | [(_ & _ & [-> | ->]) | (_ & ->)]]; eauto.
    exfalso; apply Hx; lra.
  - destruct (quotient_cases (b + hh / 2 - H / 2) (H / 2))
      as [(E & E0 & _) | [(_ & _ & [-> | ->]) | (_ & ->)]]; eauto.
    exfalso; apply Hy; lra.
  - intros [(u & Eu) (v & Ev)].
    destruct Hzero as [-> | ->].
    + destruct (quotient_cases (a + w / 2 - 0 / 2) (0 / 2))
        as [(_ & _ & E) | [(_ & _ & [E | E]) | (N & _)]]; try congruence.
      apply N; lra.
    + destruct (quotient_cases (b + hh / 2 - 0 / 2) (0 / 2))
        as [(_ & _ & E) | [(_ & _ & [E | E]) | (N & _)]]; try congruence.
      apply N; lra.
Qed.

Lemma centerBonus_zero_NaN (a b : R) (r0 s0 : number) :
  (W = 0 /\ a + w / 2 = 0) \/ (H = 0 /\ b + hh / 2 = 0) ->
  centerBonus this pt (mkCandidate (Fin a) (Fin b) r0 s0) = NaN.
Proof.
  intros Hzero; rewrite centerBonus_quotients.
  destruct Hzero as [(-> & E) | (-> & E)].
  - destruct (quotient_cases (a + w / 2 - 0 / 2) (0 / 2))
      as [(_ & _ & ->) | [(_ & N & _) | (N & _)]];
      [ | exfalso; apply N; lra | exfalso; apply N; lra].
    cbn [mul]. cbn [add Math_sqrt div sub mul]. reflexivity.
  - destruct (quotient_cases (b + hh / 2 - 0 / 2) (0 / 2))
      as [(_ & _ & ->) | [(_ & N & _) | (N & _)]];
      [ | exfalso; apply N; lra | exfalso; apply N; lra].
    cbn [mul]; rewrite add_NaN_r; reflexivity.
Qed.

(** The score, up to the centre bonus. *)
Lemma scoreOf_shape (a b : R) (r0 s0 : number) :
  exists s3 d,
    scoreOf this h ptr (mkCandidate (Fin a) (Fin b) r0 s0)
    = sub (if isOutOfBounds this (mkRect (Fin a) (Fin b) (Fin w) (Fin hh))
           then sub (add (Fin s3)
                         (centerBonus this pt (mkCandidate (Fin a) (Fin b) r0 s0)))
                    (Fin ob)
           else add (Fin s3)
                    (centerBonus this pt (mkCandidate (Fin a) (Fin b) r0 s0)))
          (Fin (d * 10)).
Proof.
  destruct (distance_fin px py w hh t ap a b r0 s0) as (d & Ed & Hd).
  destruct (minBorderDistance_fin this px py w hh t ap W H HW a b r0 s0) as (m & Em).
  fold pt in Ed, Em.
  unfold scoreOf; rewrite Hpt; fold pt.
  rewrite Ed, Em, Hob.
  cbn [allPoints pt cx cy width height].
  set (n := List.length (collisions this pt _)).
  set (cb := centerBonus this pt _).
  destruct (0 <? n)%nat; destruct ap as [others | ];
    rewrite ?(coveredPenalty_fin this h ptr pp Hpp); num; cbv zeta;
    repeat match goal with |- context [if Rltb ?u ?v then _ else _] =>
             destruct (Rltb u v) end;
    num; eauto.
Qed.

Lemma scoreOf_zero_area (a b : R) (r0 s0 : number) :
  W = 0 \/ H = 0 ->
  (W = 0 -> a + w / 2 <> 0) ->
  (H = 0 -> b + hh / 2 <> 0) ->
  scoreOf this h ptr (mkCandidate (Fin a) (Fin b) r0 s0) = NegInf.
Proof.
  intros Hzero Hx Hy.
  destruct (scoreOf_shape a b r0 s0) as (s3 & d & ->).
  rewrite (centerBonus_zero_area a b r0 s0 Hzero Hx Hy).
  destruct (isOutOfBounds _ _); reflexivity.
Qed.

Lemma scoreOf_zero_NaN (a b : R) (r0 s0 : number) :
  (W = 0 /\ a + w / 2 = 0) \/ (H = 0 /\ b + hh / 2 = 0) ->
  scoreOf this h ptr (mkCandidate (Fin a) (Fin b) r0 s0) = NaN.
Proof.
  intros Hzero.
  destruct (scoreOf_shape a b r0 s0) as (s3 & d & ->).
  rewrite (centerBonus_zero_NaN a b r0 s0 Hzero).
  destruct (isOutOfBounds _ _); reflexivity.
Qed.

End ZeroArea.

Lemma applyBoundaryPenalty_score (pt : Point) (c : Candidate) :
  score (applyBoundaryPenalty pt c) = score c \/
  score (applyBoundaryPenalty pt c) = sub (score c) (Fin 100000).
Proof.
  unfold applyBoundaryPenalty.
  destruct (overlapsExclusionZone pt c || violatesBoundary pt c); cbn; tauto.
Qed.

Section ZeroAreaPass.
Variables (this : LabelPlacer) (h : Heap) (ptr : PointRef).
Hypothesis Hpt : FinitePoint (deref h ptr).
Hypothesis Hchart : FiniteChart this.
Hypothesis Hopts : FiniteOptions this.
Hypothesis Hzero : ZeroArea this.

(** Without area every score is -Infinity or NaN. *)
Lemma zero_area_scores (c' : Candidate) :
  In c' (scoredCandidates this h ptr) ->
  score c' = NaN \/ score c' = NegInf.
Proof.
  intros Hc'; apply scoredCandidates_In in Hc' as (c & Hc & ->).
  destruct Hopts as (Hrad & Hpp & Hob).
  destruct (generateCandidates_fin this _ c Hpt Hchart Hrad Hc) as (a & b & ->).
  destruct (FinitePoint_inv _ Hpt) as (px & py & w & hh & t & ap & Ept).
  destruct (FiniteChart_inv _ Hchart) as (W & H & Esize).
  apply isFinite_inv in Hpp as (pp & Hpp); apply isFinite_inv in Hob as (ob & Hob).
  assert (Hz : W = 0 \/ H = 0).
  { destruct Hzero as [E | E]; rewrite Esize in E; cbn in E; inversion E; tauto. }
  assert (Hs : scoreOf this h ptr (mkCandidate (Fin a) (Fin b) (Fin 0) (Fin 0)) = NaN
               \/ scoreOf this h ptr (mkCandidate (Fin a) (Fin b) (Fin 0) (Fin 0)) = NegInf).
  { destruct (Req_dec_T W 0) as [EW | NW];
      [destruct (Req_dec_T (a + w / 2) 0) as [Ex | Nx] | ];
      [ | destruct (Req_dec_T H 0) as [EH | NH];
          [destruct (Req_dec_T (b + hh / 2) 0) as [Ey | Ny] | ] | ];
      try (left; apply (scoreOf_zero_NaN this h ptr px py w hh t ap Ept W H pp ob
                          Esize Hpp Hob); tauto);
      try (right; apply (scoreOf_zero_area this h ptr px py w hh t ap Ept W H pp ob
                           Esize Hpp Hob); tauto).
    - destruct (Req_dec_T (b + hh / 2) 0) as [Ey | Ny].
      + left; apply (scoreOf_zero_NaN this h ptr px py w hh t ap Ept W H pp ob
                          Esize Hpp Hob); right; split; [tauto | exact Ey].
      + right; apply (scoreOf_zero_area this h ptr px py w hh t ap Ept W H pp ob
                           Esize Hpp Hob); tauto. }
  destruct (applyBoundaryPenalty_score (deref h ptr)
              (scoreCandidate this h ptr (mkCandidate (Fin a) (Fin b) (Fin 0) (Fin 0))))
    as [E | E]; rewrite E; cbn [scoreCandidate score];
    destruct Hs as [-> | ->]; cbn; tauto.
Qed.

(** So the sort moves nothing. *)
Lemma zero_area_sort :
  sort byScoreDescending (scoredCandidates this h ptr)
  = scoredCandidates this h ptr.
Proof.
  apply sort_unmoved; intros a b Ha Hb.
  unfold byScoreDescending.
  destruct (zero_area_scores a Ha) as [-> | ->];
    destruct (zero_area_scores b Hb) as [-> | ->]; reflexivity.
Qed.

(** When no centre is on an axis without extent, every score is -Infinity
    and the label is dropped. *)
Lemma zero_area_dropped :
  CentresOffAxes this (deref h ptr) ->
  generateCandidates this (deref h ptr) <> [] ->
  placeLabelForPoint this h ptr = Ok None.
Proof.
  intros Hoff Hne.
  assert (Hall : forall c', In c' (scoredCandidates this h ptr) -> score c' = NegInf).
  { intros c' Hc'; apply scoredCandidates_In in Hc' as (c & Hc & ->).
    destruct Hopts as (Hrad & Hpp & Hob).
    destruct (Hoff c Hc) as (Hx & Hy).
    destruct (generateCandidates_fin this _ c Hpt Hchart Hrad Hc) as (a & b & ->).
    destruct (FinitePoint_inv _ Hpt) as (px & py & w & hh & t & ap & Ept).
    destruct (FiniteChart_inv _ Hchart) as (W & H & Esize).
    apply isFinite_inv in Hpp as (pp & Hpp); apply isFinite_inv in Hob as (ob & Hob).
    rewrite Ept, Esize in Hx, Hy.
    unfold labelCenterX, labelCenterY in Hx, Hy.
    cbn [chartWidth chartHeight x y width height cx cy] in Hx, Hy.
    rewrite div_fin, add_fin in Hx, Hy by lra.
    assert (Hs : scoreOf this h ptr (mkCandidate (Fin a) (Fin b) (Fin 0) (Fin 0)) = NegInf).
    { apply (scoreOf_zero_area this h ptr px py w hh t ap Ept W H pp ob Esize Hpp Hob).
      - destruct Hzero as [E | E]; rewrite Esize in E; cbn in E; inversion E; tauto.
      - intros ->; intros E; apply Hx; [reflexivity | now rewrite E].
      - intros ->; intros E; apply Hy; [reflexivity | now rewrite E]. }
    destruct (applyBoundaryPenalty_score (deref h ptr)
                (scoreCandidate this h ptr (mkCandidate (Fin a) (Fin b) (Fin 0) (Fin 0))))
      as [E | E]; rewrite E; cbn [scoreCandidate score]; rewrite Hs; reflexivity. }
  unfold placeLabelForPoint.
  destruct (sort byScoreDescending (scoredCandidates this h ptr))
    as [ | chosen rest] eqn:Es.
  - apply sort_nil_inv in Es; unfold scoredCandidates in Es.
    apply map_eq_nil in Es; apply map_eq_nil in Es; contradiction.
  - rewrite (Hall chosen); [reflexivity | ].
    apply (sort_In byScoreDescending); rewrite Es; now left.
Qed.

End ZeroAreaPass.

(** ** Engines with the same chart and options *)

Lemma generateCandidates_config (a b : LabelPlacer) (pt : Point) :
  SameConfig a b -> generateCandidates a pt = generateCandidates b pt.
Proof.
  intros [E1 E2].
  unfold generateCandidates, expandingRing, primaryCandidate, expandingCandidate,
    fallbackCandidate, halfStepCandidate.
  rewrite E1, E2; reflexivity.
Qed.

Lemma FiniteChart_config (a b : LabelPlacer) :
  SameConfig a b -> FiniteChart b -> FiniteChart a.
Proof. intros [E1 E2]; unfold FiniteChart; now rewrite E1. Qed.

Lemma FiniteOptions_config (a b : LabelPlacer) :
  SameConfig a b -> FiniteOptions b -> FiniteOptions a.
Proof. intros [E1 E2]; unfold FiniteOptions; now rewrite E2. Qed.

Lemma ZeroArea_config (a b : LabelPlacer) :
  SameConfig a b -> ZeroArea b -> ZeroArea a.
Proof. intros [E1 E2]; unfold ZeroArea; now rewrite E1. Qed.

Lemma CentresOffAxes_config (a b : LabelPlacer) (pt : Point) :
  SameConfig a b -> CentresOffAxes b pt -> CentresOffAxes a pt.
Proof.
  intros Hcfg Hoff c Hc; rewrite (generateCandidates_config a b pt Hcfg) in Hc.
  destruct Hcfg as [E1 E2]; rewrite E1; now apply Hoff.
Qed.

(** ** Degenerate input *)


Lemma placed_zero_area (this : LabelPlacer) (h : Heap) (points : list ObjId) :
  FiniteChart this -> ZeroArea this -> FiniteOptions this ->
  FiniteInput h points ->
  (1 <= rings (options this))%nat ->
  (1 <= anglesPerRing (options this))%nat ->
  (forall g ptr, In g (sortedGroups h points) -> groupPoint h g = Some ptr ->
                 CentresOffAxes this (deref h ptr)) ->
  placed this h points = Ok [].
Proof.
  intros Hchart Hzero Hopts Hfin Hr Ha Hoff; unfold placed, placeAll.
  assert (Hstep : forall t g t',
            SameConfig t this /\ placedLabels t = [] ->
            In g (sortedGroups h points) ->
            placeGroup t h g = Ok t' ->
            SameConfig t' this /\ placedLabels t' = []).
  { intros t g t' [Hcfg Hnil] Hg Et.
    apply placeGroup_Ok in Et
      as (ptr & Eptr & [(_ & ->) | (label & info & Eplace & ->)]); [now split | ].
    exfalso.
    rewrite (zero_area_dropped t h ptr) in Eplace; [discriminate | | | | | | ].
    - eapply group_finite; eauto.
    - eapply FiniteChart_config; eauto.
    - eapply FiniteOptions_config; eauto.
    - eapply ZeroArea_config; eauto.
    - eapply CentresOffAxes_config; eauto.
    - apply generateCandidates_nonempty; destruct Hcfg as [_ E]; now rewrite E. }
  destruct (placeGroups_total (fun t => SameConfig t this /\ placedLabels t = []) h
              (sortedGroups h points) Hstep) with (this := reset this) as (this' & E).
  - intros t g [[_ Ht] _] Hg; apply (placeGroup_no_TypeError t h points g);
      try rewrite Ht; assumption.
  - split; [apply reset_config | reflexivity].
  - rewrite E.
    apply (placeGroups_invariant _ h _ Hstep) in E;
      [ | split; [apply reset_config | reflexivity]].
    destruct E as [_ ->]; reflexivity.
Qed.

(** ** The exclusion zone of the label's own point *)

Lemma clear_of_own_point (px py w hh a b : R) (t : string)
  (ap : option (list ObjId)) (r0 s0 : number) :
  let pt := mkPoint (Fin px) (Fin py) t (Fin w) (Fin hh) ap in
  let c := mkCandidate (Fin a) (Fin b) r0 s0 in
  overlapsExclusionZone pt c = false ->
  violatesBoundary pt c = false ->
  ~ (a < px + 7 /\ px - 7 < a + w /\ b < py + 7 /\ py - 7 < b + hh) /\
  (forall u v,
     In (u, v) [(a, b); (a + w, b); (a, b + hh); (a + w, b + hh)] ->
     7 <= sqrt ((u - px) * (u - px) + (v - py) * (v - py))).
Proof.
  intros pt c Hov Hviol; split.
  - intros (H1 & H2 & H3 & H4).
    unfold overlapsExclusionZone in Hov; cbn [pt c x y width height cx cy] in Hov.
    num.
    rewrite !Rltb_true in Hov by lra; discriminate.
  - unfold violatesBoundary, cornerDistance in Hviol.
    cbn [pt c x y width height cx cy existsb fst snd] in Hviol.
    num.
    repeat (apply orb_false_iff in Hviol as [? Hviol]).
    intros u v [E | [E | [E | [E | []]]]]; inversion E; subst;
      match goal with
      | H : Rltb (sqrt ?e) _ = false |- _ <= sqrt ?e =>
          apply Rltb_nspec in H; lra
      end.
Qed.

Lemma placeGroup_clear (this0 this this' : LabelPlacer) (h : Heap)
  (points g : list ObjId) :
  WellFormed this0 h points ->
  SameConfig this this0 ->
  In g (sortedGroups h points) ->
  placeGroup this h g = Ok this' ->
  (forall label, In label (placedLabels this) -> ClearOfOwnPoint h label) ->
  forall label, In label (placedLabels this') -> ClearOfOwnPoint h label.
Proof.
  intros Hwf Hcfg Hg Estep Hall.
  apply WellFormed_config with (a := this) in Hwf; [ | exact Hcfg].
  destruct Hwf as (Hchart & Hproper & Hopts & Hoob & Hfin).
  apply placeGroup_Ok in Estep
    as (ptr & Eptr & [(_ & ->) | (label & info & Eplace & ->)]);
    [exact Hall | ].
  pose proof (group_finite h points g ptr Hfin Hg Eptr) as Hpt.
  apply placeLabelForPoint_Some in Eplace as (chosen & _ & Hin & Hle & Elabel).
  destruct (scoredCandidates_clear this h ptr Hpt Hchart Hproper Hopts Hoob
              chosen Hin Hle) as (_ & Hov & Hviol).
  destruct (scoredCandidates_bound this h ptr Hpt Hchart Hproper Hopts Hoob
              chosen Hin) as (a & b & s & -> & _).
  destruct (FinitePoint_inv _ Hpt) as (px & py & w & hh & t & ap & Ept).
  rewrite Ept in Hov, Hviol.
  intros l Hl; cbn [commit placedLabels] in Hl.
  apply in_app_or in Hl as [Hl | [<- | []]]; [now apply Hall | ].
  rewrite Elabel; exists px, py, a, b, w, hh.
  cbn [forPoint lx ly lwidth lheight cx cy]; rewrite Ept; cbn [x y width height].
  repeat (split; [reflexivity | ]).
  exact (clear_of_own_point px py w hh a b t ap _ _ Hov Hviol).
Qed.

Lemma placeAll_clear (this : LabelPlacer) (h : Heap)
  (points : list ObjId) (labels : list LabelBox) :
  WellFormed this h points ->
  placed this h points = Ok labels ->
  forall label, In label labels -> ClearOfOwnPoint h label.
Proof.
  intros Hwf; unfold placed, placeAll.
  destruct (placeGroups (reset this) h (sortedGroups h points)) as [this' | ] eqn:E;
    [ | discriminate].
  intros E'; inversion E'; subst; clear E'.
  apply (placeGroups_invariant
           (fun t => SameConfig t this /\
                     forall label, In label (placedLabels t) -> ClearOfOwnPoint h label)
           h (sortedGroups h points)) with (this := reset this) in E.
  - now destruct E.
  - intros t g t' [Hcfg Hinv] Hg Et; split.
    + eapply SameConfig_trans; [ | exact Hcfg]; now apply placeGroup_config in Et.
    + eapply placeGroup_clear; eauto.
  - split; [apply reset_config | intros label []].
Qed.

(** ** The order on the numbers that are not NaN *)

Lemma gt_sub_lt (a b : number) :
  isNaN a = false -> isNaN b = false ->
  gt (sub a b) (Fin 0) = lt b a.
Proof.
  destruct a as [ | | u | ], b as [ | | v | ]; try discriminate; intros _ _;
    try reflexivity.
  cbn; unfold Rltb.
  destruct (Rlt_dec 0 (u - v)), (Rlt_dec v u); try reflexivity; lra.
Qed.

Lemma lt_false_le (a b : number) :
  isNaN a = false -> isNaN b = false -> lt b a = false -> le a b = true.
Proof.
  destruct a as [ | | u | ], b as [ | | v | ]; try discriminate; intros _ _;
    try reflexivity; try discriminate.
  cbn; intros E; apply Rltb_nspec in E; now apply Rleb_true.
Qed.

Lemma lt_trans (a b c : number) :
  lt a b = true -> lt b c = true -> lt a c = true.
Proof.
  destruct a as [ | | u | ], b as [ | | v | ], c as [ | | w | ];
    try discriminate; try reflexivity.
  cbn; intros E1 E2; apply Rltb_spec in E1, E2; apply Rltb_true; lra.
Qed.

Lemma le_lt_trans (a b c : number) :
  le a b = true -> lt b c = true -> lt a c = true.
Proof.
  destruct a as [ | | u | ], b as [ | | v | ], c as [ | | w | ];
    try discriminate; try reflexivity.
  cbn; intros E1 E2; apply Rleb_spec in E1; apply Rltb_spec in E2;
    apply Rltb_true; lra.
Qed.

Lemma lt_le (a b : number) : lt a b = true -> le a b = true.
Proof.
  destruct a as [ | | u | ], b as [ | | v | ]; try discriminate; try reflexivity.
  cbn; intros E; apply Rltb_spec in E; apply Rleb_true; lra.
Qed.

Lemma le_refl (a : number) : isNaN a = false -> le a a = true.
Proof.
  destruct a as [ | | u | ]; try discriminate; try reflexivity.
  intros _; cbn; apply Rleb_true; lra.
Qed.

Lemma le_trans (a b c : number) :
  le a b = true -> le b c = true -> le a c = true.
Proof.
  destruct a as [ | | u | ], b as [ | | v | ], c as [ | | w | ];
    try discriminate; try reflexivity.
  cbn; intros E1 E2; apply Rleb_spec in E1, E2; apply Rleb_true; lra.
Qed.

(** ** The winner of the sort *)

Lemma pick_first_max (l : list Candidate) :
  forall (p1 p2 : list Candidate) (b chosen : Candidate),
    (forall c, In c l -> isNaN (score c) = false) ->
    isNaN (score b) = false ->
    (forall c, In c p1 -> lt (score c) (score b) = true) ->
    (forall c, In c p2 -> le (score c) (score b) = true) ->
    fold_left (pickFirst byScoreDescending) l (Some b) = Some chosen ->
    exists l1 l2,
      p1 ++ b :: p2 ++ l = l1 ++ chosen :: l2 /\
      (forall c, In c l1 -> lt (score c) (score chosen) = true) /\
      (forall c, In c l2 -> le (score c) (score chosen) = true).
Proof.
  induction l as [ | a l IH]; intros p1 p2 b chosen Hl Hb Hp1 Hp2; cbn [fold_left].
  - intros E; inversion E; subst.
    exists p1, p2; rewrite app_nil_r; auto.
  - assert (Ha : isNaN (score a) = false) by (apply Hl; now left).
    cbn [pickFirst].
    change (byScoreDescending b a) with (sub (score a) (score b)).
    rewrite (gt_sub_lt _ _ Ha Hb).
    destruct (lt (score b) (score a)) eqn:Elt; intros E.
    + destruct (IH (p1 ++ b :: p2) [] a chosen) as (l1 & l2 & El & H1 & H2);
        try assumption.
      * intros c Hc; apply Hl; now right.
      * intros c Hc; apply in_app_or in Hc as [Hc | [<- | Hc]].
        -- eapply lt_trans; [now apply Hp1 | exact Elt].
        -- exact Elt.
        -- eapply le_lt_trans; [now apply Hp2 | exact Elt].
      * intros c [].
      * exists l1, l2; split; [ | now split].
        rewrite <- El; cbn [app]; rewrite <- !app_assoc; reflexivity.
    + destruct (IH p1 (p2 ++ [a]) b chosen) as (l1 & l2 & El & H1 & H2);
        try assumption.
      * intros c Hc; apply Hl; now right.
      * intros c Hc; apply in_app_or in Hc as [Hc | [<- | []]];
          [now apply Hp2 | now apply lt_false_le].
      * exists l1, l2; split; [ | now split].
        rewrite <- El, <- !app_assoc; reflexivity.
Qed.

(** After the sort, the first candidate is the first one, in the order of
    generation, of those with the highest score. *)
Lemma sort_first_max (l : list Candidate) (chosen : Candidate) :
  (forall c, In c l -> isNaN (score c) = false) ->
  hd_error (sort byScoreDescending l) = Some chosen ->
  exists l1 l2,
    l = l1 ++ chosen :: l2 /\
    (forall c, In c l1 -> lt (score c) (score chosen) = true) /\
    (forall c, In c l2 -> le (score c) (score chosen) = true).
Proof.
  intros Hl; rewrite sort_hd.
  destruct l as [ | b l]; [discriminate | ]; cbn [fold_left pickFirst].
  intros E.
  apply (pick_first_max l [] [] b chosen) in E; try (intros c []).
  - exact E.
  - intros c Hc; apply Hl; now right.
  - apply Hl; now left.
Qed.

Lemma isFinite_notNaN (a : number) : isFinite a = true -> isNaN a = false.
Proof. now destruct a. Qed.

Section ScoreFormula.
Variables (this : LabelPlacer) (h : Heap) (ptr : PointRef).
Variables (px py w hh : R) (t : string) (ap : option (list ObjId)).
Hypothesis Hpt : deref h ptr = mkPoint (Fin px) (Fin py) t (Fin w) (Fin hh) ap.
Variables (W H pp ob : R).
Hypothesis HW : chartSize this = mkChartSize (Fin W) (Fin H).
Hypothesis Hpp : pointPenalty (options this) = Fin pp.
Hypothesis Hob : outOfBoundsPenalty (options this) = Fin ob.
Hypothesis HW0 : W <> 0.
Hypothesis HH0 : H <> 0.

Let pt := mkPoint (Fin px) (Fin py) t (Fin w) (Fin hh) ap.

Lemma scoreOf_formula (a b m cb d : R) (r0 s0 : number) :
  let c := mkCandidate (Fin a) (Fin b) r0 s0 in
  minBorderDistance this pt c = Fin m ->
  centerBonus this pt c = Fin cb ->
  distance pt c = Fin d ->
  scoreOf this h ptr c
  = Fin (realScore (List.length (collisions this pt c))
           (match ap with Some others => coveredCount h ptr c others | None => 0 end)
           pp m cb
           (isOutOfBounds this (mkRect (Fin a) (Fin b) (Fin w) (Fin hh)))
           ob d).
Proof.
  intros c Em Ecb Ed; unfold realScore.
  unfold scoreOf; rewrite Hpt; fold pt; fold c.
  rewrite Ecb, Ed, Em, Hob.
  cbn [allPoints pt cx cy width height c].
  fold c; set (n := List.length (collisions this pt c)).
  assert (Hn0 : (0 <? n)%nat = false -> INR n = 0).
  { intros E; apply Nat.ltb_ge in E.
    assert (E0 : n = 0%nat) by (clearbody n; lia).
    now rewrite E0. }
  destruct (0 <? n)%nat eqn:En; [ | rewrite (Hn0 eq_refl)];
    destruct ap as [others | ];
    rewrite ?(coveredPenalty_fin this h ptr pp Hpp); num; cbv zeta;
    cbn [INR]; rewrite ?Rmult_0_l, ?(Rltb_false 0 0) by lra;
    repeat match goal with |- context [if ?b then _ else _] => destruct b end;
    num; f_equal; lra.
Qed.

End ScoreFormula.

(* ================================================================== *)
(** * Example inputs and auxiliary facts *)

Lemma example_WellFormed : WellFormed exampleEngine exampleHeap [0%nat].
Proof.
  repeat split; try reflexivity.
  - intros E; inversion E; lra.
  - intros E; inversion E; lra.
  - cbn; apply Rleb_true; lra.
Qed.

Lemma first_fallback_In (this : LabelPlacer) (pt : Point) :
  (1 <= rings (options this))%nat ->
  (1 <= anglesPerRing (options this))%nat ->
  In (fallbackCandidate this pt 1 0) (generateCandidates this pt).
Proof.
  intros Hr Ha.
  unfold generateCandidates; rewrite !in_app_iff; right; right; left.
  apply in_flat_map; exists 1%nat; split; [apply in_seq; lia | ].
  apply in_map, in_seq; lia.
Qed.

(** ** Candidates that meet a placed label *)

Lemma collisions_scored (this : LabelPlacer) (h : Heap) (ptr : PointRef)
  (pt : Point) (c : Candidate) :
  collisions this pt (applyBoundaryPenalty pt (scoreCandidate this h ptr c))
  = collisions this pt c.
Proof.
  unfold applyBoundaryPenalty.
  destruct (overlapsExclusionZone _ _ || violatesBoundary _ _); reflexivity.
Qed.

Lemma all_colliding_dropped (this : LabelPlacer) (h : Heap) (ptr : PointRef) :
  FinitePoint (deref h ptr) -> FiniteChart this -> ProperChart this ->
  FiniteOptions this ->
  le (Fin 0) (outOfBoundsPenalty (options this)) = true ->
  generateCandidates this (deref h ptr) <> [] ->
  (forall c, In c (generateCandidates this (deref h ptr)) ->
             collisions this (deref h ptr) c <> []) ->
  placeLabelForPoint this h ptr = Ok None.
Proof.
  intros Hpt Hchart Hproper Hopts Hoob Hne Hall.
  unfold placeLabelForPoint.
  destruct (sort byScoreDescending (scoredCandidates this h ptr))
    as [ | chosen rest] eqn:Es.
  - apply sort_nil_inv in Es; unfold scoredCandidates in Es.
    apply map_eq_nil in Es; apply map_eq_nil in Es; contradiction.
  - assert (Hin : In chosen (scoredCandidates this h ptr))
      by (apply (sort_In byScoreDescending); rewrite Es; now left).
    destruct (le (score chosen) (Fin (-100000))) eqn:Ele; [reflexivity | ].
    exfalso.
    destruct (scoredCandidates_clear this h ptr Hpt Hchart Hproper Hopts Hoob
                chosen Hin Ele) as (Ecol & _ & _).
    apply scoredCandidates_In in Hin as (c & Hc & ->).
    apply (Hall c Hc); now rewrite collisions_scored in Ecol.
Qed.

(** ** Candidates over the label's own point *)

Lemma violating_candidate_vetoed (this : LabelPlacer) (h : Heap) (ptr : PointRef)
  (c' : Candidate) :
  FinitePoint (deref h ptr) -> FiniteChart this -> ProperChart this ->
  FiniteOptions this ->
  le (Fin 0) (outOfBoundsPenalty (options this)) = true ->
  In c' (scoredCandidates this h ptr) ->
  overlapsExclusionZone (deref h ptr) c' || violatesBoundary (deref h ptr) c' = true ->
  le (score c') (Fin (-100000)) = true.
Proof.
  intros Hpt Hchart Hproper Hopts Hoob Hc' Hv.
  destruct (le (score c') (Fin (-100000))) eqn:Ele; [reflexivity | exfalso].
  destruct (scoredCandidates_clear this h ptr Hpt Hchart Hproper Hopts Hoob
              c' Hc' Ele) as (_ & Hov & Hviol).
  rewrite Hov, Hviol in Hv; discriminate.
Qed.

(** ** The number of labels along a pass *)

Lemma placeGroups_app (this : LabelPlacer) (h : Heap) (l1 l2 : list (list ObjId)) :
  placeGroups this h (l1 ++ l2)
  = match placeGroups this h l1 with
    | Ok mid => placeGroups mid h l2
    | TypeError => TypeError
    end.
Proof.
  revert this; induction l1 as [ | g l1 IH]; intros this; cbn [placeGroups app].
  - reflexivity.
  - destruct (placeGroup this h g); [apply IH | reflexivity].
Qed.

Lemma placeGroup_length (this this' : LabelPlacer) (h : Heap) (g : list ObjId) :
  placeGroup this h g = Ok this' ->
  (List.length (placedLabels this') <= S (List.length (placedLabels this)))%nat.
Proof.
  intros E; apply placeGroup_Ok in E
    as (ptr & _ & [(_ & ->) | (label & info & _ & ->)]); [lia | ].
  cbn [commit placedLabels]; rewrite length_app; cbn; lia.
Qed.

Lemma placeGroups_length (h : Heap) (groups : list (list ObjId)) :
  forall this this',
    placeGroups this h groups = Ok this' ->
    (List.length (placedLabels this')
     <= List.length (placedLabels this) + List.length groups)%nat.
Proof.
  induction groups as [ | g groups IH]; intros this this'; cbn [placeGroups].
  - intros E; inversion E; subst; cbn; lia.
  - destruct (placeGroup this h g) as [mid | ] eqn:Eg; [ | discriminate].
    intros E; apply IH in E; apply placeGroup_length in Eg; cbn [List.length]; lia.
Qed.

Lemma example_scores_notNaN (c : Candidate) :
  In c (scoredCandidates exampleEngine exampleHeap (Existing 0%nat)) ->
  isNaN (score c) = false.
Proof.
  intros Hc; apply isFinite_notNaN.
  destruct example_WellFormed as (Hchart & Hproper & Hopts & Hoob & Hfin).
  apply (scoredCandidates_notNaN exampleEngine exampleHeap (Existing 0%nat));
    try assumption.
  repeat split; reflexivity.
Qed.

Lemma example_candidates :
  generateCandidates exampleEngine (deref exampleHeap (Existing 0%nat)) <> [].
Proof. apply generateCandidates_nonempty; cbn; lia. Qed.

(** ** Passes of engines with one configuration *)




(** ** Candidates pushed into the corner of the chart *)

Lemma clamp_low (c m : R) : m <= 1 -> Rmax 1 (Rmin c m) = 1.
Proof.
  intros Hm; apply Rmax_left.
  pose proof (Rmin_r c m); lra.
Qed.

Lemma flat_map_nil {A B : Type} (f : A -> list B) (l : list A) :
  (forall a, In a l -> f a = []) -> flat_map f l = [].
Proof.
  induction l as [ | a l IH]; intros Hf; cbn [flat_map]; [reflexivity | ].
  rewrite (Hf a) by (now left); rewrite IH; [reflexivity | ].
  intros b Hb; apply Hf; now right.
Qed.

Section Cornered.
Variables (this : LabelPlacer) (px py w hh : R) (t : string)
  (ap : option (list ObjId)).
Variables (W H : R).
Hypothesis HW : chartSize this = mkChartSize (Fin W) (Fin H).

Let pt := mkPoint (Fin px) (Fin py) t (Fin w) (Fin hh) ap.

(** The clamped candidates are at 1 or more on both axes. *)
Lemma primaryCandidate_low (i : nat) (c : Candidate) :
  In c (primaryCandidate this pt i) ->
  exists a b, c = mkCandidate (Fin a) (Fin b) (Fin 0) (Fin 0) /\ 1 <= a /\ 1 <= b.
Proof.
  unfold primaryCandidate; rewrite HW.
  cbn [chartWidth chartHeight x y width height pt]; num.
  repeat match goal with |- context [Rltb ?a ?b] => destruct (Rltb a b) end;
    cbv beta iota zeta; num;
    (match goal with |- context [if ?b then _ else _] => destruct b end;
     [intros [<- | []] | intros []]);
    (eexists; eexists; split; [reflexivity | split; apply Rmax_l]).
Qed.

Lemma expandingCandidate_low (r n i : nat) (c : Candidate) :
  (0 < n)%nat ->
  In c (expandingCandidate this pt r n i) ->
  exists a b, c = mkCandidate (Fin a) (Fin b) (Fin 0) (Fin 0) /\ 1 <= a /\ 1 <= b.
Proof.
  intros Hn; unfold expandingCandidate; rewrite HW.
  cbn [chartWidth chartHeight x y width height pt]; num.
  match goal with |- context [if ?b then _ else _] => destruct b end;
     [intros [<- | []] | intros []].
  eexists; eexists; split; [reflexivity | split; apply Rmax_l].
Qed.

(** In a chart too small for the label, every clamped candidate is at
    (1, 1); when that is closer than 7 px to the point, there is none. *)
Hypothesis Hsmall : W - 1 - w <= 1 /\ H - 1 - hh <= 1.
Hypothesis Hnear :
  sqrt ((1 + w / 2 - px) * (1 + w / 2 - px) + (1 + hh / 2 - py) * (1 + hh / 2 - py))
  < 6 + 1.

Lemma primaryCandidate_rejected (i : nat) : primaryCandidate this pt i = [].
Proof.
  destruct Hsmall as [Hx Hy].
  unfold primaryCandidate, distanceToPoint; rewrite HW.
  cbn [chartWidth chartHeight x y width height pt]; num.
  repeat match goal with |- context [Rltb ?a ?b] => destruct (Rltb a b) end;
    cbv beta iota zeta; num;
    rewrite !clamp_low by assumption; num;
    now rewrite Rleb_false.
Qed.

Lemma expandingCandidate_rejected (r n i : nat) :
  (0 < n)%nat -> expandingCandidate this pt r n i = [].
Proof.
  intros Hn; destruct Hsmall as [Hx Hy].
  unfold expandingCandidate, distanceToPoint; rewrite HW.
  cbn [chartWidth chartHeight x y width height pt]; num.
  rewrite !clamp_low by assumption; num.
  now rewrite Rleb_false.
Qed.

Lemma generateCandidates_rejected :
  generateCandidates this pt
  = flat_map (fun ring => map (fallbackCandidate this pt ring)
                              (seq 0 (anglesPerRing (options this))))
             (seq 1 (rings (options this)))
    ++ flat_map (fun ring => map (halfStepCandidate this pt ring)
                                 (seq 0 (anglesPerRing (options this))))
                (seq 1 (rings (options this))).
Proof.
  unfold generateCandidates.
  rewrite (flat_map_nil (primaryCandidate this pt))
    by (intros; apply primaryCandidate_rejected).
  rewrite (flat_map_nil (expandingRing this pt)); [reflexivity | ].
  intros r _; unfold expandingRing; apply flat_map_nil.
  intros i _; apply expandingCandidate_rejected; lia.
Qed.

End Cornered.

(** ** Points far from the axes *)

Lemma circle_reach (p r a R0 : R) :
  0 <= r -> r <= R0 -> R0 < p ->
  0 < p + r * cos a /\ 0 < p + r * sin a.
Proof.
  intros Hr HR Hp.
  pose proof (COS_bound a) as [Hc1 Hc2]; pose proof (SIN_bound a) as [Hs1 Hs2].
  split; nra.
Qed.

Lemma far_centres_off_axes (this : LabelPlacer) (px py w hh rad R0 : R)
  (t : string) (ap : option (list ObjId)) :
  FiniteChart this ->
  radius (options this) = Fin rad ->
  0 <= rad -> 0 <= w -> 0 <= hh ->
  7 + INR (rings (options this)) * 5 <= R0 ->
  rad * INR (rings (options this)) <= R0 ->
  R0 < px -> R0 < py ->
  CentresOffAxes this (mkPoint (Fin px) (Fin py) t (Fin w) (Fin hh) ap).
Proof.
  intros Hchart Hrad Hrad0 Hw Hh Hfb Hhs Hpx Hpy c Hc.
  destruct (FiniteChart_inv _ Hchart) as (W & H & Esize).
  assert (Hpos : exists a b, c = mkCandidate (Fin a) (Fin b) (Fin 0) (Fin 0)
                             /\ 0 < a + w / 2 /\ 0 < b + hh / 2).
  { apply generateCandidates_In in Hc
      as [(i & Hc) | [(r & n & i & Hn & Hc)
                     | [(ring & i & Hring & Hn & ->) | (ring & i & Hring & Hn & ->)]]].
    - destruct (primaryCandidate_low this px py w hh t ap W H Esize i c Hc)
        as (a & b & -> & Ha & Hb).
      exists a, b; split; [reflexivity | lra].
    - destruct (expandingCandidate_low this px py w hh t ap W H Esize r n i c Hn Hc)
        as (a & b & -> & Ha & Hb).
      exists a, b; split; [reflexivity | lra].
    - rewrite (fallbackCandidate_eq this px py w hh t ap ring i Hn).
      eexists; eexists; split; [reflexivity | ].
      assert (Hle : INR ring <= INR (rings (options this))) by (apply le_INR; lia).
      pose proof (pos_INR ring) as H0.
      match goal with |- 0 < _ + _ * cos ?a - _ + _ /\ _ =>
        destruct (circle_reach px (6 + 1 + INR ring * 5) a R0) as [H1 _];
          [lra | lra | lra | ];
        destruct (circle_reach py (6 + 1 + INR ring * 5) a R0) as [_ H2];
          [lra | lra | lra | ]
      end.
      lra.
    - rewrite (halfStepCandidate_eq this px py w hh t ap rad ring i Hn Hrad).
      eexists; eexists; split; [reflexivity | ].
      assert (Hle : INR ring <= INR (rings (options this))) by (apply le_INR; lia).
      pose proof (pos_INR ring) as H0.
      pose proof (pos_INR (rings (options this))) as H0'.
      assert (Hr0 : 0 <= Rmax (6 + 1) (rad * INR ring))
        by (pose proof (Rmax_l (6 + 1) (rad * INR ring)); lra).
      assert (HrR : Rmax (6 + 1) (rad * INR ring) <= R0)
        by (apply Rmax_lub; nra).
      match goal with |- 0 < _ + _ * cos ?a - _ + _ /\ _ =>
        destruct (circle_reach px (Rmax (6 + 1) (rad * INR ring)) a R0) as [H1 _];
          [lra | lra | lra | ];
        destruct (circle_reach py (Rmax (6 + 1) (rad * INR ring)) a R0) as [_ H2];
          [lra | lra | lra | ]
      end.
      lra. }
  destruct Hpos as (a & b & -> & Ha & Hb).
  unfold labelCenterX, labelCenterY; cbn [x y width height cx cy]; num.
  split; intros _ E; inversion E; lra.
Qed.

(** ** Rounding *)

Lemma Math_round_IZR (z : Z) : Math_round (Fin (IZR z)) = Fin (IZR z).
Proof.
  cbn [Math_round]; do 2 f_equal; symmetry; apply Int_part_spec; lra.
Qed.

(** ** The first candidate wins in a chart without area *)

Lemma applyBoundaryPenalty_cx (pt : Point) (c : Candidate) :
  cx (applyBoundaryPenalty pt c) = cx c /\
  cy (applyBoundaryPenalty pt c) = cy c /\
  rotation (applyBoundaryPenalty pt c) = rotation c.
Proof.
  unfold applyBoundaryPenalty.
  destruct (overlapsExclusionZone pt c || violatesBoundary pt c); cbn; tauto.
Qed.

Lemma zero_area_place_first (this : LabelPlacer) (h : Heap) (ptr : PointRef)
  (c0 : Candidate) (rest : list Candidate) :
  FinitePoint (deref h ptr) -> FiniteChart this -> FiniteOptions this ->
  ZeroArea this ->
  generateCandidates this (deref h ptr) = c0 :: rest ->
  scoreOf this h ptr c0 = NaN ->
  exists info,
    placeLabelForPoint this h ptr
    = Ok (Some ({| lx := cx c0; ly := cy c0;
                   lwidth := width (deref h ptr); lheight := height (deref h ptr);
                   lrotation := rotation c0; ltext := text (deref h ptr);
                   forPoint := ptr |}, info)).
Proof.
  intros Hpt Hchart Hopts Hzero Egen Escore.
  unfold placeLabelForPoint.
  rewrite (zero_area_sort this h ptr Hpt Hchart Hopts Hzero).
  unfold scoredCandidates at 1; rewrite Egen; cbn [map].
  set (chosen := applyBoundaryPenalty (deref h ptr) (scoreCandidate this h ptr c0)).
  assert (Es : score chosen = NaN).
  { destruct (applyBoundaryPenalty_score (deref h ptr) (scoreCandidate this h ptr c0))
      as [E | E]; fold chosen in E; rewrite E; cbn [scoreCandidate score];
      now rewrite Escore. }
  destruct (applyBoundaryPenalty_cx (deref h ptr) (scoreCandidate this h ptr c0))
    as (E1 & E2 & E3); fold chosen in E1, E2, E3.
  rewrite Es; cbn [le]; rewrite E1, E2, E3; cbn [scoreCandidate cx cy rotation].
  eexists; reflexivity.
Qed.

Lemma first_fallback_candidate (this : LabelPlacer) (pt : Point) :
  (1 <= rings (options this))%nat ->
  (1 <= anglesPerRing (options this))%nat ->
  exists rest,
    flat_map (fun ring => map (fallbackCandidate this pt ring)
                              (seq 0 (anglesPerRing (options this))))
             (seq 1 (rings (options this)))
    ++ flat_map (fun ring => map (halfStepCandidate this pt ring)
                                 (seq 0 (anglesPerRing (options this))))
                (seq 1 (rings (options this)))
    = fallbackCandidate this pt 1 0 :: rest.
Proof.
  intros Hr Ha.
  destruct (rings (options this)) as [ | r]; [lia | ].
  destruct (anglesPerRing (options this)) as [ | n]; [lia | ].
  cbn [seq flat_map map app]; eauto.
Qed.

(** In the chart 0 x 0, a finite point on the upper edge ([y = 0]) that is
    within 7 px of the centre of a label put at (1, 1) gets its label 12 px
    to its right: the first candidate of the first fallback ring, whose
    score is NaN. *)
Lemma zero_area_edge_label (this : LabelPlacer) (h : Heap) (ptr : PointRef)
  (px w hh : R) (t : string) (ap : option (list ObjId)) :
  deref h ptr = mkPoint (Fin px) (Fin 0) t (Fin w) (Fin hh) ap ->
  chartSize this = mkChartSize (Fin 0) (Fin 0) ->
  FiniteOptions this ->
  (1 <= rings (options this))%nat ->
  (1 <= anglesPerRing (options this))%nat ->
  -2 <= w -> -2 <= hh ->
  sqrt ((1 + w / 2 - px) * (1 + w / 2 - px) + (1 + hh / 2 - 0) * (1 + hh / 2 - 0))
  < 6 + 1 ->
  exists info,
    placeLabelForPoint this h ptr
    = Ok (Some ({| lx := Fin (px + 12 - w / 2); ly := Fin (0 - hh / 2);
                   lwidth := Fin w; lheight := Fin hh;
                   lrotation := Fin 0; ltext := t; forPoint := ptr |}, info)).
Proof.
  intros Ept Esize Hopts Hr Ha Hw Hh Hnear.
  assert (Hgen : exists rest, generateCandidates this (deref h ptr)
                              = fallbackCandidate this (deref h ptr) 1 0 :: rest).
  { rewrite Ept.
    rewrite (generateCandidates_rejected this px 0 w hh t ap 0 0 Esize);
      [ | lra | exact Hnear].
    now apply first_fallback_candidate. }
  destruct Hgen as (rest & Egen).
  assert (Ec0 : fallbackCandidate this (deref h ptr) 1 0
                = mkCandidate (Fin (px + 12 - w / 2)) (Fin (0 - hh / 2)) (Fin 0) (Fin 0)).
  { rewrite Ept, (fallbackCandidate_eq this px 0 w hh t ap 1 0) by lia.
    cbn [INR]; rewrite !Rmult_0_l, cos_0, sin_0.
    f_equal; f_equal; lra. }
  rewrite Ec0 in Egen.
  destruct Hopts as (Hrad & Hpp & Hob).
  pose proof Hpp as Hpp'; pose proof Hob as Hob'.
  apply isFinite_inv in Hpp' as (pp & Epp); apply isFinite_inv in Hob' as (ob & Eob).
  destruct (zero_area_place_first this h ptr
              (mkCandidate (Fin (px + 12 - w / 2)) (Fin (0 - hh / 2)) (Fin 0) (Fin 0))
              rest) as (info & E).
  - rewrite Ept; repeat split; reflexivity.
  - unfold FiniteChart; rewrite Esize; split; reflexivity.
  - repeat split; assumption.
  - left; now rewrite Esize.
  - exact Egen.
  - apply (scoreOf_zero_NaN this h ptr px 0 w hh t ap Ept 0 0 pp ob Esize Epp Eob).
    right; split; [reflexivity | lra].
  - exists info; rewrite E, Ept; reflexivity.
Qed.

Lemma sqrt_lt_7 (v : R) : 0 <= v -> v < 49 -> sqrt v < 6 + 1.
Proof.
  intros H0 Hv.
  replace (6 + 1) with (sqrt (7 * 7)) by (rewrite sqrt_square; lra).
  apply sqrt_lt_1_alt; lra.
Qed.

Lemma sortedGroups_single (h : Heap) (a : ObjId) :
  hasLabel (h a) = true -> sortedGroups h [a] = [[a]].
Proof.
  intros Ha; unfold sortedGroups, pointGroups; cbn [filter].
  rewrite Ha; reflexivity.
Qed.

Lemma sortedGroups_two (h : Heap) (a b : ObjId) :
  hasLabel (h a) = true -> hasLabel (h b) = true ->
  keyOf (h a) <> keyOf (h b) ->
  gt (sub (y (h a)) (y (h b))) (Fin 0) = false ->
  sortedGroups h [a; b] = [[a]; [b]].
Proof.
  intros Ha Hb Hk Hy; unfold sortedGroups, pointGroups; cbn [filter].
  rewrite Ha, Hb; cbn [fold_left addToGroup].
  rewrite (proj2 (key_eqb_neq _ _) Hk).
  unfold sort; cbn [fold_left insertSorted].
  unfold byFirstY at 1, firstY; cbn [snd].
  rewrite Hy; reflexivity.
Qed.

(** ** Two points at one place *)

Lemma filter_twice {A : Type} (f g : A -> bool) (l : list A) :
  filter f (filter g l) = filter (fun a => g a && f a) l.
Proof.
  induction l as [ | a l IH]; cbn [filter]; [reflexivity | ].
  destruct (g a); cbn [filter andb]; [destruct (f a) | ]; now rewrite IH.
Qed.

Lemma sortedGroups_pair (h : Heap) (a b : ObjId) :
  hasLabel (h a) = true -> hasLabel (h b) = true ->
  keyOf (h a) = keyOf (h b) ->
  sortedGroups h [a; b] = [[a; b]].
Proof.
  intros Ha Hb Hk; unfold sortedGroups, pointGroups; cbn [filter].
  rewrite Ha, Hb; cbn [fold_left addToGroup].
  rewrite Hk, key_eqb_refl; reflexivity.
Qed.

(** The group of a bucket, among the sorted groups. *)
Lemma bucket_group (h : Heap) (points : list ObjId) (a : ObjId) (g : list ObjId) :
  filter (fun id => hasLabel (h id) && key_eqb (keyOf (h a)) (keyOf (h id))) points = g ->
  In a g ->
  exists before after,
    sortedGroups h points = before ++ g :: after /\
    forall g' id, In g' (before ++ after) -> In id g' ->
                  keyOf (h id) <> keyOf (h a).
Proof.
  intros Eg Ha.
  set (pts := filter (fun pt => hasLabel (h pt)) points).
  destruct (pointGroups_GroupsOf h pts) as (Hnd & HG & Hkeys).
  assert (Hg : g = filter (fun id => key_eqb (keyOf (h a)) (keyOf (h id))) pts)
    by (unfold pts; now rewrite filter_twice).
  assert (Hapts : In a pts).
  { rewrite Hg in Ha; now apply filter_In in Ha. }
  assert (Hentry : In (keyOf (h a), g) (pointGroups h pts)).
  { specialize (Hkeys a Hapts); apply in_map_iff in Hkeys as ([k g0] & Ek & Hin).
    cbn [fst] in Ek; subst k.
    destruct (HG _ _ Hin) as (_ & Eg0); rewrite <- Hg in Eg0; now subst g0. }
  pose proof (sort_Permutation (byFirstY h) (pointGroups h pts)) as Hperm.
  assert (Hsorted : In (keyOf (h a), g) (sort (byFirstY h) (pointGroups h pts)))
    by (now apply (sort_In (byFirstY h))).
  apply in_split in Hsorted as (l1 & l2 & El).
  exists (map snd l1), (map snd l2); split.
  - unfold sortedGroups; fold pts; rewrite El, map_app; reflexivity.
  - intros g' id Hg' Hid Ekey.
    assert (Hnd' : NoDup (map fst (l1 ++ (keyOf (h a), g) :: l2))).
    { rewrite <- El; eapply Permutation_NoDup; [ | exact Hnd].
      apply Permutation_map; symmetry; exact Hperm. }
    rewrite map_app in Hnd'; cbn [map fst] in Hnd'.
    apply NoDup_remove_2 in Hnd'; apply Hnd'.
    rewrite <- map_app in Hg'; apply in_map_iff in Hg' as ([k g0] & Esnd & Hin).
    cbn [snd] in Esnd; subst g0.
    rewrite <- map_app; apply in_map_iff; exists (k, g'); split; [ | exact Hin].
    cbn [fst].
    assert (Hin' : In (k, g') (pointGroups h pts)).
    { apply (sort_In (byFirstY h)); rewrite El.
      apply in_app_or in Hin as [Hin | Hin]; apply in_or_app;
        [left | right; right]; exact Hin. }
    destruct (HG _ _ Hin') as (_ & Eg').
    rewrite Eg' in Hid; apply filter_In in Hid as (_ & Hid).
    apply key_eqb_eq in Hid; congruence.
Qed.

(** ** A chart with room for one label *)




Lemma sqrt_sumsq_le (u v : R) : sqrt (u * u + v * v) <= Rabs u + Rabs v.
Proof.
  pose proof (Rabs_pos u) as Hu; pose proof (Rabs_pos v) as Hv.
  rewrite <- (sqrt_square (Rabs u + Rabs v)) by lra.
  apply sqrt_le_1_alt.
  pose proof (Rsqr_abs u) as Eu; pose proof (Rsqr_abs v) as Ev.
  unfold Rsqr in Eu, Ev; nra.
Qed.

Lemma sqrt2_ge_1 : 1 <= sqrt 2.
Proof.
  rewrite <- sqrt_1 at 1; apply sqrt_le_1_alt; lra.
Qed.

(** The centre bonus is not below 10 - 10 (|dx| + |dy|), and the distance
    to the point not above the sum of the two offsets. *)
Lemma centerBonus_lower (this : LabelPlacer) (px py w hh W H a b : R)
  (t : string) (ap : option (list ObjId)) (r0 s0 : number) :
  chartSize this = mkChartSize (Fin W) (Fin H) -> W <> 0 -> H <> 0 ->
  exists cb,
    centerBonus this (mkPoint (Fin px) (Fin py) t (Fin w) (Fin hh) ap)
      (mkCandidate (Fin a) (Fin b) r0 s0) = Fin cb /\
    10 - 10 * (Rabs ((a + w / 2 - W / 2) / (W / 2))
               + Rabs ((b + hh / 2 - H / 2) / (H / 2))) <= cb.
Proof.
  intros HW HW0 HH0.
  unfold centerBonus, labelCenterX, labelCenterY; rewrite HW.
  cbn [chartWidth chartHeight x y width height cx cy]; num.
  assert (0 < sqrt 2) by (apply sqrt_lt_R0; lra).
  rewrite !div_fin by lra; num.
  eexists; split; [reflexivity | ].
  set (dx := (a + w / 2 - W / 2) / (W / 2)).
  set (dy := (b + hh / 2 - H / 2) / (H / 2)).
  pose proof (sqrt_sumsq_le dx dy) as Hs.
  pose proof (sqrt_pos (dx * dx + dy * dy)) as Hp.
  pose proof sqrt2_ge_1 as H2.
  assert (Hq : sqrt (dx * dx + dy * dy) / sqrt 2 <= sqrt (dx * dx + dy * dy)).
  { apply (Rmult_le_reg_r (sqrt 2)); [lra | ].
    unfold Rdiv; rewrite Rmult_assoc, Rinv_l by lra; nra. }
  lra.
Qed.

Lemma distance_upper (px py w hh a b : R) (t : string)
  (ap : option (list ObjId)) (r0 s0 : number) :
  exists d,
    distance (mkPoint (Fin px) (Fin py) t (Fin w) (Fin hh) ap)
      (mkCandidate (Fin a) (Fin b) r0 s0) = Fin d /\
    d <= Rabs (a + w / 2 - px) + Rabs (b + hh / 2 - py).
Proof.
  unfold distance, labelCenterX, labelCenterY.
  cbn [x y width height cx cy]; num.
  eexists; split; [reflexivity | apply sqrt_sumsq_le].
Qed.

Lemma Rabs_le_of (u k : R) : - k <= u <= k -> Rabs u <= k.
Proof. intros Hu; now apply Rabs_le. Qed.

Lemma coveredCount_le (h : Heap) (ptr : PointRef) (c : Candidate)
  (others : list ObjId) :
  (coveredCount h ptr c others <= List.length others)%nat.
Proof. unfold coveredCount; apply filter_length_le. Qed.




(** ** Points with room around them *)

Section PrimaryRing.
Variables (this : LabelPlacer) (px py w hh : R) (t : string)
  (ap : option (list ObjId)).
Variables (W H : R).
Hypothesis HW : chartSize this = mkChartSize (Fin W) (Fin H).
Hypothesis Hw : 0 <= w.
Hypothesis Hh : 0 <= hh.
Hypothesis Hx : 8 + w <= px <= W - 8 - w.
Hypothesis Hy : 8 + hh <= py <= H - 8 - hh.

Let pt := mkPoint (Fin px) (Fin py) t (Fin w) (Fin hh) ap.

Lemma unclamped (c m : R) : 1 <= c <= m -> Rmax 1 (Rmin c m) = c.
Proof. intros Hc; rewrite Rmin_left, Rmax_right; lra. Qed.

Lemma far_corner (u v : R) : 7 <= u \/ u <= -7 \/ 7 <= v \/ v <= -7 ->
  Rltb (sqrt (u * u + v * v)) (6 + 1) = false.
Proof.
  intros Huv; apply Rltb_false, sqrt_ge_7.
  pose proof (Rle_0_sqr u) as Hu2; pose proof (Rle_0_sqr v) as Hv2.
  unfold Rsqr in *; nra.
Qed.

Lemma primaryCandidate_clear (i : nat) :
  exists c,
    primaryCandidate this pt i = [c] /\
    overlapsExclusionZone pt c = false /\
    violatesBoundary pt c = false.
Proof.
  unfold primaryCandidate, distanceToPoint; rewrite HW.
  cbn [chartWidth chartHeight x y width height pt]; num.
  set (a := INR i * (2 * PI / INR 64)).
  pose proof (COS_bound a) as [Hc1 Hc2]; pose proof (SIN_bound a) as [Hs1 Hs2].
  destruct (Rltb (Rabs (sin a)) (Rabs (cos a)));
    [destruct (Rltb 0 (cos a)) | destruct (Rltb 0 (sin a))];
    cbv beta iota zeta; num;
    rewrite !unclamped by lra;
    (rewrite Rleb_true;
     [ | apply sqrt_ge_7;
         match goal with |- _ <= ?u * ?u + ?v * ?v =>
           pose proof (Rle_0_sqr u); pose proof (Rle_0_sqr v); unfold Rsqr in *; nra
         end]);
    (eexists; split; [reflexivity | ]);
    unfold overlapsExclusionZone, violatesBoundary, cornerDistance;
    unfold pt; cbn [cx cy x y width height existsb fst snd]; num;
    rewrite !far_corner by lra; cbn [orb]; (split; [ | reflexivity]).
  - rewrite (Rltb_false (px + (6 + 1))) by lra; reflexivity.
  - rewrite (Rltb_false (px - (6 + 1))) by lra; now rewrite andb_false_r.
  - rewrite (Rltb_false (py + (6 + 1))) by lra; now rewrite andb_false_r.
  - rewrite (Rltb_false (py - (6 + 1))) by lra; now rewrite !andb_false_r.
Qed.
End PrimaryRing.

Section Room.
Variables (this : LabelPlacer) (h : Heap) (id : ObjId).
Variables (px py w hh : R) (t : string) (ap : option (list ObjId)).
Variables (W H pp ob : R).
Hypothesis Hpt : h id = mkPoint (Fin px) (Fin py) t (Fin w) (Fin hh) ap.
Hypothesis HW : chartSize this = mkChartSize (Fin W) (Fin H).
Hypothesis Hpp : pointPenalty (options this) = Fin pp.
Hypothesis Hob : outOfBoundsPenalty (options this) = Fin ob.
Hypothesis Hw : 0 <= w <= 1000.
Hypothesis Hh : 0 <= hh.
Hypothesis Hx : 8 + w <= px <= W - 8 - w.
Hypothesis Hy : 8 + hh <= py <= H - 8 - hh.
Hypothesis Hothers :
  forall others, ap = Some others -> INR (List.length others) * pp <= 90000.

Let pt := mkPoint (Fin px) (Fin py) t (Fin w) (Fin hh) ap.
Let east := mkCandidate (Fin (px + 7)) (Fin (py - hh / 2)) (Fin 0) (Fin 0).

Lemma primaryCandidate_east : primaryCandidate this pt 0 = [east].
Proof.
  unfold primaryCandidate, distanceToPoint; rewrite HW.
  cbn [chartWidth chartHeight x y width height pt]; num.
  change (INR 0) with 0; rewrite Rmult_0_l, cos_0, sin_0, Rabs_R1, Rabs_R0.
  rewrite (Rltb_true 0 1) by lra; cbv beta iota zeta; num.
  rewrite !unclamped by lra.
  rewrite Rleb_true.
  - unfold east; apply (f_equal2 (@cons Candidate)); [ | reflexivity].
    apply (f_equal4 mkCandidate); try reflexivity; apply (f_equal Fin); lra.
  - apply sqrt_ge_7.
    match goal with |- _ <= ?u * ?u + ?v * ?v =>
      pose proof (Rle_0_sqr u); pose proof (Rle_0_sqr v); unfold Rsqr in *; nra
    end.
Qed.

Lemma east_generated (t0 : LabelPlacer) :
  SameConfig t0 this -> In east (generateCandidates t0 pt).
Proof.
  intros Hcfg; rewrite (generateCandidates_config t0 this pt Hcfg).
  unfold generateCandidates; apply in_or_app; left.
  apply in_flat_map; exists 0%nat; split; [apply in_seq; lia | ].
  rewrite primaryCandidate_east; now left.
Qed.

Lemma east_clear :
  overlapsExclusionZone pt east = false /\ violatesBoundary pt east = false.
Proof.
  destruct (primaryCandidate_clear this px py w hh t ap W H HW) with (i := 0%nat)
    as (c & Ec & Ho & Hv); try lra.
  fold pt in Ec; rewrite primaryCandidate_east in Ec.
  inversion Ec; subst c; now split.
Qed.

Lemma east_border : exists m, minBorderDistance this pt east = Fin m /\ 0 <= m.
Proof.
  unfold minBorderDistance, labelCenterX, labelCenterY; rewrite HW.
  cbn [chartWidth chartHeight x y width height pt east cx cy]; num.
  eexists; split; [reflexivity | ].
  repeat apply Rmin_glb; lra.
Qed.


End Room.

Lemma Rabs_le_sqrt_l (u v : R) : Rabs u <= sqrt (u * u + v * v).
Proof.
  rewrite <- (sqrt_Rsqr_abs u); apply sqrt_le_1_alt.
  pose proof (Rle_0_sqr v) as Hv; unfold Rsqr in *; lra.
Qed.

Lemma Rabs_le_sqrt_r (u v : R) : Rabs v <= sqrt (u * u + v * v).
Proof.
  rewrite <- (sqrt_Rsqr_abs v); apply sqrt_le_1_alt.
  pose proof (Rle_0_sqr u) as Hu; unfold Rsqr in *; lra.
Qed.

Section RoomAt.
Variables (this : LabelPlacer) (h : Heap) (ptr : PointRef).
Variables (px py w hh : R) (t : string) (ap : option (list ObjId)).
Variables (W H pp ob : R).
Hypothesis Hpt : deref h ptr = mkPoint (Fin px) (Fin py) t (Fin w) (Fin hh) ap.
Hypothesis HW : chartSize this = mkChartSize (Fin W) (Fin H).
Hypothesis Hrad : isFinite (radius (options this)) = true.
Hypothesis Hpp : pointPenalty (options this) = Fin pp.
Hypothesis Hob : outOfBoundsPenalty (options this) = Fin ob.
Hypothesis Hob0 : 0 <= ob.
Hypothesis Hw : 0 <= w <= 1000.
Hypothesis Hh : 0 <= hh.
Hypothesis Hx : 8 + w <= px <= W - 8 - w.
Hypothesis Hy : 8 + hh <= py <= H - 8 - hh.

Let pt := mkPoint (Fin px) (Fin py) t (Fin w) (Fin hh) ap.
Let east := mkCandidate (Fin (px + 7)) (Fin (py - hh / 2)) (Fin 0) (Fin 0).

Let cover : R := coverBound pp ap.

Lemma cover_bound (c : Candidate) :
  let k := match ap with
           | Some others => coveredCount h ptr c others
           | None => 0%nat
           end in
  (if Rltb 0 (INR k * pp) then - INR k * pp else 0) >= - cover.
Proof.
  cbv zeta; unfold cover, coverBound.
  destruct ap as [others | ].
  - pose proof (coveredCount_le h ptr c others) as Hk.
    apply le_INR in Hk.
    pose proof (pos_INR (coveredCount h ptr c others)) as Hk0.
    pose proof (Rmax_l 0 pp); pose proof (Rmax_r 0 pp).
    unfold Rltb; destruct (Rlt_dec 0 _); nra.
  - cbn [INR]; rewrite Rmult_0_l, (Rltb_false 0 0) by lra; lra.
Qed.

(** The first primary candidate, right of the point, scores at least
    - cover - 180 - 5 w when it meets no placed label. *)
Lemma east_score_lower (t0 : LabelPlacer) :
  SameConfig t0 this -> collisions t0 pt east = [] ->
  exists s, scoreOf t0 h ptr east = Fin s /\ - cover - 180 - 5 * w <= s.
Proof.
  intros [Hsize Hopt] Hfree.
  destruct (east_border this px py w hh t ap W H HW Hw Hh Hx Hy) as (m & Em & Hm).
  assert (Em' : minBorderDistance t0 pt east = Fin m)
    by (unfold minBorderDistance; now rewrite Hsize).
  destruct (centerBonus_lower t0 px py w hh W H (px + 7) (py - hh / 2)
              t ap (Fin 0) (Fin 0)) as (cb & Ecb & Hcb);
    [now rewrite Hsize | lra | lra | ].
  destruct (distance_upper px py w hh (px + 7) (py - hh / 2) t ap (Fin 0) (Fin 0))
    as (d & Ed & Hd).
  assert (HdX : Rabs ((px + 7 + w / 2 - W / 2) / (W / 2)) <= 1).
  { apply Rabs_le_of.
    assert (0 < W / 2) by lra.
    split.
    - apply (Rmult_le_reg_r (W / 2)); [assumption | ].
      unfold Rdiv at 2; rewrite Rmult_assoc, Rinv_l by lra; lra.
    - apply (Rmult_le_reg_r (W / 2)); [assumption | ].
      unfold Rdiv at 1; rewrite Rmult_assoc, Rinv_l by lra; lra. }
  assert (HdY : Rabs ((py - hh / 2 + hh / 2 - H / 2) / (H / 2)) <= 1).
  { apply Rabs_le_of.
    assert (0 < H / 2) by lra.
    split.
    - apply (Rmult_le_reg_r (H / 2)); [assumption | ].
      unfold Rdiv at 2; rewrite Rmult_assoc, Rinv_l by lra; lra.
    - apply (Rmult_le_reg_r (H / 2)); [assumption | ].
      unfold Rdiv at 1; rewrite Rmult_assoc, Rinv_l by lra; lra. }
  assert (Hdx : Rabs (px + 7 + w / 2 - px) <= 7 + w / 2) by (apply Rabs_le_of; lra).
  assert (Hdy : Rabs (py - hh / 2 + hh / 2 - py) <= 0) by (apply Rabs_le_of; lra).
  eexists; split.
  - apply (scoreOf_formula t0 h ptr px py w hh t ap Hpt pp ob);
      [now rewrite Hopt | now rewrite Hopt | exact Em' | exact Ecb | exact Ed].
  - unfold realScore; fold pt east; rewrite Hfree.
    cbn [List.length INR].
    pose proof (cover_bound east) as Hpen; cbv zeta in Hpen.
    set (k := match ap with Some others => coveredCount h ptr east others | None => 0%nat end) in *.
    assert (Es2 : (if Rltb 0 (INR k * pp) then -100000 * 0 - INR k * pp else -100000 * 0)
                  = (if Rltb 0 (INR k * pp) then - INR k * pp else 0))
      by (destruct (Rltb 0 (INR k * pp)); lra).
    rewrite Es2.
    set (s2 := if Rltb 0 _ then _ else _) in *.
    assert (Hb : (if Rltb m 10 then s2 - (10 - m) / 10 * ((10 - m) / 10) * 100 else s2)
                 >= s2 - 100).
    { unfold Rltb; destruct (Rlt_dec m 10); [ | lra].
      assert (0 <= (10 - m) / 10 <= 1) by lra.
      nra. }
    set (s3 := if Rltb m 10 then _ else _) in *.
    assert (Eoob : isOutOfBounds t0 (mkRect (Fin (px + 7)) (Fin (py - hh / 2)) (Fin w) (Fin hh))
                   = false).
    { unfold isOutOfBounds; rewrite Hsize, HW.
      cbn [rect_x rect_y rect_width rect_height chartWidth chartHeight]; num.
      rewrite !Rltb_false by lra; reflexivity. }
    rewrite Eoob; lra.
Qed.

(** A point with room around it whose first primary candidate meets no
    placed label gets a label, and the centre of that label is not far
    from the point. *)
Lemma room_label (t0 : LabelPlacer) :
  SameConfig t0 this -> collisions t0 pt east = [] ->
  cover + 180 + 5 * w < 100000 ->
  exists chosen rest info a b,
    sort byScoreDescending (scoredCandidates t0 h ptr) = chosen :: rest /\
    le (score chosen) (Fin (-100000)) = false /\
    cx chosen = Fin a /\ cy chosen = Fin b /\
    Rabs (a + w / 2 - px) <= (cover + 190 + 5 * w) / 10 /\
    Rabs (b + hh / 2 - py) <= (cover + 190 + 5 * w) / 10 /\
    placeLabelForPoint t0 h ptr
    = Ok (Some ({| lx := Fin a; ly := Fin b; lwidth := Fin w; lheight := Fin hh;
                   lrotation := Fin 0; ltext := t; forPoint := ptr |}, info)).
Proof.
  intros Hcfg Hfree Hcover.
  pose proof Hcfg as [Hsize Hopt].
  assert (Hfin : FinitePoint (deref h ptr))
    by (rewrite Hpt; repeat split; reflexivity).
  assert (Hchart : FiniteChart t0)
    by (unfold FiniteChart; rewrite Hsize, HW; split; reflexivity).
  assert (Hproper : ProperChart t0).
  { unfold ProperChart; rewrite Hsize, HW; cbn [chartWidth chartHeight].
    split; intros E; inversion E; lra. }
  assert (Hopts : FiniteOptions t0).
  { unfold FiniteOptions; rewrite Hopt, Hpp, Hob; repeat split; assumption. }
  assert (Hoob : le (Fin 0) (outOfBoundsPenalty (options t0)) = true)
    by (rewrite Hopt, Hob; cbn; now apply Rleb_true).
  set (scored := applyBoundaryPenalty (deref h ptr) (scoreCandidate t0 h ptr east)).
  assert (Hin : In scored (scoredCandidates t0 h ptr)).
  { apply scoredCandidates_In; exists east; split; [ | reflexivity].
    rewrite Hpt.
    apply (east_generated this px py w hh t ap W H HW); try assumption. }
  destruct (east_score_lower t0 Hcfg Hfree) as (s & Es & Hs).
  assert (Escored : score scored = Fin s).
  { destruct (east_clear this px py w hh t ap W H HW Hw Hh Hx Hy) as (Eo & Ev).
    unfold scored, applyBoundaryPenalty; rewrite Hpt.
    change (overlapsExclusionZone _ (scoreCandidate t0 h ptr east))
      with (overlapsExclusionZone (mkPoint (Fin px) (Fin py) t (Fin w) (Fin hh) ap) east).
    change (violatesBoundary _ (scoreCandidate t0 h ptr east))
      with (violatesBoundary (mkPoint (Fin px) (Fin py) t (Fin w) (Fin hh) ap) east).
    unfold east; rewrite Eo, Ev; cbn [orb scoreCandidate score]; exact Es. }
  assert (Hnan : forall c, In c (scoredCandidates t0 h ptr) -> isNaN (score c) = false).
  { intros c Hc; apply isFinite_notNaN.
    now apply (scoredCandidates_notNaN t0 h ptr). }
  destruct (sort byScoreDescending (scoredCandidates t0 h ptr))
    as [ | chosen rest] eqn:Esort.
  { apply sort_nil_inv in Esort; rewrite Esort in Hin; destruct Hin. }
  assert (Ehd : hd_error (sort byScoreDescending (scoredCandidates t0 h ptr))
                = Some chosen) by now rewrite Esort.
  destruct (sort_first_max _ chosen Hnan Ehd) as (l1 & l2 & El & H1 & H2).
  assert (Hchosen : In chosen (scoredCandidates t0 h ptr))
    by (rewrite El; apply in_or_app; right; now left).
  assert (Hle : le (score scored) (score chosen) = true).
  { rewrite El in Hin; apply in_app_or in Hin as [Hin | [<- | Hin]].
    - now apply lt_le, H1.
    - now apply le_refl, Hnan.
    - now apply H2. }
  apply scoredCandidates_In in Hchosen as (c & Hc & Echosen).
  destruct (generateCandidates_fin t0 _ c Hfin Hchart) as (a & b & ->);
    [now rewrite Hopt | exact Hc | ].
  assert (HW0 : W <> 0) by lra.
  assert (HH0 : H <> 0) by lra.
  destruct (scoreOf_bound t0 h ptr px py w hh t ap Hpt W H pp ob)
    with (a := a) (b := b) (r0 := Fin 0) (s0 := Fin 0) as (sc & d & Esc & Ed & Hsc);
    try assumption; [now rewrite Hsize | now rewrite Hopt | now rewrite Hopt | ].
  pose proof (pos_INR (List.length
                (collisions t0 (mkPoint (Fin px) (Fin py) t (Fin w) (Fin hh) ap)
                   (mkCandidate (Fin a) (Fin b) (Fin 0) (Fin 0))))) as Hn.
  assert (Hsc' : exists s', score chosen = Fin s' /\ s' <= sc).
  { rewrite Echosen; unfold applyBoundaryPenalty.
    destruct (_ || _); cbn [score scoreCandidate]; rewrite Esc;
      eexists; (split; [reflexivity | lra]). }
  destruct Hsc' as (s' & Es' & Hs').
  rewrite Escored, Es' in Hle; cbn in Hle; apply Rleb_spec in Hle.
  assert (Hd : d <= (cover + 190 + 5 * w) / 10) by lra.
  unfold distance, labelCenterX, labelCenterY in Ed.
  cbn [x y width height cx cy] in Ed; revert Ed; num; intros Ed.
  inversion Ed as [Ed']; clear Ed.
  exists chosen, rest.
  assert (Ecx : cx chosen = Fin a /\ cy chosen = Fin b /\ rotation chosen = Fin 0).
  { rewrite Echosen.
    destruct (applyBoundaryPenalty_cx (deref h ptr)
                (scoreCandidate t0 h ptr (mkCandidate (Fin a) (Fin b) (Fin 0) (Fin 0))))
      as (-> & -> & ->); repeat split. }
  destruct Ecx as (Ecx & Ecy & Erot).
  eexists; exists a, b.
  split; [reflexivity | ].
  assert (Hveto : le (score chosen) (Fin (-100000)) = false)
    by (rewrite Es'; cbn [le]; apply Rleb_false; lra).
  split; [exact Hveto | ].
  split; [exact Ecx | split; [exact Ecy | ]].
  split; [ | split].
  - etransitivity; [apply (Rabs_le_sqrt_l _ (b + hh / 2 - py)) | ].
    rewrite Ed'; exact Hd.
  - etransitivity; [apply (Rabs_le_sqrt_r (a + w / 2 - px)) | ].
    rewrite Ed'; exact Hd.
  - unfold placeLabelForPoint; rewrite Esort, Hveto, Ecx, Ecy, Erot, Hpt.
    reflexivity.
Qed.

End RoomAt.

(** Two points with room around them, the second one far enough to the
    right of the first one: both get a label. *)
Lemma two_rooms (this : LabelPlacer) (h : Heap) (ida idb : ObjId)
  (px1 py1 w1 hh1 px2 py2 w2 hh2 W H pp ob : R) (t1 t2 : string)
  (ap1 ap2 : option (list ObjId)) :
  h ida = mkPoint (Fin px1) (Fin py1) t1 (Fin w1) (Fin hh1) ap1 ->
  h idb = mkPoint (Fin px2) (Fin py2) t2 (Fin w2) (Fin hh2) ap2 ->
  hasLabel (h ida) = true -> hasLabel (h idb) = true ->
  keyOf (h ida) <> keyOf (h idb) -> py1 <= py2 ->
  chartSize this = mkChartSize (Fin W) (Fin H) ->
  isFinite (radius (options this)) = true ->
  pointPenalty (options this) = Fin pp ->
  outOfBoundsPenalty (options this) = Fin ob -> 0 <= ob ->
  0 <= w1 <= 1000 -> 0 <= hh1 ->
  8 + w1 <= px1 <= W - 8 - w1 -> 8 + hh1 <= py1 <= H - 8 - hh1 ->
  0 <= w2 <= 1000 -> 0 <= hh2 ->
  8 + w2 <= px2 <= W - 8 - w2 -> 8 + hh2 <= py2 <= H - 8 - hh2 ->
  coverBound pp ap1 + 180 + 5 * w1 < 100000 ->
  coverBound pp ap2 + 180 + 5 * w2 < 100000 ->
  px1 + (coverBound pp ap1 + 190 + 5 * w1) / 10 + w1 / 2 + 4 < px2 + 7 ->
  exists a1 b1 a2 b2,
    placed this h [ida; idb]
    = Ok [ {| lx := Fin a1; ly := Fin b1; lwidth := Fin w1; lheight := Fin hh1;
              lrotation := Fin 0; ltext := t1; forPoint := Existing ida |};
           {| lx := Fin a2; ly := Fin b2; lwidth := Fin w2; lheight := Fin hh2;
              lrotation := Fin 0; ltext := t2; forPoint := Existing idb |} ].
Proof.
  intros Ea Eb Hla Hlb Hkey Hy12 HW Hrad Hpp Hob Hob0
    Hw1 Hh1 Hx1 Hy1 Hw2 Hh2 Hx2 Hy2 Hc1 Hc2 Hfar.
  unfold placed, placeAll.
  rewrite (sortedGroups_two h ida idb Hla Hlb Hkey).
  2:{ rewrite Ea, Eb; cbn [y sub gt lt]; apply Rltb_false; lra. }
  cbn [placeGroups]; unfold placeGroup; cbn [groupPoint].
  destruct (room_label this h (Existing ida) px1 py1 w1 hh1 t1 ap1 W H pp ob
              Ea HW Hrad Hpp Hob Hob0 Hw1 Hh1 Hx1 Hy1 (reset this))
    as (chosen1 & rest1 & info1 & a1 & b1 & _ & _ & _ & _ & Ha1 & _ & E1);
    [apply reset_config | reflexivity | exact Hc1 | ].
  rewrite E1.
  match goal with |- context [commit ?t ?l ?i] => set (mid := commit t l i) end.
  destruct (room_label this h (Existing idb) px2 py2 w2 hh2 t2 ap2 W H pp ob
              Eb HW Hrad Hpp Hob Hob0 Hw2 Hh2 Hx2 Hy2 mid)
    as (chosen2 & rest2 & info2 & a2 & b2 & _ & _ & _ & _ & _ & _ & E2);
    [split; reflexivity | | exact Hc2 | ].
  { unfold collisions, tree_search, mid.
    cbn [commit tree reset tree_insert app existsb filter].
    unfold boxHasNaN, intersects, toRTreeBox.
    cbn [minX minY maxX maxY lx ly lwidth lheight cx cy width height]; num.
    cbn [isNaN orb].
    pose proof (Rle_abs (a1 + w1 / 2 - px1)) as Hle1.
    rewrite (Rleb_false (px2 + 7 - 2)) by lra.
    now rewrite !andb_false_r. }
  rewrite E2.
  exists a1, b1, a2, b2; reflexivity.
Qed.

Lemma coverBound_pair (pp : R) (a b : ObjId) :
  0 <= pp -> coverBound pp (Some [a; b]) = 2 * pp.
Proof.
  intros Hpp; unfold coverBound; cbn [List.length INR].
  rewrite Rmax_right by exact Hpp; lra.
Qed.

(** The pass over the two points returns a label for each, in the order
    of their y. *)
Lemma spread_pass :
  exists a1 b1 a2 b2,
    placed exampleEngine spreadHeap [0%nat; 1%nat]
    = Ok [ {| lx := Fin a1; ly := Fin b1; lwidth := Fin 40; lheight := Fin 12;
              lrotation := Fin 0; ltext := "A"; forPoint := Existing 0%nat |};
           {| lx := Fin a2; ly := Fin b2; lwidth := Fin 40; lheight := Fin 12;
              lrotation := Fin 0; ltext := "B"; forPoint := Existing 1%nat |} ].
Proof.
  apply (two_rooms exampleEngine spreadHeap 0%nat 1%nat
           60 60 40 12 340 200 40 12 400 300 500 300 "A" "B"
           (Some [0%nat; 1%nat]) (Some [0%nat; 1%nat]));
    try reflexivity; try lra;
    try (rewrite coverBound_pair by lra; lra).
  unfold keyOf; cbn [spreadHeap spreadA spreadB x y].
  rewrite !Math_round_IZR; intros E; inversion E; lra.
Qed.

(** The same two points handed over in the other order: the labels come in
    the order of the y of their points all the same. *)
Lemma sortedGroups_swapped (h : Heap) (a b : ObjId) :
  hasLabel (h a) = true -> hasLabel (h b) = true ->
  keyOf (h a) <> keyOf (h b) ->
  gt (sub (y (h b)) (y (h a))) (Fin 0) = true ->
  sortedGroups h [b; a] = [[a]; [b]].
Proof.
  intros Ha Hb Hk Hy; unfold sortedGroups, pointGroups; cbn [filter].
  rewrite Ha, Hb; cbn [fold_left addToGroup].
  rewrite (proj2 (key_eqb_neq _ _)) by (intros E; now apply Hk).
  unfold sort; cbn [fold_left insertSorted].
  unfold byFirstY at 1, firstY; cbn [snd].
  rewrite Hy; reflexivity.
Qed.

Lemma spread_pass_reversed :
  exists a1 b1 a2 b2,
    placed exampleEngine spreadHeap [1%nat; 0%nat]
    = Ok [ {| lx := Fin a1; ly := Fin b1; lwidth := Fin 40; lheight := Fin 12;
              lrotation := Fin 0; ltext := "A"; forPoint := Existing 0%nat |};
           {| lx := Fin a2; ly := Fin b2; lwidth := Fin 40; lheight := Fin 12;
              lrotation := Fin 0; ltext := "B"; forPoint := Existing 1%nat |} ].
Proof.
  destruct spread_pass as (a1 & b1 & a2 & b2 & E).
  exists a1, b1, a2, b2; rewrite <- E.
  unfold placed, placeAll.
  assert (Hkey : keyOf (spreadHeap 0%nat) <> keyOf (spreadHeap 1%nat)).
  { unfold keyOf; cbn [spreadHeap spreadA spreadB x y].
    rewrite !Math_round_IZR; intros E0; inversion E0; lra. }
  rewrite (sortedGroups_swapped spreadHeap 0%nat 1%nat), (sortedGroups_two spreadHeap 0%nat 1%nat);
    try reflexivity; try exact Hkey.
  - cbn; apply Rltb_false; lra.
  - cbn; apply Rltb_true; lra.
Qed.



(* ================================================================== *)
(** * Further properties of the engine *)

(** ** Where a label comes from *)

Lemma primaryCandidate_rotation (this : LabelPlacer) (pt : Point) (i : nat)
  (c : Candidate) :
  In c (primaryCandidate this pt i) -> rotation c = Fin 0.
Proof.
  unfold primaryCandidate.
  destruct (gt _ _); cbv zeta;
    (match goal with |- context [if ge ?a ?b then _ else _] => destruct (ge a b) end;
     [intros [<- | []]; reflexivity | intros []]).
Qed.

Lemma expandingCandidate_rotation (this : LabelPlacer) (pt : Point) (r n i : nat)
  (c : Candidate) :
  In c (expandingCandidate this pt r n i) -> rotation c = Fin 0.
Proof.
  unfold expandingCandidate; cbv zeta.
  match goal with |- context [if ge ?a ?b then _ else _] => destruct (ge a b) end;
    [intros [<- | []]; reflexivity | intros []].
Qed.

Lemma generateCandidates_rotation (this : LabelPlacer) (pt : Point) (c : Candidate) :
  In c (generateCandidates this pt) -> rotation c = Fin 0.
Proof.
  intros Hc; apply generateCandidates_In in Hc
    as [(i & Hc) | [(r & n & i & _ & Hc) | [(ring & i & _ & _ & ->) | (ring & i & _ & _ & ->)]]].
  - eapply primaryCandidate_rotation; eauto.
  - eapply expandingCandidate_rotation; eauto.
  - reflexivity.
  - reflexivity.
Qed.

(** Every label of a pass was built, for the point of a group, from a scored
    candidate of an engine with the configuration of the pass. *)
Lemma placeGroups_provenance (this0 : LabelPlacer) (h : Heap)
  (groups : list (list ObjId)) (P : LabelBox -> Prop) :
  (forall this g ptr chosen,
     SameConfig this this0 -> In g groups -> groupPoint h g = Some ptr ->
     In chosen (scoredCandidates this h ptr) ->
     le (score chosen) (Fin (-100000)) = false ->
     P {| lx := cx chosen; ly := cy chosen;
          lwidth := width (deref h ptr); lheight := height (deref h ptr);
          lrotation := rotation chosen; ltext := text (deref h ptr);
          forPoint := ptr |}) ->
  forall this this',
    SameConfig this this0 ->
    (forall l, In l (placedLabels this) -> P l) ->
    placeGroups this h groups = Ok this' ->
    forall l, In l (placedLabels this') -> P l.
Proof.
  intros HP this this' Hcfg Hall E.
  apply (placeGroups_invariant
           (fun t => SameConfig t this0 /\ forall l, In l (placedLabels t) -> P l)
           h groups) with (this := this); [ | now split | exact E].
  clear this this' Hcfg Hall E.
  intros this g this' [Hcfg Hall] Hg E.
  split; [eapply SameConfig_trans; [eapply placeGroup_config; eauto | exact Hcfg] | ].
  apply placeGroup_Ok in E as (ptr & Eptr & [[_ ->] | (label & info & E & ->)]);
    [exact Hall | ].
  apply placeLabelForPoint_Some in E as (chosen & _ & Hin & Hle & ->).
  cbn [commit placedLabels]; intros l Hl.
  apply in_app_or in Hl as [Hl | [<- | []]]; [now apply Hall | ].
  now apply (HP this g ptr chosen).
Qed.

Lemma placed_provenance (this : LabelPlacer) (h : Heap) (points : list ObjId)
  (labels : list LabelBox) (P : LabelBox -> Prop) :
  (forall this1 g ptr chosen,
     SameConfig this1 this -> In g (sortedGroups h points) ->
     groupPoint h g = Some ptr ->
     In chosen (scoredCandidates this1 h ptr) ->
     le (score chosen) (Fin (-100000)) = false ->
     P {| lx := cx chosen; ly := cy chosen;
          lwidth := width (deref h ptr); lheight := height (deref h ptr);
          lrotation := rotation chosen; ltext := text (deref h ptr);
          forPoint := ptr |}) ->
  placed this h points = Ok labels ->
  forall l, In l labels -> P l.
Proof.
  intros HP E; unfold placed, placeAll in E.
  destruct (placeGroups (reset this) h (sortedGroups h points)) as [t | ] eqn:Eg;
    [ | discriminate].
  inversion E; subst labels.
  apply (placeGroups_provenance this h (sortedGroups h points) P HP (reset this) t);
    [apply reset_config | intros l [] | exact Eg].
Qed.

(** ** Labels are upright and keep their distance *)

(** X1: no label is rotated: every label that a pass returns has rotation 0,
    whatever the chart, the options and the points. *)
Theorem labels_are_not_rotated (this : LabelPlacer) (h : Heap)
  (points : list ObjId) (labels : list LabelBox) :
  placed this h points = Ok labels ->
  Forall (fun label => lrotation label = Fin 0) labels.
Proof.
  intros E; apply Forall_forall.
  apply (placed_provenance this h points labels
           (fun l => lrotation l = Fin 0)); [ | exact E].
  intros this1 g ptr chosen _ _ _ Hin _; cbn [lrotation].
  apply scoredCandidates_In in Hin as (c & Hc & ->).
  rewrite (proj2 (proj2 (applyBoundaryPenalty_cx _ _))); cbn [scoreCandidate rotation].
  eapply generateCandidates_rotation; eauto.
Qed.

Lemma labels_are_not_rotated_witness :
  exists labels,
    placed exampleEngine exampleHeap [0%nat] = Ok labels /\
    Forall (fun label => lrotation label = Fin 0) labels.
Proof.
  destruct (placeAll_total exampleEngine exampleHeap [0%nat]) as (labels & E);
    [cbn; lia | cbn; lia | ].
  exists labels; split; [exact E | ].
  exact (labels_are_not_rotated _ _ _ _ E).
Defined.



(** ** The labels follow the groups *)

Lemma groupPoint_LabelOf (h : Heap) (g : list ObjId) (ptr : PointRef)
  (chosen : Candidate) :
  groupPoint h g = Some ptr ->
  LabelOf h {| lx := cx chosen; ly := cy chosen;
               lwidth := width (deref h ptr); lheight := height (deref h ptr);
               lrotation := rotation chosen; ltext := text (deref h ptr);
               forPoint := ptr |} g.
Proof. intros Eptr; repeat split; exact Eptr. Qed.

Lemma placeGroups_kept (h : Heap) (groups : list (list ObjId)) :
  forall this this',
    placeGroups this h groups = Ok this' ->
    exists kept more,
      placedLabels this' = placedLabels this ++ more /\
      Subsequence kept groups /\
      Forall2 (LabelOf h) more kept.
Proof.
  induction groups as [ | g rest IH]; intros this this'; cbn [placeGroups].
  - intros E; inversion E; subst.
    exists [], []; rewrite app_nil_r; repeat constructor.
  - destruct (placeGroup this h g) as [t | ] eqn:Eg; [ | discriminate].
    intros E; apply IH in E as (kept & more & Emore & Hsub & Hall).
    apply placeGroup_Ok in Eg as (ptr & Eptr & [[_ ->] | (label & info & Ep & ->)]).
    + exists kept, more; split; [exact Emore | split; [now constructor | exact Hall]].
    + apply placeLabelForPoint_Some in Ep as (chosen & _ & _ & _ & ->).
      eexists (g :: kept), (_ :: more); split; [ | split].
      * rewrite Emore; cbn [commit placedLabels].
        rewrite <- app_assoc; reflexivity.
      * now constructor.
      * constructor; [now apply groupPoint_LabelOf | exact Hall].
Qed.

Lemma placed_kept (this : LabelPlacer) (h : Heap) (points : list ObjId)
  (labels : list LabelBox) :
  placed this h points = Ok labels ->
  exists kept,
    Subsequence kept (sortedGroups h points) /\ Forall2 (LabelOf h) labels kept.
Proof.
  unfold placed, placeAll; intros E.
  destruct (placeGroups (reset this) h (sortedGroups h points)) as [t | ] eqn:Eg;
    [ | discriminate].
  inversion E; subst labels.
  apply placeGroups_kept in Eg as (kept & more & Emore & Hsub & Hall).
  cbn [reset placedLabels app] in Emore; rewrite Emore.
  now exists kept.
Qed.

(** X3: the labels that a pass returns stand for groups of the pass, one
    label per group at most and in the order in which the groups are
    processed: each label is placed for the point of its group and carries
    the text, the width and the height of that point. *)
Theorem labels_follow_the_groups (this : LabelPlacer) (h : Heap)
  (points : list ObjId) (labels : list LabelBox) :
  placed this h points = Ok labels ->
  exists kept,
    Subsequence kept (sortedGroups h points) /\
    Forall2 (LabelOf h) labels kept.
Proof.
  unfold placed, placeAll; intros E.
  destruct (placeGroups (reset this) h (sortedGroups h points)) as [t | ] eqn:Eg;
    [ | discriminate].
  inversion E; subst labels.
  destruct (placeGroups_kept h (sortedGroups h points) (reset this) t Eg)
    as (kept & more & Emore & Hsub & Hall).
  exists kept; split; [exact Hsub | ].
  cbn [reset placedLabels app] in Emore; now rewrite Emore.
Qed.

Lemma labels_follow_the_groups_witness :
  exists labels kept,
    placed exampleEngine exampleHeap [0%nat] = Ok labels /\
    Subsequence kept (sortedGroups exampleHeap [0%nat]) /\
    Forall2 (LabelOf exampleHeap) labels kept.
Proof.
  destruct (placeAll_total exampleEngine exampleHeap [0%nat]) as (labels & E);
    [cbn; lia | cbn; lia | ].
  destruct (labels_follow_the_groups _ _ _ _ E) as (kept & Hsub & Hall).
  exists labels, kept; repeat split; assumption.
Defined.

(** ** The order of the labels *)

Section SortedByKey.
Context {A : Type} (f : A -> number).

Let ascending (u v : A) : Prop := le (f u) (f v) = true.
Let byKey (u v : A) : number := sub (f u) (f v).

Lemma insertSorted_ascending (a : A) (l : list A) :
  isNaN (f a) = false ->
  Forall (fun b => isNaN (f b) = false) l ->
  StronglySorted ascending l ->
  StronglySorted ascending (insertSorted byKey a l).
Proof.
  intros Ha Hl Hs; induction Hs as [ | b l Hs IH Hb]; cbn [insertSorted].
  - repeat constructor.
  - inversion Hl as [ | ? ? Hfb Hl']; subst.
    unfold byKey at 1; rewrite gt_sub_lt by assumption.
    destruct (lt (f a) (f b)) eqn:E.
    + constructor; [now constructor | ].
      constructor; [now apply lt_le | ].
      eapply Forall_impl; [ | exact Hb].
      intros c Hc; unfold ascending in *.
      eapply le_trans; [apply lt_le; exact E | exact Hc].
    + constructor; [now apply IH | ].
      apply Forall_forall; intros c Hc.
      apply insertSorted_In in Hc as [-> | Hc].
      * now apply lt_false_le.
      * rewrite Forall_forall in Hb; now apply Hb.
Qed.

Lemma sort_ascending_acc (l acc : list A) :
  Forall (fun b => isNaN (f b) = false) l ->
  Forall (fun b => isNaN (f b) = false) acc ->
  StronglySorted ascending acc ->
  StronglySorted ascending
    (fold_left (fun acc a => insertSorted byKey a acc) l acc).
Proof.
  revert acc; induction l as [ | a l IH]; intros acc Hl Hacc Hs; cbn [fold_left];
    [exact Hs | ].
  inversion Hl; subst.
  apply IH; [assumption | | now apply insertSorted_ascending].
  apply Forall_forall; intros c Hc.
  apply insertSorted_In in Hc as [-> | Hc]; [assumption | ].
  rewrite Forall_forall in Hacc; now apply Hacc.
Qed.

Lemma sort_ascending (l : list A) :
  Forall (fun b => isNaN (f b) = false) l ->
  StronglySorted ascending (sort byKey l).
Proof.
  intros Hl; apply sort_ascending_acc; [exact Hl | constructor | constructor].
Qed.

End SortedByKey.

Lemma Subsequence_In {A : Type} (kept l : list A) (a : A) :
  Subsequence kept l -> In a kept -> In a l.
Proof.
  induction 1 as [ | b kept l _ IH | b kept l _ IH]; cbn [In]; intuition.
Qed.

Lemma Subsequence_sorted {A : Type} (R : A -> A -> Prop) (kept l : list A) :
  Subsequence kept l -> StronglySorted R l -> StronglySorted R kept.
Proof.
  induction 1 as [ | b kept l Hsub IH | b kept l Hsub IH]; intros Hs.
  - constructor.
  - inversion Hs; subst; now apply IH.
  - inversion Hs as [ | ? ? Hs' Hb]; subst.
    constructor; [now apply IH | ].
    apply Forall_forall; intros c Hc.
    rewrite Forall_forall in Hb; apply Hb.
    eapply Subsequence_In; eauto.
Qed.

Lemma StronglySorted_map {A B : Type} (R : B -> B -> Prop) (g : A -> B)
  (l : list A) :
  StronglySorted (fun u v => R (g u) (g v)) l -> StronglySorted R (map g l).
Proof.
  induction 1 as [ | a l _ IH Ha]; cbn [map]; constructor; [exact IH | ].
  apply Forall_forall; intros b Hb.
  apply in_map_iff in Hb as (c & <- & Hc).
  rewrite Forall_forall in Ha; now apply Ha.
Qed.

(** [a[0].y] of a group of the pass. *)
Lemma groupPoint_y (h : Heap) (g : list ObjId) (k : Key) (ptr : PointRef) :
  groupPoint h g = Some ptr -> y (deref h ptr) = firstY h (k, g).
Proof.
  destruct g as [ | first [ | second rest]]; cbn [groupPoint]; intros E;
    inversion E; subst; reflexivity.
Qed.

Lemma sortedGroups_ascending (h : Heap) (points : list ObjId) :
  (forall id, In id points -> hasLabel (h id) = true -> isNaN (y (h id)) = false) ->
  StronglySorted (fun g1 g2 => le (firstY h (Fin 0, Fin 0, g1))
                                  (firstY h (Fin 0, Fin 0, g2)) = true)
    (sortedGroups h points).
Proof.
  intros Hy; unfold sortedGroups.
  apply StronglySorted_map
    with (R := fun g1 g2 => le (firstY h (Fin 0, Fin 0, g1))
                               (firstY h (Fin 0, Fin 0, g2)) = true).
  apply (sort_ascending (firstY h)).
  apply Forall_forall; intros [k g] Hg.
  destruct (pointGroups_GroupsOf h (filter (fun pt => hasLabel (h pt)) points))
    as (_ & Hgroups & _).
  destruct (Hgroups k g Hg) as (Hne & Eg).
  destruct g as [ | first rest]; [congruence | ].
  unfold firstY; cbn [snd].
  assert (Hin : In first (first :: rest)) by now left.
  rewrite Eg in Hin; apply filter_In in Hin as (Hin & _).
  apply filter_In in Hin as (Hin & Hlab); now apply Hy.
Qed.

Lemma Forall2_In_l {A B : Type} (R : A -> B -> Prop) (la : list A) (lb : list B)
  (a : A) :
  Forall2 R la lb -> In a la -> exists b, In b lb /\ R a b.
Proof.
  induction 1 as [ | a' b' la lb Hab _ IH]; cbn [In]; [tauto | ].
  intros [<- | Ha]; [exists b'; tauto | ].
  destruct (IH Ha) as (b & Hb & Hr); exists b; tauto.
Qed.

Lemma Forall2_sorted {A B : Type} (R : A -> B -> Prop) (f : A -> number)
  (g : B -> number) (la : list A) (lb : list B) :
  Forall2 R la lb ->
  (forall a b, R a b -> f a = g b) ->
  StronglySorted (fun u v => le (g u) (g v) = true) lb ->
  StronglySorted (fun u v => le (f u) (f v) = true) la.
Proof.
  intros Hall Hfg; induction Hall as [ | a b la lb Hab Hall IH]; intros Hs;
    [constructor | ].
  inversion Hs as [ | ? ? Hs' Hb]; subst.
  constructor; [now apply IH | ].
  apply Forall_forall; intros a' Ha'.
  destruct (Forall2_In_l _ _ _ _ Hall Ha') as (b' & Hb' & Hab').
  rewrite (Hfg a b Hab), (Hfg a' b' Hab').
  rewrite Forall_forall in Hb; now apply Hb.
Qed.

(** X4: when no labelled point has the coordinate y NaN, the labels that a
    pass returns are in ascending order of the y of their points: a label
    is never returned before the label of a point with a smaller y. *)
Theorem labels_ascend_in_y (this : LabelPlacer) (h : Heap)
  (points : list ObjId) (labels : list LabelBox) :
  (forall id, In id points -> hasLabel (h id) = true -> isNaN (y (h id)) = false) ->
  placed this h points = Ok labels ->
  StronglySorted
    (fun a b => le (y (deref h (forPoint a))) (y (deref h (forPoint b))) = true)
    labels.
Proof.
  intros Hy E; apply placed_kept in E as (kept & Hsub & Hall).
  apply (Forall2_sorted (LabelOf h)
           (fun l => y (deref h (forPoint l)))
           (fun g => firstY h (Fin 0, Fin 0, g)) labels kept Hall).
  - intros l g (Eptr & _); now apply groupPoint_y.
  - eapply Subsequence_sorted; [exact Hsub | now apply sortedGroups_ascending].
Qed.

Lemma labels_ascend_in_y_witness :
  exists first second,
    placed exampleEngine spreadHeap [1%nat; 0%nat] = Ok [first; second] /\
    forPoint first = Existing 0%nat /\ forPoint second = Existing 1%nat /\
    StronglySorted
      (fun a b => le (y (deref spreadHeap (forPoint a)))
                     (y (deref spreadHeap (forPoint b))) = true)
      [first; second].
Proof.
  destruct spread_pass_reversed as (a1 & b1 & a2 & b2 & E).
  eexists; eexists; split; [exact E | ].
  split; [reflexivity | split; [reflexivity | ]].
  apply (labels_ascend_in_y exampleEngine spreadHeap [1%nat; 0%nat] _);
    [ | exact E].
  intros [ | id] _ _; reflexivity.
Defined.

(** ** The groups of a pass *)

Lemma GroupsOf_Permutation (h : Heap) (pts : list ObjId)
  (groups groups' : list (Key * list ObjId)) :
  Permutation groups groups' -> GroupsOf h pts groups -> GroupsOf h pts groups'.
Proof.
  intros Hp (Hnd & Hg & Hk); split; [ | split].
  - eapply Permutation_NoDup; [apply Permutation_map; exact Hp | exact Hnd].
  - intros k g Hin; apply Hg.
    eapply Permutation_in; [apply Permutation_sym; exact Hp | exact Hin].
  - intros id Hid.
    eapply Permutation_in; [apply Permutation_map; exact Hp | now apply Hk].
Qed.

(** X5: the groups of a pass divide the labelled points by rounded position:
    there is one group per rounded position (x, y) of a labelled point, no
    two groups have the same one, no group is empty, and each group holds,
    in input order, exactly the labelled points of the input that round to
    its position. *)
Theorem groups_divide_labelled_points (h : Heap) (points : list ObjId) :
  exists entries,
    sortedGroups h points = map snd entries /\
    GroupsOf h (filter (fun pt => hasLabel (h pt)) points) entries.
Proof.
  exists (sort (byFirstY h)
            (pointGroups h (filter (fun pt => hasLabel (h pt)) points))).
  split; [reflexivity | ].
  eapply GroupsOf_Permutation;
    [apply Permutation_sym, sort_Permutation | apply pointGroups_GroupsOf].
Qed.

(** ** The number of candidates *)

Lemma flat_map_length_le {A B : Type} (f : A -> list B) (g : A -> nat)
  (l : list A) :
  (forall a, In a l -> (List.length (f a) <= g a)%nat) ->
  (List.length (flat_map f l) <= list_sum (map g l))%nat.
Proof.
  induction l as [ | a l IH]; intros Hf; cbn [flat_map map];
    [cbn; lia | ].
  change (list_sum (g a :: map g l)) with (g a + list_sum (map g l))%nat.
  rewrite length_app.
  assert (List.length (f a) <= g a)%nat by (apply Hf; now left).
  assert (List.length (flat_map f l) <= list_sum (map g l))%nat
    by (apply IH; intros b Hb; apply Hf; now right).
  lia.
Qed.

Lemma flat_map_length_const {A B : Type} (f : A -> list B) (n : nat)
  (l : list A) :
  (forall a, In a l -> List.length (f a) = n) ->
  List.length (flat_map f l) = (List.length l * n)%nat.
Proof.
  induction l as [ | a l IH]; intros Hf; cbn [flat_map List.length];
    [reflexivity | ].
  rewrite length_app, Hf by (now left).
  rewrite IH by (intros b Hb; apply Hf; now right); lia.
Qed.

Lemma list_sum_const {A : Type} (l : list A) (n : nat) :
  list_sum (map (fun _ => n) l) = (List.length l * n)%nat.
Proof.
  induction l as [ | a l IH]; [reflexivity | ].
  cbn [map List.length].
  change (list_sum (n :: map (fun _ => n) l))
    with (n + list_sum (map (fun _ => n) l))%nat.
  rewrite IH; lia.
Qed.

Lemma primaryCandidate_length (this : LabelPlacer) (pt : Point) (i : nat) :
  (List.length (primaryCandidate this pt i) <= 1)%nat.
Proof.
  unfold primaryCandidate.
  destruct (gt _ _); cbv zeta;
    match goal with |- context [if ge ?a ?b then _ else _] => destruct (ge a b) end;
    cbn; lia.
Qed.

Lemma expandingCandidate_length (this : LabelPlacer) (pt : Point) (r n i : nat) :
  (List.length (expandingCandidate this pt r n i) <= 1)%nat.
Proof.
  unfold expandingCandidate; cbv zeta.
  match goal with |- context [if ge ?a ?b then _ else _] => destruct (ge a b) end;
    cbn; lia.
Qed.

Lemma expandingRing_length (this : LabelPlacer) (pt : Point) (r : nat) :
  (List.length (expandingRing this pt r)
   <= Nat.max 8 (anglesPerRing (options this) / (r + 1)))%nat.
Proof.
  unfold expandingRing.
  etransitivity;
    [apply (flat_map_length_le _ (fun _ => 1%nat));
     intros; apply expandingCandidate_length | ].
  rewrite list_sum_const, length_seq; lia.
Qed.

(** X6: the number of candidates generated for a point lies between
    2 * rings * anglesPerRing, the candidates of the fallback and half-step
    rings, which are never discarded, and that number plus the 64 primary
    angles and the max(8, floor(anglesPerRing / (r + 1))) angles of each
    expanding ring r = 1 .. rings - 1. *)
Theorem candidate_count_bounds (this : LabelPlacer) (pt : Point) :
  let rings := rings (options this) in
  let anglesPerRing := anglesPerRing (options this) in
  (2 * rings * anglesPerRing <= List.length (generateCandidates this pt))%nat /\
  (List.length (generateCandidates this pt)
   <= 64
      + list_sum (map (fun r => Nat.max 8 (anglesPerRing / (r + 1)))
                      (seq 1 (rings - 1)))
      + 2 * rings * anglesPerRing)%nat.
Proof.
  cbv zeta; unfold generateCandidates; rewrite !length_app.
  rewrite (flat_map_length_const
             (fun ring => map (fallbackCandidate this pt ring)
                              (seq 0 (anglesPerRing (options this))))
             (anglesPerRing (options this)))
    by (intros; now rewrite length_map, length_seq).
  rewrite (flat_map_length_const
             (fun ring => map (halfStepCandidate this pt ring)
                              (seq 0 (anglesPerRing (options this))))
             (anglesPerRing (options this)))
    by (intros; now rewrite length_map, length_seq).
  rewrite length_seq.
  assert (H1 : (List.length (flat_map (primaryCandidate this pt) (seq 0 64)) <= 64)%nat).
  { etransitivity;
      [apply (flat_map_length_le _ (fun _ => 1%nat));
       intros; apply primaryCandidate_length | ].
    rewrite list_sum_const, length_seq; lia. }
  assert (H2 : (List.length (flat_map (expandingRing this pt)
                               (seq 1 (rings (options this) - 1)))
                <= list_sum (map (fun r => Nat.max 8 (anglesPerRing (options this) / (r + 1)))
                                 (seq 1 (rings (options this) - 1))))%nat).
  { apply flat_map_length_le; intros; apply expandingRing_length. }
  lia.
Qed.

(** ** Clamped candidates and the bounds of the chart *)

Section Clamped.
Variables (this : LabelPlacer) (px py w hh : R) (t : string)
  (ap : option (list ObjId)).
Variables (W H : R).
Hypothesis HW : chartSize this = mkChartSize (Fin W) (Fin H).

Let pt := mkPoint (Fin px) (Fin py) t (Fin w) (Fin hh) ap.

Lemma primaryCandidate_clamped (i : nat) (c : Candidate) :
  In c (primaryCandidate this pt i) ->
  exists a b,
    c = mkCandidate (Fin (Rmax 1 (Rmin a (W - 1 - w))))
                    (Fin (Rmax 1 (Rmin b (H - 1 - hh)))) (Fin 0) (Fin 0).
Proof.
  unfold primaryCandidate; rewrite HW.
  cbn [chartWidth chartHeight x y width height pt]; num.
  repeat match goal with |- context [Rltb ?a ?b] => destruct (Rltb a b) end;
    cbv beta iota zeta; num;
    (match goal with |- context [if ?b then _ else _] => destruct b end;
     [intros [<- | []] | intros []]);
    (eexists; eexists; reflexivity).
Qed.

Lemma expandingCandidate_clamped (r n i : nat) (c : Candidate) :
  (0 < n)%nat ->
  In c (expandingCandidate this pt r n i) ->
  exists a b,
    c = mkCandidate (Fin (Rmax 1 (Rmin a (W - 1 - w))))
                    (Fin (Rmax 1 (Rmin b (H - 1 - hh)))) (Fin 0) (Fin 0).
Proof.
  intros Hn; unfold expandingCandidate; rewrite HW.
  cbn [chartWidth chartHeight x y width height pt]; num.
  match goal with |- context [if ?b then _ else _] => destruct b end;
     [intros [<- | []] | intros []].
  eexists; eexists; reflexivity.
Qed.

Lemma clamped_out_of_bounds (a b : R) :
  isOutOfBounds this
    (mkRect (Fin (Rmax 1 (Rmin a (W - 1 - w)))) (Fin (Rmax 1 (Rmin b (H - 1 - hh))))
            (Fin w) (Fin hh))
  = negb (Rleb (w + 2) W && Rleb (hh + 2) H).
Proof.
  unfold isOutOfBounds; rewrite HW.
  cbn [rect_x rect_y rect_width rect_height chartWidth chartHeight]; num.
  rewrite (Rltb_false (Rmax 1 (Rmin a (W - 1 - w))) 1) by apply Rmax_l.
  rewrite (Rltb_false (Rmax 1 (Rmin b (H - 1 - hh))) 1) by apply Rmax_l.
  cbn [orb].
  assert (Hclamp : forall u v M,
             Rltb (M - 1) (Rmax 1 (Rmin u (M - 1 - v)) + v) = negb (Rleb (v + 2) M)).
  { intros u v M.
    destruct (Rle_dec (v + 2) M) as [Hfit | Hfit].
    - rewrite (Rleb_true _ _ Hfit); cbn [negb]; apply Rltb_false.
      assert (Rmax 1 (Rmin u (M - 1 - v)) <= M - 1 - v); [ | lra].
      apply Rmax_lub; [lra | apply Rmin_r].
    - rewrite (Rleb_false (v + 2) M) by lra; cbn [negb]; apply Rltb_true.
      rewrite Rmax_left; [lra | ].
      etransitivity; [apply Rmin_r | lra]. }
  rewrite !Hclamp.
  now destruct (Rleb (w + 2) W), (Rleb (hh + 2) H).
Qed.

End Clamped.

Lemma example_primary_east :
  primaryCandidate exampleEngine examplePoint 0
  = [mkCandidate (Fin 57) (Fin 54) (Fin 0) (Fin 0)].
Proof.
  unfold primaryCandidate, distanceToPoint.
  cbn [exampleEngine newLabelPlacer chartSize exampleSize chartWidth chartHeight
       examplePoint x y width height].
  num; change (INR 0) with 0; rewrite Rmult_0_l.
  rewrite cos_0, sin_0, Rabs_R1, Rabs_R0.
  rewrite (Rltb_true 0 1) by lra; cbv beta iota zeta; num.
  replace (Rmax 1 (Rmin (50 + (6 + 1)) (400 - 1 - 40))) with 57
    by (rewrite Rmin_left, Rmax_right; lra).
  replace (Rmax 1 (Rmin (60 + (0 * (6 + 1) - 12 / 2)) (300 - 1 - 12))) with 54
    by (rewrite Rmin_left, Rmax_right; lra).
  rewrite Rleb_true; [reflexivity | ].
  apply sqrt_ge_7; lra.
Qed.

(** ** The debug information of a pass *)

Lemma placeLabelForPoint_info (this : LabelPlacer) (h : Heap) (ptr : PointRef)
  (label : LabelBox) (info : DebugInfo) :
  placeLabelForPoint this h ptr = Ok (Some (label, info)) ->
  forPoint label = ptr /\
  info = {| dpoint := ptr;
            dcandidates := map (scoreCandidate this h ptr)
                               (generateCandidates this (deref h ptr));
            selectedCandidateIndex := Some 0%nat;
            dplacedLabels := map (fun l => (lx l, ly l, ltext l))
                                 (placedLabels this) |}.
Proof.
  unfold placeLabelForPoint.
  destruct (sort byScoreDescending (scoredCandidates this h ptr)) as [ | chosen rest];
    [discriminate | ].
  destruct (le (score chosen) (Fin (-100000))); [discriminate | ].
  intros E; inversion E; subst; split; reflexivity.
Qed.

Lemma DebugTracks_snoc (this : LabelPlacer) (h : Heap) (labels : list LabelBox) :
  forall (before : list LabelBox) (infos : list DebugInfo)
         (label : LabelBox) (info : DebugInfo),
    DebugTracks this h before labels infos ->
    DebugEntryOf this h (before ++ labels) label info ->
    DebugTracks this h before (labels ++ [label]) (infos ++ [info]).
Proof.
  induction labels as [ | l labels IH]; intros before [ | i infos] label info;
    cbn [DebugTracks app]; try tauto.
  - rewrite app_nil_r; tauto.
  - intros [Hl Hrest] Hnew; split; [exact Hl | ].
    apply IH; [exact Hrest | ].
    now rewrite <- app_assoc.
Qed.

Lemma placeGroups_debug (this0 : LabelPlacer) (h : Heap)
  (groups : list (list ObjId)) (this this' : LabelPlacer) :
  SameConfig this this0 ->
  DebugTracks this0 h [] (placedLabels this) (debugInfo this) ->
  placeGroups this h groups = Ok this' ->
  DebugTracks this0 h [] (placedLabels this') (debugInfo this').
Proof.
  intros Hcfg Hinv E.
  apply (placeGroups_invariant
           (fun t => SameConfig t this0 /\
                     DebugTracks this0 h [] (placedLabels t) (debugInfo t))
           h groups) with (this := this); [ | now split | exact E].
  clear this this' Hcfg Hinv E.
  intros this g this' [Hcfg Hinv] _ E.
  split; [eapply SameConfig_trans; [eapply placeGroup_config; eauto | exact Hcfg] | ].
  apply placeGroup_Ok in E as (ptr & Eptr & [[_ ->] | (label & info & E & ->)]);
    [exact Hinv | ].
  apply placeLabelForPoint_info in E as (Efor & ->).
  cbn [commit placedLabels debugInfo].
  apply DebugTracks_snoc; [exact Hinv | ].
  repeat split; cbn [dpoint selectedCandidateIndex dplacedLabels dcandidates app];
    [now rewrite Efor | ].
  rewrite length_map, Efor.
  now rewrite (generateCandidates_config this this0 _ Hcfg).
Qed.

(** X8: after a pass the debug information holds one entry per returned
    label, in the order of the labels and none for a group that was
    dropped: the entry of a label names the point of the label, lists as
    many candidates as were generated for that point, records the index 0
    as the selected one, and lists the position and the text of the labels
    returned before it. *)
Theorem debug_info_tracks_labels (this this' : LabelPlacer) (h : Heap)
  (points : list ObjId) (labels : list LabelBox) :
  placeAll this h points = Ok (labels, this') ->
  DebugTracks this h [] labels (getDebugInfo this').
Proof.
  unfold placeAll; intros E.
  destruct (placeGroups (reset this) h (sortedGroups h points)) as [t | ] eqn:Eg;
    [ | discriminate].
  inversion E; subst; unfold getDebugInfo.
  apply (placeGroups_debug this h (sortedGroups h points) (reset this) this');
    [apply reset_config | exact I | exact Eg].
Qed.

Lemma debug_info_tracks_labels_witness :
  exists labels this',
    placeAll exampleEngine exampleHeap [0%nat] = Ok (labels, this') /\
    DebugTracks exampleEngine exampleHeap [] labels (getDebugInfo this').
Proof.
  destruct (placeAll_total exampleEngine exampleHeap [0%nat]) as (labels & E);
    [cbn; lia | cbn; lia | ].
  unfold placed in E.
  destruct (placeAll exampleEngine exampleHeap [0%nat]) as [[labels' this'] | ] eqn:Ea;
    [ | discriminate].
  exists labels', this'; split; [reflexivity | ].
  exact (debug_info_tracks_labels _ _ _ _ _ Ea).
Defined.

Lemma clearDebugInfo_placeAll (this : LabelPlacer) (h : Heap) (points : list ObjId) :
  placeAll (clearDebugInfo this) h points = placeAll this h points /\
  getDebugInfo (clearDebugInfo this) = [] /\
  placedLabels (clearDebugInfo this) = placedLabels this.
Proof. repeat split. Qed.

(** ** The scores of the candidates *)



(** ** The distance between two labels *)






(** ** A point with room around it *)



(* ================================================================== *)
(** * Further properties of the plug-in *)

(** ** The text of a label *)

Lemma span_run (f : ascii -> bool) (run rest : string) :
  Forall (fun c => f c = true) (list_ascii_of_string run) ->
  match rest with
  | EmptyString => True
  | String c _ => f c = false
  end ->
  span f (run ++ rest)%string = (run, rest).
Proof.
  intros Hrun Hrest; induction run as [ | c run IH]; cbn [append span].
  - destruct rest as [ | c r]; [reflexivity | ].
    cbn [span]; now rewrite Hrest.
  - cbn [list_ascii_of_string] in Hrun; inversion Hrun as [ | ? ? Hc Hrun']; subst.
    rewrite Hc, IH by assumption; reflexivity.
Qed.

Lemma coordMatch_skip (before s : string) :
  Forall (fun c => c <> "("%char) (list_ascii_of_string before) ->
  coordMatch (before ++ s)%string = coordMatch s.
Proof.
  intros Hb; induction before as [ | c before IH]; [reflexivity | ].
  cbn [list_ascii_of_string] in Hb; inversion Hb as [ | ? ? Hc Hb']; subst.
  cbn [append coordMatch matchCoordAt].
  apply Ascii.eqb_neq in Hc; rewrite Hc; cbn [negb].
  now apply IH.
Qed.

Lemma matchCoordAt_coordinates (xs zs : string) :
  Forall (fun c => isCoordChar c = true) (list_ascii_of_string xs) ->
  Forall (fun c => isCoordChar c = true) (list_ascii_of_string zs) ->
  xs <> "" -> zs <> "" ->
  matchCoordAt ("(" ++ xs ++ ", " ++ zs ++ ")")%string
  = Some ("(" ++ xs ++ ", " ++ zs ++ ")")%string.
Proof.
  intros Hxs Hzs Hx0 Hz0.
  apply String.eqb_neq in Hx0, Hz0.
  cbn [append matchCoordAt Ascii.eqb Bool.eqb negb].
  rewrite (span_run isCoordChar xs (String "," (String " " (zs ++ ")"))))
    by (exact Hxs || reflexivity).
  rewrite Hx0.
  change (span isWhiteSpace (String "," (String " " (zs ++ ")"))))
    with (EmptyString, String "," (String " " (zs ++ ")"))).
  cbn [Ascii.eqb Bool.eqb negb].
  assert (Ez : span isCoordChar (zs ++ ")")%string = (zs, ")"))
    by (apply span_run; [exact Hzs | reflexivity]).
  assert (Es : span isWhiteSpace (String " " (zs ++ ")"))
               = (" ", (zs ++ ")")%string)).
  { change (String " " (zs ++ ")")) with (" " ++ (zs ++ ")"))%string.
    apply span_run; [repeat constructor | ].
    destruct zs as [ | c zs']; [discriminate | ].
    inversion Hzs as [ | ? ? Hc _]; subst.
    cbn [append]; revert Hc; unfold isCoordChar, isWhiteSpace.
    destruct (nat_of_ascii c) as [ | n]; [reflexivity | ].
    do 57 (destruct n as [ | n]; [intros; (reflexivity || discriminate) | ]).
    cbn; discriminate. }
  rewrite Es, Ez, Hz0; cbn [Ascii.eqb Bool.eqb negb concat append].
  reflexivity.
Qed.

(** X13: a label in the format of the data points, the name of the series
    followed by the coordinates in parentheses, as in [Red (12, -7.5)], is
    cut down to its coordinates: when the name holds no opening
    parenthesis and the two coordinates are not empty and made of digits,
    dots and minus signs, cleanLabel returns the parenthesis with the
    coordinates. *)
Theorem cleanLabel_keeps_the_coordinates (series xs zs : string) :
  Forall (fun c => c <> "("%char) (list_ascii_of_string series) ->
  Forall (fun c => isCoordChar c = true) (list_ascii_of_string xs) ->
  Forall (fun c => isCoordChar c = true) (list_ascii_of_string zs) ->
  xs <> "" -> zs <> "" ->
  cleanLabel (series ++ " (" ++ xs ++ ", " ++ zs ++ ")")%string
  = ("(" ++ xs ++ ", " ++ zs ++ ")")%string.
Proof.
  intros Hseries Hxs Hzs Hx0 Hz0; unfold cleanLabel.
  change (series ++ " (" ++ xs ++ ", " ++ zs ++ ")")%string
    with (series ++ String " " ("(" ++ xs ++ ", " ++ zs ++ ")"))%string.
  rewrite (coordMatch_skip series) by exact Hseries.
  change (coordMatch (String " " ("(" ++ xs ++ ", " ++ zs ++ ")")))
    with (coordMatch ("(" ++ xs ++ ", " ++ zs ++ ")")%string).
  assert (E : coordMatch ("(" ++ xs ++ ", " ++ zs ++ ")")%string
              = Some ("(" ++ xs ++ ", " ++ zs ++ ")")%string).
  { pose proof (matchCoordAt_coordinates xs zs Hxs Hzs Hx0 Hz0) as Em.
    change ("(" ++ xs ++ ", " ++ zs ++ ")")%string
      with (String "(" (xs ++ ", " ++ zs ++ ")")) in *.
    cbn [coordMatch]; now rewrite Em. }
  now rewrite E.
Qed.

Lemma cleanLabel_keeps_the_coordinates_witness :
  cleanLabel "Red (12, -7.5)" = "(12, -7.5)".
Proof.
  apply (cleanLabel_keeps_the_coordinates "Red" "12" "-7.5");
    try discriminate; repeat constructor; discriminate.
Defined.

(** ** The pass of the plug-in *)

Lemma pluginPlacer_options (chartArea : ChartArea) :
  options (pluginPlacer chartArea)
  = mkOptions (Fin 10) 5 32 (Fin 0) (Fin 100000) (Fin 500) (Fin 0) (Fin 0) true.
Proof. reflexivity. Qed.

(** X14: the pass of the plug-in never raises: whatever the chart area, the
    scales, the text metrics and the datasets, an enabled plug-in gets the
    label boxes from the engine and the catch clause is not entered (the
    engine is built with 5 rings and 32 angles, so every point has
    candidates). *)
Theorem plugin_pass_never_raises (ctx_measureText : string -> string -> number)
  (xScale yScale : number -> number) (enabled : option bool)
  (chartArea : ChartArea) (datasets : list Dataset) :
  enabled <> Some false ->
  exists labelBoxes,
    afterDraw ctx_measureText xScale yScale enabled chartArea datasets
    = Drawn labelBoxes.
Proof.
  intros Hen; unfold afterDraw.
  set (points := preparePoints ctx_measureText xScale yScale datasets).
  destruct (placeAll_total (pluginPlacer chartArea) (attachAllPoints points)
              (seq 0 (List.length points))) as (labels & E);
    [rewrite pluginPlacer_options; cbn; lia
    | rewrite pluginPlacer_options; cbn; lia | ].
  exists labels; rewrite E.
  destruct enabled as [[ | ] | ]; [reflexivity | congruence | reflexivity].
Qed.

Lemma plugin_pass_never_raises_witness :
  exists labelBoxes,
    afterDraw (fun _ _ => Fin 40) (fun v => v) (fun v => v) None
      (mkChartArea (Fin 0) (Fin 0) (Fin 400) (Fin 300))
      [mkDataset [mkDataItem (Some "Red (50, 60)") (Fin 50) (Fin 60) None] None]
    = Drawn labelBoxes.
Proof.
  apply (plugin_pass_never_raises (fun _ _ => Fin 40) (fun v => v) (fun v => v) None).
  discriminate.
Defined.





(* ================================================================== *)
(** * Further properties of the scoring *)

(** ** The two tests of the exclusion zone *)




(** ** The options that are not read *)

Lemma placeGroup_readOptions (this : LabelPlacer) (h : Heap) (g : list ObjId) :
  placeGroup (readOptions this) h g
  = match placeGroup this h g with
    | Ok this' => Ok (readOptions this')
    | TypeError => TypeError
    end.
Proof.
  unfold placeGroup.
  destruct (groupPoint h g) as [ptr | ]; [ | reflexivity].
  change (placeLabelForPoint (readOptions this) h ptr)
    with (placeLabelForPoint this h ptr).
  destruct (placeLabelForPoint this h ptr) as [[[label info] | ] | ]; reflexivity.
Qed.

Lemma placeGroups_readOptions (h : Heap) (groups : list (list ObjId)) :
  forall this,
    placeGroups (readOptions this) h groups
    = match placeGroups this h groups with
      | Ok this' => Ok (readOptions this')
      | TypeError => TypeError
      end.
Proof.
  induction groups as [ | g rest IH]; intros this; cbn [placeGroups];
    [reflexivity | ].
  rewrite placeGroup_readOptions.
  destruct (placeGroup this h g) as [this' | ]; [apply IH | reflexivity].
Qed.

(** X17: the labels that a pass returns do not depend on the options
    padding, overlapPenalty, idealAngleBonus and debug: two engines with
    the same chart size that agree on radius, rings, anglesPerRing,
    pointPenalty and outOfBoundsPenalty return the same labels (the penalty
    for an overlap is the constant 100000, the padding the constant 2). *)
Theorem unread_options_do_not_matter (a b : LabelPlacer) (h : Heap)
  (points : list ObjId) :
  chartSize a = chartSize b ->
  radius (options a) = radius (options b) ->
  rings (options a) = rings (options b) ->
  anglesPerRing (options a) = anglesPerRing (options b) ->
  pointPenalty (options a) = pointPenalty (options b) ->
  outOfBoundsPenalty (options a) = outOfBoundsPenalty (options b) ->
  placed a h points = placed b h points.
Proof.
  intros Esize Erad Erings Eangles Epp Eob.
  assert (Eview : readOptions (reset a) = readOptions (reset b)).
  { unfold readOptions, reset; cbn [tree placedLabels options debugInfo chartSize].
    now rewrite Esize, Erad, Erings, Eangles, Epp, Eob. }
  pose proof (placeGroups_readOptions h (sortedGroups h points) (reset a)) as Ha.
  pose proof (placeGroups_readOptions h (sortedGroups h points) (reset b)) as Hb.
  rewrite Eview in Ha; rewrite Ha in Hb; clear Ha.
  unfold placed, placeAll.
  destruct (placeGroups (reset a) h (sortedGroups h points)) as [a' | ];
    destruct (placeGroups (reset b) h (sortedGroups h points)) as [b' | ];
    try discriminate; [ | reflexivity].
  change (placedLabels a') with (placedLabels (readOptions a')).
  change (placedLabels b') with (placedLabels (readOptions b')).
  congruence.
Qed.

Lemma unread_options_do_not_matter_witness :
  placed exampleEngine exampleHeap [0%nat]
  = placed (newLabelPlacer exampleSize
              (mkPartialOptions None None None (Some (Fin 0)) (Some (Fin 100000))
                 None None (Some (Fin 1)) (Some true)))
      exampleHeap [0%nat].
Proof.
  apply (unread_options_do_not_matter exampleEngine); reflexivity.
Defined.

(** ** The price of a placed label *)



(* ================================================================== *)
(** * Properties of the border alignment *)

Lemma patchScale_aligned (scale : Scale) (edgePx : number) :
  _edgeAligned (patchScale scale edgePx) = true.
Proof.
  unfold patchScale.
  destruct (_edgeAligned scale) eqn:E; [exact E | ].
  cbv zeta; now destruct (lt _ _).
Qed.

(** X19: a scale is patched once: after a first call, patchScale leaves the
    scale as it is, also when it is called with another edge; so an update
    of a chart that was updated before changes nothing, even if the chart
    area has moved meanwhile. *)
Theorem scale_is_patched_once (chart : ScatterChart) (moved : ChartArea) :
  (forall scale edgePx edgePx',
     patchScale (patchScale scale edgePx) edgePx' = patchScale scale edgePx) /\
  afterUpdate {| chartArea := moved;
                 scales_x := scales_x (afterUpdate chart);
                 scales_y := scales_y (afterUpdate chart) |}
  = {| chartArea := moved;
       scales_x := scales_x (afterUpdate chart);
       scales_y := scales_y (afterUpdate chart) |}.
Proof.
  assert (Honce : forall scale edgePx edgePx',
             patchScale (patchScale scale edgePx) edgePx' = patchScale scale edgePx).
  { intros scale edgePx edgePx'.
    unfold patchScale at 1; now rewrite patchScale_aligned. }
  split; [exact Honce | ].
  unfold afterUpdate; cbn [chartArea scales_x scales_y].
  destruct (scales_x chart), (scales_y chart); now rewrite ?Honce.
Qed.

(** X20: in exact arithmetic, patching a scale that is not yet aligned
    shifts every pixel by one and the same amount and brings the pixel of
    the minimum to within half a pixel of the edge: when the pixel of the
    minimum and the edge are finite, the patched scale maps the minimum to
    a pixel less than 0.5 away from the edge (to the edge itself when a
    shift was needed), and any two values whose pixels are finite keep
    their distance in pixels.  (The subtractions of binary64 round, so the
    program reaches the edge and keeps the distances up to that rounding
    only.) *)
Theorem patched_scale_is_aligned (scale : Scale) (current edge : R) :
  _edgeAligned scale = false ->
  getPixelForValue scale (scale_min scale) = Fin current ->
  let patched := patchScale scale (Fin edge) in
  (exists p, getPixelForValue patched (scale_min patched) = Fin p /\
             Rabs (p - edge) < 0.5 /\
             (0.5 <= Rabs (current - edge) -> p = edge)) /\
  (forall v w pv pw,
     getPixelForValue scale v = Fin pv -> getPixelForValue scale w = Fin pw ->
     sub (getPixelForValue patched v) (getPixelForValue patched w) = Fin (pv - pw)).
Proof.
  intros Hflag Hcur patched; unfold patched, patchScale.
  rewrite Hflag, Hcur; cbv zeta; num; unfold Rltb.
  destruct (Rlt_dec (Rabs (current - edge)) 0.5) as [Hnear | Hfar];
    cbn [getPixelForValue scale_min]; split.
  - exists current; rewrite Hcur; repeat split; [exact Hnear | lra].
  - intros v w pv pw -> ->; reflexivity.
  - exists edge; rewrite Hcur; num; split; [apply (f_equal Fin); lra | ].
    split; [ | reflexivity].
    replace (edge - edge) with 0 by lra; rewrite Rabs_R0; lra.
  - intros v w pv pw -> ->; num; apply (f_equal Fin); lra.
Qed.

Lemma patched_scale_is_aligned_witness :
  let patched := patchScale (mkScale false (Fin 0) (fun v => add v (Fin 3))) (Fin 1) in
  (exists p, getPixelForValue patched (scale_min patched) = Fin p /\
             Rabs (p - 1) < 0.5 /\
             (0.5 <= Rabs (0 + 3 - 1) -> p = 1)) /\
  (forall v w pv pw,
     add v (Fin 3) = Fin pv -> add w (Fin 3) = Fin pw ->
     sub (getPixelForValue patched v) (getPixelForValue patched w) = Fin (pv - pw)).
Proof.
  apply (patched_scale_is_aligned (mkScale false (Fin 0) (fun v => add v (Fin 3)))
           (0 + 3) 1); reflexivity.
Defined.

(** X21: a scale whose minimum has no pixel is spoilt for good: when the
    pixel of the minimum less the edge is NaN (the pixel or the edge is NaN,
    or both are the same infinity), patchScale replaces getPixelForValue by
    a function that returns NaN for every value, and marks the scale as
    aligned, so that no later call repairs it. *)
Theorem patch_without_pixel_spoils_scale (scale : Scale) (edgePx : number) :
  _edgeAligned scale = false ->
  isNaN (sub (getPixelForValue scale (scale_min scale)) edgePx) = true ->
  (forall value, getPixelForValue (patchScale scale edgePx) value = NaN) /\
  (forall edgePx' value,
     getPixelForValue (patchScale (patchScale scale edgePx) edgePx') value = NaN).
Proof.
  intros Hflag Hnan.
  assert (Hall : forall value, getPixelForValue (patchScale scale edgePx) value = NaN).
  { intros value; unfold patchScale; rewrite Hflag; cbv zeta.
    destruct (sub (getPixelForValue scale (scale_min scale)) edgePx);
      try discriminate.
    cbn [Math_abs lt getPixelForValue].
    now destruct (getPixelForValue scale value). }
  split; [exact Hall | ].
  intros edgePx' value; unfold patchScale at 1.
  rewrite patchScale_aligned; apply Hall.
Qed.

Lemma patch_without_pixel_spoils_scale_witness :
  (forall value,
     getPixelForValue (patchScale (mkScale false NaN (fun v => v)) (Fin 0)) value = NaN) /\
  (forall edgePx' value,
     getPixelForValue
       (patchScale (patchScale (mkScale false NaN (fun v => v)) (Fin 0)) edgePx') value
     = NaN).
Proof.
  apply (patch_without_pixel_spoils_scale (mkScale false NaN (fun v => v)) (Fin 0));
    reflexivity.
Defined.

(* ================================================================== *)
(** * A point without a position *)

Lemma generateCandidates_NaN (this : LabelPlacer) (pt : Point) (c : Candidate) :
  x pt = NaN -> In c (generateCandidates this pt) -> cx c = NaN.
Proof.
  intros Hx Hc; apply generateCandidates_In in Hc
    as [(i & Hc) | [(r & n & i & _ & Hc) | [(ring & i & _ & _ & ->) | (ring & i & _ & _ & ->)]]].
  - revert Hc; unfold primaryCandidate; rewrite Hx.
    destruct (gt _ _); cbv zeta; cbn [add Math_min Math_max fold_left min2 max2];
      (match goal with |- context [if ?b then _ else _] => destruct b end;
       [intros [<- | []]; reflexivity | intros []]).
  - revert Hc; unfold expandingCandidate; rewrite Hx; cbv zeta.
    cbn [add Math_min Math_max fold_left min2 max2].
    match goal with |- context [if ?b then _ else _] => destruct b end;
      [intros [<- | []]; reflexivity | intros []].
  - unfold fallbackCandidate; rewrite Hx; reflexivity.
  - unfold halfStepCandidate; rewrite Hx; reflexivity.
Qed.

Lemma scoreOf_NaN (this : LabelPlacer) (h : Heap) (ptr : PointRef) (c : Candidate) :
  cx c = NaN -> scoreOf this h ptr c = NaN.
Proof.
  intros Hx; unfold scoreOf; cbv zeta.
  assert (Ecb : centerBonus this (deref h ptr) c = NaN)
    by (unfold centerBonus, labelCenterX; rewrite Hx; reflexivity).
  rewrite Ecb, add_NaN_r.
  destruct (isOutOfBounds this _); rewrite ?sub_NaN_l; reflexivity.
Qed.

(** X22: a point whose x is NaN is never dropped: with at least one ring and
    one angle, whatever has been placed before, placeLabelForPoint returns
    a label for it, and that label has the x NaN.  Every candidate of such
    a point has the score NaN, which is not -100000 or less. *)
Theorem point_without_x_is_labelled (this : LabelPlacer) (h : Heap)
  (ptr : PointRef) :
  x (deref h ptr) = NaN ->
  (1 <= rings (options this))%nat ->
  (1 <= anglesPerRing (options this))%nat ->
  exists label info,
    placeLabelForPoint this h ptr = Ok (Some (label, info)) /\
    lx label = NaN /\ forPoint label = ptr.
Proof.
  intros Hx Hrings Hangles.
  pose proof (generateCandidates_nonempty this (deref h ptr) Hrings Hangles) as Hne.
  unfold placeLabelForPoint.
  destruct (sort byScoreDescending (scoredCandidates this h ptr))
    as [ | chosen rest] eqn:Es.
  { apply sort_nil_inv in Es; unfold scoredCandidates in Es.
    apply map_eq_nil in Es; apply map_eq_nil in Es; contradiction. }
  assert (Hin : In chosen (scoredCandidates this h ptr))
    by (apply (sort_In byScoreDescending); rewrite Es; now left).
  apply scoredCandidates_In in Hin as (c & Hc & ->).
  pose proof (generateCandidates_NaN this (deref h ptr) c Hx Hc) as Hcx.
  destruct (applyBoundaryPenalty_cx (deref h ptr) (scoreCandidate this h ptr c))
    as (Ex & _ & _).
  assert (Escore : score (applyBoundaryPenalty (deref h ptr)
                            (scoreCandidate this h ptr c)) = NaN).
  { unfold applyBoundaryPenalty.
    destruct (_ || _); cbn [score scoreCandidate];
      rewrite (scoreOf_NaN this h ptr c Hcx); reflexivity. }
  rewrite Escore; cbn [le].
  eexists; eexists; split; [reflexivity | ].
  cbn [lx forPoint]; rewrite Ex; cbn [scoreCandidate cx]; now split.
Qed.

Lemma point_without_x_is_labelled_witness :
  exists label info,
    placeLabelForPoint exampleEngine
      (fun _ => mkPoint NaN (Fin 60) "A" (Fin 40) (Fin 12) None) (Existing 0%nat)
    = Ok (Some (label, info)) /\
    lx label = NaN /\ forPoint label = Existing 0%nat.
Proof.
  apply (point_without_x_is_labelled exampleEngine
           (fun _ => mkPoint NaN (Fin 60) "A" (Fin 40) (Fin 12) None) (Existing 0%nat));
    [reflexivity | cbn; lia | cbn; lia].
Defined.

(* ================================================================== *)
(** * Properties of the chart data *)

(** ** Rotation and scaling *)


(** X23: rotatePoint turns a point about the origin: for finite
    coordinates and angles it keeps the distance of the point from the
    origin, and rotating by one angle and then by another gives the same
    point as rotating once by the sum of the two. *)
Theorem rotatePoint_is_a_rotation (x z a b : R) :
  let once := rotatePoint (Fin x) (Fin z) (Fin a) in
  (exists x' z',
     once = mkRotated (Fin x') (Fin z') /\ x' * x' + z' * z' = x * x + z * z) /\
  rotatePoint (rotated_x once) (rotated_z once) (Fin b)
  = rotatePoint (Fin x) (Fin z) (Fin (a + b)).
Proof.
  cbv zeta; unfold rotatePoint; num; cbn [rotated_x rotated_z]; num.
  set (ra := a * PI / 180); set (rb := b * PI / 180).
  replace ((a + b) * PI / 180) with (ra + rb) by (unfold ra, rb; lra).
  split.
  - eexists; eexists; split; [reflexivity | ].
    pose proof (sin2_cos2 ra) as Hsc; unfold Rsqr in Hsc; nra.
  - rewrite cos_plus, sin_plus.
    apply (f_equal2 mkRotated); apply (f_equal Fin); ring.
Qed.



(** ** One point per coordinate *)

Lemma SeriesType_eqb_eq (a b : SeriesType) : SeriesType_eqb a b = true <-> a = b.
Proof. destruct a, b; cbn; split; congruence. Qed.

Lemma SeriesType_eqb_refl (a : SeriesType) : SeriesType_eqb a a = true.
Proof. now destruct a. Qed.

Lemma seriesMap_get_new (series s : SeriesType) (seriesMap : SeriesMap) :
  seriesMap_get series (seriesMap ++ [(s, [])]) = seriesMap_get series seriesMap.
Proof.
  induction seriesMap as [ | [s' arr] rest IH]; cbn [app seriesMap_get].
  - now destruct (SeriesType_eqb s series).
  - now destruct (SeriesType_eqb s' series).
Qed.

Lemma seriesMap_has_new (s : SeriesType) (seriesMap : SeriesMap) :
  seriesMap_has s (seriesMap ++ [(s, [])]) = true.
Proof.
  unfold seriesMap_has; rewrite existsb_app; cbn [existsb fst].
  now rewrite SeriesType_eqb_refl, orb_true_r.
Qed.

Lemma seriesMap_get_push (series s : SeriesType) (point : DataPoint)
  (seriesMap : SeriesMap) :
  seriesMap_has s seriesMap = true ->
  seriesMap_get series (seriesMap_push s point seriesMap)
  = if SeriesType_eqb s series
    then seriesMap_get series seriesMap ++ [point]
    else seriesMap_get series seriesMap.
Proof.
  unfold seriesMap_has.
  induction seriesMap as [ | [s' arr] rest IH]; cbn [existsb fst]; [discriminate | ].
  cbn [seriesMap_push].
  destruct (SeriesType_eqb s' s) eqn:E1; cbn [orb seriesMap_get].
  - intros _; apply SeriesType_eqb_eq in E1; subst s'.
    now destruct (SeriesType_eqb s series).
  - intros Hhas.
    destruct (SeriesType_eqb s' series) eqn:E2; [ | now apply IH].
    destruct (SeriesType_eqb s series) eqn:E3; [ | reflexivity].
    apply SeriesType_eqb_eq in E2, E3; subst.
    now rewrite SeriesType_eqb_refl in E1.
Qed.

Lemma firstOfCoords_snoc (data : list DataPoint) :
  forall (earlier : list DataPoint) (point : DataPoint),
    firstOfCoords earlier (data ++ [point])
    = firstOfCoords earlier data
      ++ (if existsb (fun q => key_eqb (coordKey point) (coordKey q)) (earlier ++ data)
          then [] else [point]).
Proof.
  induction data as [ | p rest IH]; intros earlier point; cbn [app firstOfCoords].
  - now rewrite !app_nil_r.
  - rewrite IH, <- !app_assoc; reflexivity.
Qed.

(** The state of the loop after the points [done]. *)
Lemma addDataPoint_invariant (visibleSeries : SeriesType -> bool) (rotation : number)
  (imageWidth imageHeight : option number) (data : list DataPoint) :
  forall (done : list DataPoint) (seenCoords : list Key) (seriesMap : SeriesMap),
    (forall k, existsb (key_eqb k) seenCoords
               = existsb (fun q => key_eqb k (coordKey q)) done) ->
    (forall series,
       seriesMap_get series seriesMap
       = if visibleSeries series
         then map (scaledPoint rotation imageWidth imageHeight)
                  (filter (fun p => SeriesType_eqb (dp_series p) series)
                          (firstOfCoords [] done))
         else []) ->
    forall series,
      seriesMap_get series
        (snd (fold_left (addDataPoint visibleSeries rotation imageWidth imageHeight)
                data (seenCoords, seriesMap)))
      = if visibleSeries series
        then map (scaledPoint rotation imageWidth imageHeight)
                 (filter (fun p => SeriesType_eqb (dp_series p) series)
                         (firstOfCoords [] (done ++ data)))
        else [].
Proof.
  induction data as [ | point rest IH]; intros done seenCoords seriesMap Hseen Hmap.
  - cbn [fold_left snd]; now rewrite app_nil_r.
  - cbn [fold_left].
    replace (done ++ point :: rest) with ((done ++ [point]) ++ rest)
      by (now rewrite <- app_assoc).
    assert (Hseen' : forall seen',
               (forall k, existsb (key_eqb k) seen'
                          = existsb (key_eqb k) seenCoords
                            || key_eqb k (coordKey point)) ->
               forall k, existsb (key_eqb k) seen'
                         = existsb (fun q => key_eqb k (coordKey q)) (done ++ [point])).
    { intros seen' Hs k; rewrite Hs, existsb_app, Hseen; cbn [existsb].
      now rewrite orb_false_r. }
    unfold addDataPoint at 2.
    destruct (existsb (key_eqb (coordKey point)) seenCoords) eqn:Edup.
    + apply IH.
      * apply Hseen'; intros k.
        destruct (key_eqb k (coordKey point)) eqn:Ek; [ | now rewrite orb_false_r].
        apply key_eqb_eq in Ek; subst k; now rewrite Edup.
      * intros series; rewrite Hmap, firstOfCoords_snoc; cbn [app].
        rewrite <- Hseen, Edup, app_nil_r; reflexivity.
    + assert (Hfirst : firstOfCoords [] (done ++ [point])
                       = firstOfCoords [] done ++ [point]).
      { rewrite firstOfCoords_snoc; cbn [app]; now rewrite <- Hseen, Edup. }
      assert (Hnew : forall series,
                 seriesMap_get series
                   (if seriesMap_has (dp_series point) seriesMap then seriesMap
                    else seriesMap ++ [(dp_series point, [])])
                 = seriesMap_get series seriesMap).
      { intros series; destruct (seriesMap_has _ _); [reflexivity | ].
        apply seriesMap_get_new. }
      assert (Hhas : seriesMap_has (dp_series point)
                       (if seriesMap_has (dp_series point) seriesMap then seriesMap
                        else seriesMap ++ [(dp_series point, [])]) = true).
      { destruct (seriesMap_has _ _) eqn:E; [exact E | apply seriesMap_has_new]. }
      destruct (visibleSeries (dp_series point)) eqn:Evis; apply IH.
      * apply Hseen'; intros k; rewrite existsb_app; cbn [existsb].
        now rewrite orb_false_r.
      * intros series; rewrite (seriesMap_get_push _ _ _ _ Hhas), Hnew, Hmap, Hfirst.
        rewrite filter_app, map_app; cbn [filter].
        destruct (SeriesType_eqb (dp_series point) series) eqn:Es.
        -- apply SeriesType_eqb_eq in Es; subst series; now rewrite Evis.
        -- now rewrite app_nil_r.
      * apply Hseen'; intros k; rewrite existsb_app; cbn [existsb].
        now rewrite orb_false_r.
      * intros series; rewrite Hnew, Hmap, Hfirst.
        rewrite filter_app, map_app; cbn [filter].
        destruct (SeriesType_eqb (dp_series point) series) eqn:Es;
          [ | now rewrite app_nil_r].
        apply SeriesType_eqb_eq in Es; subst series; now rewrite Evis.
Qed.

(** X25: the chart shows one point per coordinate pair, the first of the
    input: the array of a visible series holds, in input order and scaled,
    the points of that series that no earlier point of the input has the
    coordinates (x, z) of, and the array of a series that is not visible
    is empty.  The earlier point counts whatever its series: a point of a
    hidden series takes the place of a later visible point with the same
    coordinates. *)
Theorem chart_keeps_first_of_each_coordinate (visibleSeries : SeriesType -> bool)
  (rotation : number) (imageWidth imageHeight : option number)
  (data : list DataPoint) (series : SeriesType) :
  seriesMap_get series
    (groupBySeries visibleSeries rotation imageWidth imageHeight data)
  = (if visibleSeries series
     then map (scaledPoint rotation imageWidth imageHeight)
              (filter (fun p => SeriesType_eqb (dp_series p) series)
                      (firstOfCoords [] data))
     else []) /\
  forall hidden shown,
    coordKey hidden = coordKey shown ->
    visibleSeries (dp_series hidden) = false ->
    chartDatasets visibleSeries rotation imageWidth imageHeight [hidden; shown] = [].
Proof.
  split.
  - unfold groupBySeries.
    apply (addDataPoint_invariant visibleSeries rotation imageWidth imageHeight
             data [] [] []); [reflexivity | ].
    intros s; cbn; now destruct (visibleSeries s).
  - intros hidden shown Ekey Evis.
    unfold chartDatasets, groupBySeries; cbn [fold_left].
    unfold addDataPoint at 2; cbn [existsb app].
    rewrite Evis.
    unfold addDataPoint; cbn [existsb].
    rewrite <- Ekey, key_eqb_refl; cbn [orb snd seriesMap_has existsb app filter fst].
    now rewrite Evis.
Qed.

(* ================================================================== *)
(** * Further properties of the grouping and of the point penalty *)

(** ** Points of one group *)

Lemma sortedGroups_key (h : Heap) (points g : list ObjId) :
  In g (sortedGroups h points) ->
  exists k, forall id, In id g -> keyOf (h id) = k.
Proof.
  unfold sortedGroups; intros Hg.
  apply in_map_iff in Hg as ([k g'] & <- & Hg); cbn [snd].
  apply sort_In in Hg.
  destruct (pointGroups_GroupsOf h (filter (fun pt => hasLabel (h pt)) points))
    as (_ & Hgroups & _).
  destruct (Hgroups k g' Hg) as (_ & Eg).
  exists k; intros id Hid; rewrite Eg in Hid.
  apply filter_In in Hid as (_ & Hk); apply key_eqb_eq in Hk; now symmetry.
Qed.

Lemma Math_round_close (u v : R) :
  Math_round (Fin u) = Math_round (Fin v) -> Rabs (u - v) < 1.
Proof.
  cbn [Math_round]; intros E; inversion E as [Ez]; apply eq_IZR in Ez.
  destruct (base_Int_part (u + / 2)) as [Hu1 Hu2].
  destruct (base_Int_part (v + / 2)) as [Hv1 Hv2].
  rewrite Ez in Hu1, Hu2.
  apply Rabs_def1; lra.
Qed.

(** X26: the points that are merged into one group are less than 1 px apart
    along each axis: two finite points of one group of a pass differ by
    less than 1 in x and by less than 1 in y (they round to the same
    position). *)
Theorem grouped_points_are_within_a_pixel (h : Heap) (points g : list ObjId)
  (a b : ObjId) :
  In g (sortedGroups h points) ->
  In a g -> In b g ->
  FinitePoint (h a) -> FinitePoint (h b) ->
  exists xa ya xb yb,
    x (h a) = Fin xa /\ y (h a) = Fin ya /\
    x (h b) = Fin xb /\ y (h b) = Fin yb /\
    Rabs (xa - xb) < 1 /\ Rabs (ya - yb) < 1.
Proof.
  intros Hg Ha Hb Hfa Hfb.
  destruct (sortedGroups_key h points g Hg) as (k & Hk).
  pose proof (Hk a Ha) as Eka; pose proof (Hk b Hb) as Ekb.
  destruct (FinitePoint_inv _ Hfa) as (xa & ya & wa & ha & ta & apa & Ea).
  destruct (FinitePoint_inv _ Hfb) as (xb & yb & wb & hb & tb & apb & Eb).
  rewrite Ea in Eka; rewrite Eb in Ekb; unfold keyOf in Eka, Ekb.
  cbn [x y] in Eka, Ekb; rewrite <- Ekb in Eka; inversion Eka as [[Ex Ey]].
  exists xa, ya, xb, yb; rewrite Ea, Eb; cbn [x y].
  repeat split; apply Math_round_close; cbn [Math_round]; congruence.
Qed.

Lemma grouped_points_are_within_a_pixel_witness :
  exists xa ya xb yb,
    x (farPairHeap 0%nat) = Fin xa /\ y (farPairHeap 0%nat) = Fin ya /\
    x (farPairHeap 1%nat) = Fin xb /\ y (farPairHeap 1%nat) = Fin yb /\
    Rabs (xa - xb) < 1 /\ Rabs (ya - yb) < 1.
Proof.
  apply (grouped_points_are_within_a_pixel farPairHeap [0%nat; 1%nat]
           [0%nat; 1%nat] 0%nat 1%nat).
  - rewrite (sortedGroups_pair farPairHeap 0%nat 1%nat); try reflexivity.
    now left.
  - now left.
  - right; now left.
  - repeat split; reflexivity.
  - repeat split; reflexivity.
Defined.

(** ** A point penalty that is not positive *)

Lemma coveredPenalty_ignored (this : LabelPlacer) (h : Heap) (ptr : PointRef)
  (c : Candidate) (others : list ObjId) (pp : R) :
  pointPenalty (options this) = Fin pp -> pp <= 0 ->
  gt (coveredPenalty this h ptr c others) (Fin 0) = false.
Proof.
  intros Hpp Hle; rewrite (coveredPenalty_fin this h ptr pp Hpp); num.
  apply Rltb_false.
  pose proof (pos_INR (coveredCount h ptr c others)); nra.
Qed.

Lemma scoreOf_withPointPenalty (this : LabelPlacer) (h : Heap) (ptr : PointRef)
  (c : Candidate) (pp qq : R) :
  pointPenalty (options this) = Fin pp -> pp <= 0 -> qq <= 0 ->
  scoreOf (withPointPenalty (Fin qq) this) h ptr c = scoreOf this h ptr c.
Proof.
  intros Hpp Hle Hq; unfold scoreOf; cbv zeta.
  change (collisions (withPointPenalty (Fin qq) this)) with (collisions this).
  change (minBorderDistance (withPointPenalty (Fin qq) this))
    with (minBorderDistance this).
  change (centerBonus (withPointPenalty (Fin qq) this)) with (centerBonus this).
  change (isOutOfBounds (withPointPenalty (Fin qq) this)) with (isOutOfBounds this).
  change (outOfBoundsPenalty (options (withPointPenalty (Fin qq) this)))
    with (outOfBoundsPenalty (options this)).
  destruct (allPoints (deref h ptr)) as [others | ]; [ | reflexivity].
  rewrite (coveredPenalty_ignored this h ptr c others pp Hpp Hle).
  rewrite (coveredPenalty_ignored (withPointPenalty (Fin qq) this) h ptr c others qq
             eq_refl Hq).
  reflexivity.
Qed.

Lemma placeLabelForPoint_withPointPenalty (this : LabelPlacer) (h : Heap)
  (ptr : PointRef) (pp qq : R) :
  pointPenalty (options this) = Fin pp -> pp <= 0 -> qq <= 0 ->
  placeLabelForPoint (withPointPenalty (Fin qq) this) h ptr
  = placeLabelForPoint this h ptr.
Proof.
  intros Hpp Hle Hq.
  assert (Escore : map (scoreCandidate (withPointPenalty (Fin qq) this) h ptr)
                       (generateCandidates this (deref h ptr))
                   = map (scoreCandidate this h ptr)
                         (generateCandidates this (deref h ptr))).
  { apply map_ext; intros c; unfold scoreCandidate.
    now rewrite (scoreOf_withPointPenalty this h ptr c pp qq). }
  unfold placeLabelForPoint, scoredCandidates.
  change (generateCandidates (withPointPenalty (Fin qq) this))
    with (generateCandidates this).
  rewrite Escore; reflexivity.
Qed.

Lemma placeGroups_withPointPenalty (h : Heap) (groups : list (list ObjId))
  (pp qq : R) :
  pp <= 0 -> qq <= 0 ->
  forall this,
    pointPenalty (options this) = Fin pp ->
    placeGroups (withPointPenalty (Fin qq) this) h groups
    = match placeGroups this h groups with
      | Ok this' => Ok (withPointPenalty (Fin qq) this')
      | TypeError => TypeError
      end.
Proof.
  intros Hle Hq; induction groups as [ | g rest IH]; intros this Hpp;
    cbn [placeGroups]; [reflexivity | ].
  unfold placeGroup.
  destruct (groupPoint h g) as [ptr | ]; [ | reflexivity].
  rewrite (placeLabelForPoint_withPointPenalty this h ptr pp qq Hpp Hle Hq).
  destruct (placeLabelForPoint this h ptr) as [[[label info] | ] | ];
    [ | now apply IH | reflexivity].
  change (commit (withPointPenalty (Fin qq) this) label info)
    with (withPointPenalty (Fin qq) (commit this label info)).
  now apply IH.
Qed.

(** X27: a point penalty that is not positive is ignored: covering other
    points then costs nothing and earns nothing, and an engine whose
    pointPenalty is finite and at most 0 returns the labels that it returns
    with any other such point penalty, 0 for one. *)
Theorem point_penalty_below_zero_is_ignored (this : LabelPlacer) (h : Heap)
  (points : list ObjId) (pp qq : R) :
  pointPenalty (options this) = Fin pp -> pp <= 0 -> qq <= 0 ->
  placed (withPointPenalty (Fin qq) this) h points = placed this h points.
Proof.
  intros Hpp Hle Hq; unfold placed, placeAll.
  change (reset (withPointPenalty (Fin qq) this))
    with (withPointPenalty (Fin qq) (reset this)).
  rewrite (placeGroups_withPointPenalty h (sortedGroups h points) pp qq Hle Hq
             (reset this) Hpp).
  destruct (placeGroups (reset this) h (sortedGroups h points)) as [this' | ];
    reflexivity.
Qed.

Lemma point_penalty_below_zero_is_ignored_witness :
  let engine := withPointPenalty (Fin (-500)) exampleEngine in
  let east := mkCandidate (Fin (50 + 7)) (Fin (60 - 12 / 2)) (Fin 0) (Fin 0) in
  In east (generateCandidates engine (nearHeap 0%nat)) /\
  coveredPenalty engine nearHeap (Existing 0%nat) east [0%nat; 1%nat] = Fin (-500) /\
  placed (withPointPenalty (Fin 0) engine) nearHeap [0%nat; 1%nat]
  = placed engine nearHeap [0%nat; 1%nat].
Proof.
  intros engine east; split; [ | split].
  - apply (east_generated engine 50 60 40 12 "A" (Some [0%nat; 1%nat]) 400 300);
      try reflexivity; try lra; split; reflexivity.
  - rewrite (coveredPenalty_fin engine nearHeap (Existing 0%nat) (-500) eq_refl).
    unfold coveredCount, pointInRect.
    cbn [filter sameObject Nat.eqb negb andb deref nearHeap nearA nearB x y
           width height rect_x rect_y rect_width rect_height east cx cy]; num.
    rewrite !Rleb_true by lra; cbn [andb List.length INR].
    apply (f_equal Fin); lra.
  - apply (point_penalty_below_zero_is_ignored engine nearHeap [0%nat; 1%nat]
             (-500) 0); [reflexivity | lra | lra].
Defined.

(* ================================================================== *)
(** * The height of the label boxes of the plug-in *)

Lemma Math_max_all (l : list number) (v : R) :
  l <> [] -> (forall a, In a l -> a = Fin v) -> Math_max l = Fin v.
Proof.
  unfold Math_max; destruct l as [ | a l]; [congruence | intros _ Hall].
  cbn [fold_left]; rewrite (Hall a) by (now left); cbn [max2].
  assert (Hl : forall b, In b l -> b = Fin v) by (intros b Hb; apply Hall; now right).
  clear Hall; induction l as [ | b l IH]; cbn [fold_left]; [reflexivity | ].
  rewrite (Hl b) by (now left); cbn [max2].
  rewrite Rmax_left by lra; apply IH; intros c Hc; apply Hl; now right.
Qed.

Lemma preparePoints_height (ctx_measureText : string -> string -> number)
  (xScale yScale : number -> number) (datasets : list Dataset) (pt : Point) :
  In pt (preparePoints ctx_measureText xScale yScale datasets) ->
  height pt = Fin 12.
Proof.
  unfold preparePoints; intros Hpt.
  apply in_flat_map in Hpt as (dataset & _ & Hpt).
  apply in_flat_map in Hpt as (item & _ & Hpt).
  revert Hpt; unfold pointOfItem.
  destruct (item_label item) as [label | ]; [ | intros []].
  destruct (String.eqb label ""); [intros [] | ].
  destruct (isNaN (item_x item) || isNaN (item_y item)); [intros [] | ].
  intros [<- | []]; reflexivity.
Qed.

(** X28: every label box that the plug-in draws is 12 px high, whatever the
    font size the labels are drawn with: the height of each point is the
    number at the start of the default font of measureText, 12, and the
    label of a group of points takes the greatest of their heights. *)
Theorem plugin_label_boxes_are_12px_high
  (ctx_measureText : string -> string -> number)
  (xScale yScale : number -> number) (enabled : option bool)
  (chartArea : ChartArea) (datasets : list Dataset) (labelBoxes : list LabelBox) :
  afterDraw ctx_measureText xScale yScale enabled chartArea datasets
  = Drawn labelBoxes ->
  Forall (fun label => lheight label = Fin 12) labelBoxes.
Proof.
  unfold afterDraw.
  set (points := preparePoints ctx_measureText xScale yScale datasets).
  assert (Hheap : forall id, (id < List.length points)%nat ->
                             height (attachAllPoints points id) = Fin 12).
  { intros id Hid; unfold attachAllPoints; cbn [height].
    apply (preparePoints_height ctx_measureText xScale yScale datasets).
    now apply nth_In. }
  intros Ed.
  assert (E : placed (pluginPlacer chartArea) (attachAllPoints points)
                (seq 0 (List.length points)) = Ok labelBoxes).
  { destruct enabled as [[ | ] | ]; try discriminate;
      destruct (placed _ _ _); congruence. }
  clear Ed; apply Forall_forall.
  apply (placed_provenance (pluginPlacer chartArea) (attachAllPoints points)
           (seq 0 (List.length points)) labelBoxes
           (fun l => lheight l = Fin 12)); [ | exact E].
  intros this1 g ptr chosen _ Hg Eptr _ _; cbn [lheight].
  destruct (sortedGroups_In _ _ g Hg) as (Hne & Hmem).
  assert (Hall : forall id, In id g ->
                            height (attachAllPoints points id) = Fin 12).
  { intros id Hid; apply Hheap.
    destruct (Hmem id Hid) as (Hin & _); apply in_seq in Hin; lia. }
  destruct g as [ | first [ | second rest]]; [congruence | | ];
    cbn [groupPoint] in Eptr; inversion Eptr; subst ptr; cbn [deref].
  - apply Hall; now left.
  - cbn [combinedPoint height]; apply Math_max_all; [discriminate | ].
    intros a Ha; apply in_map_iff in Ha as (id & <- & Hid); now apply Hall.
Qed.

Lemma plugin_label_boxes_are_12px_high_witness :
  exists labelBoxes,
    afterDraw (fun _ _ => Fin 40) (fun v => v) (fun v => v) None
      (mkChartArea (Fin 0) (Fin 0) (Fin 400) (Fin 300))
      [mkDataset [mkDataItem (Some "Red (50, 60)") (Fin 50) (Fin 60) None] None]
    = Drawn labelBoxes /\
    Forall (fun label => lheight label = Fin 12) labelBoxes.
Proof.
  destruct (placeAll_total
              (pluginPlacer (mkChartArea (Fin 0) (Fin 0) (Fin 400) (Fin 300)))
              (attachAllPoints
                 (preparePoints (fun _ _ => Fin 40) (fun v => v) (fun v => v)
                    [mkDataset [mkDataItem (Some "Red (50, 60)") (Fin 50) (Fin 60) None]
                       None]))
              (seq 0 1)) as (labels & E); [cbn; lia | cbn; lia | ].
  assert (Ed : afterDraw (fun _ _ => Fin 40) (fun v => v) (fun v => v) None
                 (mkChartArea (Fin 0) (Fin 0) (Fin 400) (Fin 300))
                 [mkDataset [mkDataItem (Some "Red (50, 60)") (Fin 50) (Fin 60) None]
                    None]
               = Drawn labels).
  { unfold afterDraw.
    change (List.length (preparePoints _ _ _ _)) with 1%nat.
    now rewrite E. }
  exists labels; split; [exact Ed | ].
  exact (plugin_label_boxes_are_12px_high _ _ _ _ _ _ _ Ed).
Defined.

(* ================================================================== *)
(** * The radii of the unclamped rings *)

Lemma circle_radius (px py w h r a : R) :
  0 <= r ->
  sqrt ((px + r * cos a - w / 2 + w / 2 - px) * (px + r * cos a - w / 2 + w / 2 - px)
        + (py + r * sin a - h / 2 + h / 2 - py) * (py + r * sin a - h / 2 + h / 2 - py))
  = r.
Proof.
  intros Hr.
  replace ((px + r * cos a - w / 2 + w / 2 - px) * (px + r * cos a - w / 2 + w / 2 - px)
           + (py + r * sin a - h / 2 + h / 2 - py) * (py + r * sin a - h / 2 + h / 2 - py))
    with (r * r).
  - now apply sqrt_square.
  - pose proof (sin2_cos2 a) as Hsc; unfold Rsqr in Hsc.
    replace (px + r * cos a - w / 2 + w / 2 - px) with (r * cos a) by lra.
    replace (py + r * sin a - h / 2 + h / 2 - py) with (r * sin a) by lra.
    nra.
Qed.

(** X29: in exact arithmetic, the candidates of the two families that are
    not clamped lie on circles around the point: for a finite point and at
    least one angle, the centre of the label of a fallback candidate of
    ring [ring] is 7 + 5 * ring px away from the point, and, with a finite
    radius option, that of a half-step candidate max(7, radius * ring) px.
    These are the radii that the code aims at; in binary64 the candidates
    are off them by rounding, on either side (see C8). *)
Theorem unclamped_rings_are_circles (this : LabelPlacer) (pt : Point)
  (rad : R) (ring i : nat) :
  FinitePoint pt ->
  (0 < anglesPerRing (options this))%nat ->
  radius (options this) = Fin rad ->
  distance pt (fallbackCandidate this pt ring i) = Fin (7 + 5 * INR ring) /\
  distance pt (halfStepCandidate this pt ring i) = Fin (Rmax 7 (rad * INR ring)).
Proof.
  intros Hpt Hangles Hrad.
  apply FinitePoint_inv in Hpt as (px & py & w & h & t & ap & ->).
  destruct (fallbackCandidate_shape this px py w h t ap ring i Hangles)
    as (r1 & a1 & Er1 & ->).
  destruct (halfStepCandidate_shape this px py w h t ap rad ring i Hangles Hrad)
    as (r2 & a2 & Er2 & ->).
  pose proof (pos_INR ring) as Hring.
  assert (H1 : 0 <= r1) by lra.
  assert (H2 : 0 <= r2).
  { rewrite <- Er2; etransitivity; [ | apply Rmax_l]; lra. }
  unfold distance, labelCenterX, labelCenterY; cbn [x y width height cx cy]; num.
  rewrite !circle_radius by assumption.
  split; apply (f_equal Fin); [lra | ].
  rewrite <- Er2; now replace (6 + 1) with 7 by lra.
Qed.

Lemma unclamped_rings_are_circles_witness :
  distance examplePoint (fallbackCandidate exampleEngine examplePoint 2 3)
  = Fin (7 + 5 * INR 2) /\
  distance examplePoint (halfStepCandidate exampleEngine examplePoint 2 3)
  = Fin (Rmax 7 (10 * INR 2)).
Proof.
  apply (unclamped_rings_are_circles exampleEngine examplePoint 10 2 3).
  - repeat split; reflexivity.
  - cbn; lia.
  - reflexivity.
Defined.

(* ================================================================== *)
(** * When a pass raises *)

Lemma placeGroups_raises (this0 : LabelPlacer) (h : Heap)
  (groups : list (list ObjId)) :
  (forall g, In g groups -> g <> []) ->
  forall this,
    SameConfig this this0 ->
    (placeGroups this h groups = TypeError <->
     exists g ptr,
       In g groups /\ groupPoint h g = Some ptr /\
       generateCandidates this0 (deref h ptr) = []).
Proof.
  induction groups as [ | g rest IH]; intros Hne this Hcfg; cbn [placeGroups].
  - split; [discriminate | intros (g & ptr & [] & _)].
  - assert (Hrest : forall g', In g' rest -> g' <> [])
      by (intros g' Hg'; apply Hne; now right).
    destruct (placeGroup this h g) as [this' | ] eqn:Eg.
    + assert (Hcfg' : SameConfig this' this0)
        by (eapply SameConfig_trans; [eapply placeGroup_config; eauto | exact Hcfg]).
      rewrite (IH Hrest this' Hcfg'); split.
      * intros (g' & ptr & Hin & Eptr & Egen); exists g', ptr; split; [now right | ].
        now split.
      * intros (g' & ptr & [<- | Hin] & Eptr & Egen);
          [ | exists g', ptr; now repeat split].
        exfalso; unfold placeGroup in Eg; rewrite Eptr in Eg.
        rewrite <- (generateCandidates_config this this0 _ Hcfg) in Egen.
        apply placeLabelForPoint_TypeError in Egen; now rewrite Egen in Eg.
    + split; [intros _ | reflexivity].
      apply placeGroup_TypeError in Eg as [-> | (ptr & Eptr & Egen)].
      * exfalso; apply (Hne []); [now left | reflexivity].
      * exists g, ptr; split; [now left | split; [exact Eptr | ]].
        now rewrite <- (generateCandidates_config this this0 _ Hcfg).
Qed.

(** X30: a pass raises exactly when one of its groups has a point without
    candidates: placeAll ends in the TypeError of reading [chosen.score] if
    and only if the candidate list of the point of some group of the pass
    is empty; what was placed for the groups before it is not returned. *)
Theorem pass_raises_iff_a_point_has_no_candidate (this : LabelPlacer) (h : Heap)
  (points : list ObjId) :
  placed this h points = TypeError <->
  exists g ptr,
    In g (sortedGroups h points) /\ groupPoint h g = Some ptr /\
    generateCandidates this (deref h ptr) = [].
Proof.
  rewrite <- (placeGroups_raises this h (sortedGroups h points)) with (this := reset this).
  - unfold placed, placeAll.
    destruct (placeGroups (reset this) h (sortedGroups h points));
      split; congruence.
  - intros g Hg; now destruct (sortedGroups_In h points g Hg).
  - apply reset_config.
Qed.

(* ================================================================== *)
(** * Passes on well-formed input *)

(** On well-formed input (finite labelled points, a chart with
    finite nonzero sides, finite options, an out-of-bounds penalty that is
    not negative) the padded rectangles of any two labels that a pass
    returns do not intersect; a point whose every candidate meets a placed
    label gets no label; and with at least one ring and one angle the pass
    returns. *)
Theorem placed_labels_do_not_overlap (this : LabelPlacer) (h : Heap)
  (points : list ObjId) :
  WellFormed this h points ->
  (forall labels, placed this h points = Ok labels -> NoOverlap labels) /\
  (forall t ptr,
     SameConfig t this -> FinitePoint (deref h ptr) ->
     generateCandidates t (deref h ptr) <> [] ->
     (forall c, In c (generateCandidates t (deref h ptr)) ->
                collisions t (deref h ptr) c <> []) ->
     placeLabelForPoint t h ptr = Ok None) /\
  ((1 <= rings (options this))%nat ->
   (1 <= anglesPerRing (options this))%nat ->
   exists labels, placed this h points = Ok labels).
Proof.
  intros Hwf; split; [ | split].
  - intros labels; now apply placeAll_IndexInvariant.
  - intros t ptr Hcfg Hpt Hne Hall.
    apply WellFormed_config with (a := t) in Hwf; [ | exact Hcfg].
    destruct Hwf as (Hchart & Hproper & Hopts & Hoob & _).
    now apply all_colliding_dropped.
  - apply placeAll_total.
Qed.

(** On well-formed input (finite labelled points, a chart with
    finite nonzero sides, finite options, an out-of-bounds penalty that is
    not negative) a candidate whose rectangle overlaps the square of half
    side 7 around its own point, or has a corner closer than 7 px to it,
    ends with a score of -100000 or less; so every label that a pass
    returns is clear of that square and has its four corners at 7 px or
    more from its point; and with at least one ring and one angle the pass
    returns. *)
Theorem committed_labels_clear_own_point (this : LabelPlacer) (h : Heap)
  (points : list ObjId) :
  WellFormed this h points ->
  (forall t ptr c',
     SameConfig t this -> FinitePoint (deref h ptr) ->
     In c' (scoredCandidates t h ptr) ->
     overlapsExclusionZone (deref h ptr) c' || violatesBoundary (deref h ptr) c' = true ->
     le (score c') (Fin (-100000)) = true) /\
  (forall labels, placed this h points = Ok labels ->
     forall label, In label labels -> ClearOfOwnPoint h label) /\
  ((1 <= rings (options this))%nat ->
   (1 <= anglesPerRing (options this))%nat ->
   exists labels, placed this h points = Ok labels).
Proof.
  intros Hwf; split; [ | split].
  - intros t ptr c' Hcfg Hpt Hc' Hv.
    apply WellFormed_config with (a := t) in Hwf; [ | exact Hcfg].
    destruct Hwf as (Hchart & Hproper & Hopts & Hoob & _).
    now apply (violating_candidate_vetoed t h ptr).
  - intros labels; now apply placeAll_clear.
  - apply placeAll_total.
Qed.

(** For a group that has candidates, a candidate of the group is taken
    after the sort, and it has the highest score when the scores can be
    compared (none is NaN); when its score is -100000 or less the group
    yields no label and the engine, index included, is left as it was;
    otherwise exactly one label, built from that candidate, is appended to
    the placed labels and its padded box to the index.  A pass returns at
    most one label per group, and fewer labels than groups as soon as one
    group is dropped. *)
Theorem group_is_dropped_or_committed (this : LabelPlacer) (h : Heap)
  (g : list ObjId) (ptr : PointRef) :
  groupPoint h g = Some ptr ->
  generateCandidates this (deref h ptr) <> [] ->
  exists chosen,
  hd_error (sort byScoreDescending (scoredCandidates this h ptr)) = Some chosen /\
  In chosen (scoredCandidates this h ptr) /\
  ((forall c, In c (scoredCandidates this h ptr) -> isNaN (score c) = false) ->
   forall c, In c (scoredCandidates this h ptr) ->
             le (score c) (score chosen) = true) /\
  (le (score chosen) (Fin (-100000)) = true -> placeGroup this h g = Ok this) /\
  (le (score chosen) (Fin (-100000)) = false ->
   exists label info,
     placeGroup this h g = Ok (commit this label info) /\
     label = {| lx := cx chosen; ly := cy chosen;
                lwidth := width (deref h ptr); lheight := height (deref h ptr);
                lrotation := rotation chosen; ltext := text (deref h ptr);
                forPoint := ptr |} /\
     placedLabels (commit this label info) = placedLabels this ++ [label] /\
     tree (commit this label info) = tree this ++ [toRTreeBox label]) /\
  (forall groups this',
     placeGroups this h groups = Ok this' ->
     (List.length (placedLabels this')
      <= List.length (placedLabels this) + List.length groups)%nat) /\
  (forall start before after this',
     placeGroups start h before = Ok this ->
     placeGroup this h g = Ok this ->
     placeGroups start h (before ++ g :: after) = Ok this' ->
     (List.length (placedLabels this')
      < List.length (placedLabels start) + List.length (before ++ g :: after))%nat).
Proof.
  intros Eptr Hne.
  destruct (hd_error (sort byScoreDescending (scoredCandidates this h ptr)))
    as [chosen | ] eqn:Ehd.
  2:{ exfalso; apply Hne.
      destruct (sort byScoreDescending (scoredCandidates this h ptr)) eqn:Es;
        [ | discriminate].
      apply sort_nil_inv in Es; unfold scoredCandidates in Es.
      apply map_eq_nil in Es; now apply map_eq_nil in Es. }
  exists chosen.
  assert (Hin : In chosen (scoredCandidates this h ptr)).
  { apply (sort_In byScoreDescending).
    destruct (sort byScoreDescending (scoredCandidates this h ptr));
      inversion Ehd; now left. }
  split; [reflexivity | ].
  split; [exact Hin | split; [ | split; [ | split; [ | split]]]].
  - intros Hnan c Hc.
    destruct (sort_first_max _ chosen Hnan Ehd) as (l1 & l2 & El & H1 & H2).
    rewrite El in Hc.
    apply in_app_or in Hc as [Hc | [<- | Hc]].
    + now apply lt_le, H1.
    + apply le_refl, Hnan, Hin.
    + now apply H2.
  - intros Ele; unfold placeGroup, placeLabelForPoint; rewrite Eptr.
    destruct (sort byScoreDescending (scoredCandidates this h ptr))
      as [ | c0 rest]; [discriminate | ].
    inversion Ehd; subst; now rewrite Ele.
  - intros Ele; unfold placeGroup, placeLabelForPoint; rewrite Eptr.
    destruct (sort byScoreDescending (scoredCandidates this h ptr))
      as [ | c0 rest]; [discriminate | ].
    inversion Ehd; subst; rewrite Ele.
    eexists; eexists; repeat split.
  - intros groups this'; apply placeGroups_length.
  - intros start before after this' Ebefore Edrop.
    rewrite placeGroups_app, Ebefore; cbn [placeGroups]; rewrite Edrop.
    intros E; apply placeGroups_length in E, Ebefore.
    rewrite length_app; cbn [List.length]; lia.
Qed.

(** In exact arithmetic every candidate generated for a finite point, with
    a finite radius option, has its label centre at a distance of at least
    exclusionRadius = 7 from the point, in each of the four ring
    families. *)
Theorem candidates_keep_exclusion_radius (this : LabelPlacer) (pt : Point)
  (c : Candidate) :
  FinitePoint pt ->
  isFinite (radius (options this)) = true ->
  In c (generateCandidates this pt) ->
  ge (distance pt c) exclusionRadius = true /\ exclusionRadius = Fin 7.
Proof.
  intros Hpt Hrad Hc; split.
  - now apply (generateCandidates_distance this).
  - unfold exclusionRadius, pointRadius, boundaryBuffer; cbn; f_equal; lra.
Qed.

(** ** An engine without rings *)

(** In the 10 x 10 chart every clamped candidate of the point (5, 5), with
    its 8 x 8 label, is at (1, 1), where the label is centred on the point,
    and is discarded; without rings no other candidate is generated. *)
Lemma centre_without_candidates (t : LabelPlacer) :
  SameConfig t ringlessEngine -> generateCandidates t centrePoint = [].
Proof.
  intros Hcfg.
  rewrite (generateCandidates_config t ringlessEngine _ Hcfg).
  unfold centrePoint.
  rewrite (generateCandidates_rejected ringlessEngine 5 5 8 8 "A" (Some [0%nat])
             10 10 eq_refl); [reflexivity | lra | ].
  replace ((1 + 8 / 2 - 5) * (1 + 8 / 2 - 5) + (1 + 8 / 2 - 5) * (1 + 8 / 2 - 5))
    with 0 by field.
  rewrite sqrt_0; lra.
Qed.

(** ** Every label comes from placeLabelForPoint *)



(* ================================================================== *)
(** * The claims *)

(** ** C1: no two labels of a pass overlap *)

(** C1 (the code departs from it): in the chart 0 x 0 the pass over the two
    points (6, 0) and (7, 0), with 10 x 10 labels, returns two labels, 1 px
    apart, that overlap.  The candidate of the second label meets the first
    label and carries the penalty for it, but its score is NaN and the test
    [chosen.score <= -100000] that should drop it is false for NaN. *)
Lemma labels_overlap_without_area :
  exists labels, placed zeroEngine edgePairHeap [0%nat; 1%nat] = Ok labels /\
                 ~ NoOverlap labels.
Proof.
  unfold placed, placeAll.
  rewrite (sortedGroups_two edgePairHeap 0%nat 1%nat); try reflexivity.
  2:{ unfold keyOf; cbn [edgePairHeap edgeA edgeB x y].
      rewrite !Math_round_IZR; intros E; inversion E; lra. }
  2:{ cbn; apply Rltb_false; lra. }
  cbn [placeGroups]; unfold placeGroup; cbn [groupPoint].
  destruct (zero_area_edge_label (reset zeroEngine) edgePairHeap (Existing 0%nat)
              6 10 10 "A" (Some [0%nat; 1%nat])) as (infoA & EA);
    try reflexivity; try (cbn; lia); try lra.
  { repeat split; reflexivity. }
  { apply sqrt_lt_7; nra. }
  rewrite EA.
  match goal with |- context [commit ?t ?l ?i] => set (mid := commit t l i) end.
  destruct (zero_area_edge_label mid edgePairHeap (Existing 1%nat)
              7 10 10 "B" (Some [0%nat; 1%nat])) as (infoB & EB);
    try reflexivity; try (cbn; lia); try lra.
  { repeat split; reflexivity. }
  { apply sqrt_lt_7; nra. }
  rewrite EB.
  eexists; split; [reflexivity | ].
  cbn [commit placedLabels mid reset app].
  intros Hno.
  specialize (Hno 0%nat 1%nat _ _ (Nat.neq_succ_diag_r 0) eq_refl eq_refl).
  unfold intersects, toRTreeBox in Hno.
  cbn [minX minY maxX maxY lx ly lwidth lheight] in Hno.
  autorewrite with num in Hno.
  rewrite !Rleb_true in Hno by lra; discriminate.
Qed.

(** ** C2: the points of other groups *)




(** ** C3: a group is dropped or committed *)

(** C3 (the code departs from it): in a 10 x 10 chart and with [rings: 0]
    the group of the point (5, 5), with an 8 x 8 label, has no candidate.
    There is no winning score; the group is neither skipped nor given a
    label: reading [chosen.score] raises a TypeError in placeLabelForPoint,
    which ends the loop over the groups and the pass.  (The defect is the
    one of C7.) *)
Theorem group_without_candidates_raises :
  sortedGroups centreHeap [0%nat] = [[0%nat]] /\
  groupPoint centreHeap [0%nat] = Some (Existing 0%nat) /\
  sort byScoreDescending
    (scoredCandidates (reset ringlessEngine) centreHeap (Existing 0%nat)) = [] /\
  placeLabelForPoint (reset ringlessEngine) centreHeap (Existing 0%nat) = TypeError /\
  placeGroup (reset ringlessEngine) centreHeap [0%nat] = TypeError /\
  placeGroups (reset ringlessEngine) centreHeap (sortedGroups centreHeap [0%nat])
  = TypeError.
Proof.
  assert (Egen : generateCandidates (reset ringlessEngine)
                   (deref centreHeap (Existing 0%nat)) = [])
    by apply centre_without_candidates, reset_config.
  assert (Eraise : placeLabelForPoint (reset ringlessEngine) centreHeap
                     (Existing 0%nat) = TypeError)
    by now apply placeLabelForPoint_TypeError.
  rewrite (sortedGroups_single centreHeap 0%nat) by reflexivity.
  repeat split.
  - unfold scoredCandidates; now rewrite Egen.
  - exact Eraise.
  - unfold placeGroup; cbn [groupPoint]; now rewrite Eraise.
  - cbn [placeGroups]; unfold placeGroup; cbn [groupPoint]; now rewrite Eraise.
Qed.

(** ** C4: determinism *)



(** ** C5: the defaults of the constructor *)

(** C5, as stated, fails: the engine built without options does not have
    the listed defaults (its padding is 4, not 0). *)
Lemma listed_defaults_differ :
  options (newLabelPlacer exampleSize noOptions) <> listedDefaults.
Proof.
  intros E; apply (f_equal padding) in E; cbn in E.
  inversion E; lra.
Qed.

(** C5 (amended): every option that the caller omits falls back to its
    value in DEFAULT_OPTIONS: radius 10, rings 5, anglesPerRing 32,
    padding 4, overlapPenalty 1000, pointPenalty 500, outOfBoundsPenalty 300,
    idealAngleBonus 0, debug false; an option that is given is used. *)
Theorem constructor_defaults (size : ChartSize) (o : PartialOptions) :
  let opts := options (newLabelPlacer size o) in
  radius opts = orDefault (radius_opt o) (Fin 10) /\
  rings opts = orDefault (rings_opt o) 5%nat /\
  anglesPerRing opts = orDefault (anglesPerRing_opt o) 32%nat /\
  padding opts = orDefault (padding_opt o) (Fin 4) /\
  overlapPenalty opts = orDefault (overlapPenalty_opt o) (Fin 1000) /\
  pointPenalty opts = orDefault (pointPenalty_opt o) (Fin 500) /\
  outOfBoundsPenalty opts = orDefault (outOfBoundsPenalty_opt o) (Fin 300) /\
  idealAngleBonus opts = orDefault (idealAngleBonus_opt o) (Fin 0) /\
  debug opts = orDefault (debug_opt o) false.
Proof. repeat split. Qed.

(** ** C6: two points at one place *)

(** C6, as stated, fails: in the chart 0 x 0 the pass over two points at
    (100, 100) returns no label for them. *)
Lemma coincident_pair_without_label :
  hasLabel (farPairHeap 0%nat) = true /\ hasLabel (farPairHeap 1%nat) = true /\
  keyOf (farPairHeap 0%nat) = keyOf (farPairHeap 1%nat) /\
  placed zeroEngine farPairHeap [0%nat; 1%nat] = Ok [].
Proof.
  repeat split.
  apply placed_zero_area.
  - split; reflexivity.
  - left; reflexivity.
  - repeat split; reflexivity.
  - intros [ | id] _ _; repeat split; reflexivity.
  - cbn; lia.
  - cbn; lia.
  - intros g ptr Hg Eptr.
    rewrite (sortedGroups_pair farPairHeap 0%nat 1%nat) in Hg by reflexivity.
    destruct Hg as [<- | []]; inversion Eptr; subst; cbn [deref].
    unfold combinedPoint; cbn [farPairHeap farA farB x y width height map allPoints].
    rewrite !max_fin2.
    pose proof (Rmax_l 40 30); pose proof (Rmax_l 12 14).
    apply (far_centres_off_axes zeroEngine 100 100 _ _ 10 50);
      try reflexivity;
      try (cbn [zeroEngine newLabelPlacer options mergeOptions
                  orDefault noOptions rings_opt DEFAULT_OPTIONS rings INR]; lra).
    split; reflexivity.
Qed.

(** C6 (amended): when two points with a text that is not blank, and no
    other labelled point, have one rounded position, they form one group of
    the pass, in their input order, and no other group holds a point of
    that position; with at least one ring and one angle, the merged point
    of that group has a winning candidate, the first one after the sort,
    and the group yields no label when the score of that candidate is
    -100000 or less, and otherwise exactly one label, at the place of that
    candidate, whose text is the two texts joined by ", " in input order
    and whose width and height are the larger of the two widths and of the
    two heights. *)
Theorem coincident_pair_is_merged (h : Heap) (points : list ObjId)
  (a b : ObjId) :
  filter (fun id => hasLabel (h id) && key_eqb (keyOf (h a)) (keyOf (h id)))
         points = [a; b] ->
  (exists before after,
     sortedGroups h points = before ++ [a; b] :: after /\
     forall g id, In g (before ++ after) -> In id g ->
                  keyOf (h id) <> keyOf (h a)) /\
  (forall t,
     (1 <= rings (options t))%nat -> (1 <= anglesPerRing (options t))%nat ->
     exists chosen rest,
       sort byScoreDescending
         (scoredCandidates t h (Combined (combinedPoint h [a; b] (h a))))
       = chosen :: rest /\
       (le (score chosen) (Fin (-100000)) = true ->
        placeGroup t h [a; b] = Ok t) /\
       (le (score chosen) (Fin (-100000)) = false ->
        exists label info,
          placeGroup t h [a; b] = Ok (commit t label info) /\
          placedLabels (commit t label info) = placedLabels t ++ [label] /\
          lx label = cx chosen /\ ly label = cy chosen /\
          ltext label = (text (h a) ++ ", " ++ text (h b))%string /\
          lwidth label = Math_max [width (h a); width (h b)] /\
          lheight label = Math_max [height (h a); height (h b)])).
Proof.
  intros Eg; split.
  - apply bucket_group; [exact Eg | now left].
  - intros t Hr Ha.
    destruct (sort byScoreDescending
                (scoredCandidates t h (Combined (combinedPoint h [a; b] (h a)))))
      as [ | chosen rest] eqn:Esort.
    { exfalso.
      apply sort_nil_inv in Esort; unfold scoredCandidates in Esort.
      apply map_eq_nil in Esort; apply map_eq_nil in Esort.
      now apply (generateCandidates_nonempty t _ Hr Ha) in Esort. }
    exists chosen, rest; split; [reflexivity | split].
    + intros Ele; unfold placeGroup, placeLabelForPoint; cbn [groupPoint].
      now rewrite Esort, Ele.
    + intros Ele; unfold placeGroup, placeLabelForPoint; cbn [groupPoint].
      rewrite Esort, Ele.
      eexists; eexists; split; [reflexivity | ].
      cbn [commit placedLabels lx ly ltext lwidth lheight deref combinedPoint
             text width height map join String.concat].
      repeat split.
Qed.

Lemma coincident_pair_is_merged_witness :
  exists label,
    placed exampleEngine farPairHeap [0%nat; 1%nat] = Ok [label] /\
    ltext label = "A, B" /\ lwidth label = Fin 40 /\ lheight label = Fin 14.
Proof.
  destruct (coincident_pair_is_merged farPairHeap [0%nat; 1%nat] 0%nat 1%nat)
    as (_ & Hplace).
  { cbn [filter].
    replace (hasLabel (farPairHeap 0%nat)) with true by reflexivity.
    replace (hasLabel (farPairHeap 1%nat)) with true by reflexivity.
    cbn [andb]; rewrite key_eqb_refl.
    replace (keyOf (farPairHeap 1%nat)) with (keyOf (farPairHeap 0%nat)) by reflexivity.
    rewrite key_eqb_refl; reflexivity. }
  destruct (Hplace (reset exampleEngine))
    as (chosen & rest & Esort & _ & Hcommit); [cbn; lia | cbn; lia | ].
  assert (Emerged : deref farPairHeap
                      (Combined (combinedPoint farPairHeap [0%nat; 1%nat]
                                   (farPairHeap 0%nat)))
                    = mkPoint (Fin 100) (Fin 100) "A, B" (Fin 40) (Fin 14)
                        (Some [0%nat; 1%nat])).
  { unfold combinedPoint.
    cbn [deref farPairHeap farA farB x y width height text allPoints map join
           String.concat].
    rewrite !max_fin2, (Rmax_left 40 30), (Rmax_right 12 14) by lra.
    reflexivity. }
  destruct (room_label exampleEngine farPairHeap _
              100 100 40 14 "A, B" (Some [0%nat; 1%nat]) 400 300 500 300 Emerged)
    with (t0 := reset exampleEngine)
    as (chosen0 & rest0 & info0 & u & v & Esort0 & Hveto & _);
    try reflexivity; try lra; try apply reset_config.
  { rewrite coverBound_pair by lra; lra. }
  rewrite Esort0 in Esort; inversion Esort; subst chosen0 rest0; clear Esort.
  destruct (Hcommit Hveto) as (label & info & Egroup & _ & _ & _ & Et & Ew & Eh).
  exists label; split; [ | split; [ | split]].
  - unfold placed, placeAll.
    rewrite (sortedGroups_pair farPairHeap 0%nat 1%nat) by reflexivity.
    cbn [placeGroups]; rewrite Egroup; reflexivity.
  - rewrite Et; reflexivity.
  - rewrite Ew; cbn [farPairHeap farA farB width].
    rewrite max_fin2, (Rmax_left 40 30) by lra; reflexivity.
  - rewrite Eh; cbn [farPairHeap farA farB height].
    rewrite max_fin2, (Rmax_right 12 14) by lra; reflexivity.
Defined.

(** ** C7: a pass that raises *)

(** C7 (the code departs from it): with [rings: 0], in a 10 x 10 chart, the
    point (5, 5) with an 8 x 8 label has no candidate at all (each of the 64
    primary candidates is clamped to (1, 1), where the label is centred on
    the point, and is discarded), so [chosen] is undefined and reading
    [chosen.score] raises a TypeError. *)
Theorem pass_without_candidates_raises :
  generateCandidates ringlessEngine centrePoint = [] /\
  placed ringlessEngine centreHeap [0%nat] = TypeError.
Proof.
  assert (Egen : forall t, SameConfig t ringlessEngine ->
                           generateCandidates t centrePoint = []).
  { intros t Hcfg.
    rewrite (generateCandidates_config t ringlessEngine _ Hcfg).
    unfold centrePoint.
    rewrite (generateCandidates_rejected ringlessEngine 5 5 8 8 "A" (Some [0%nat])
               10 10 eq_refl); [reflexivity | lra | ].
    replace ((1 + 8 / 2 - 5) * (1 + 8 / 2 - 5) + (1 + 8 / 2 - 5) * (1 + 8 / 2 - 5))
      with 0 by field.
    rewrite sqrt_0; lra. }
  split; [apply Egen; split; reflexivity | ].
  unfold placed, placeAll.
  rewrite (sortedGroups_single centreHeap 0%nat) by reflexivity.
  cbn [placeGroups]; unfold placeGroup; cbn [groupPoint].
  rewrite (proj2 (placeLabelForPoint_TypeError (reset ringlessEngine) centreHeap
                    (Existing 0%nat))); [reflexivity | ].
  apply Egen, reset_config.
Qed.

(** ** C8: the least distance of a candidate *)

Section HalfStepBinary64.
Import PrimFloat QArith.
Local Open Scope float_scope.

(** C8 (the code departs from it): with the option [radius: 5] and the
    default 5 rings and 32 angles, the candidates of the half-step rings
    of the point (50, 60), with a 40 x 12 label, include one whose label
    centre is closer than 7 px to the point, the first of the first ring:
    this ring is on the radius max(7, 5 * 1) = 7 and, unlike those of the
    primary and the expanding rings, its candidates are pushed without a
    test against the exclusion radius.  The distance that the code
    computes is below 7, and so is the exact distance of the binary64
    numbers.  This holds whatever [Math.cos] and [Math.sin] return at the
    angle pi / 32 within two units in the last place of 0.9951847266721969
    and 0.0980171403295606. *)
Theorem half_step_candidate_below_floor (Math_cos64 Math_sin64 : float -> float) :
  In (Math_cos64 0x1.921fb54442d18p-4)
     [0x1.fd88da3d12524p-1; 0x1.fd88da3d12525p-1; 0x1.fd88da3d12526p-1;
      0x1.fd88da3d12527p-1; 0x1.fd88da3d12528p-1] ->
  In (Math_sin64 0x1.921fb54442d18p-4)
     [0x1.917a6bc29b42ap-4; 0x1.917a6bc29b42bp-4; 0x1.917a6bc29b42cp-4;
      0x1.917a6bc29b42dp-4; 0x1.917a6bc29b42ep-4] ->
  let pt := mkPoint64 50 60 40 12 in
  exists c,
    In c (halfStepRings64 Math_cos64 Math_sin64 5 5 32 pt) /\
    (distance64 pt c <? exclusionRadius64) = true /\
    exists qx qy,
      toQ (cx64 c) = Some qx /\ toQ (cy64 c) = Some qy /\
      ((qx + 40 / 2 - 50) * (qx + 40 / 2 - 50)
       + (qy + 12 / 2 - 60) * (qy + 12 / 2 - 60) < 7 * 7)%Q.
Proof.
  intros Hcos Hsin pt.
  exists (halfStepCandidate64 Math_cos64 Math_sin64 5 32 pt 1 0); split.
  { unfold halfStepRings64.
    apply in_flat_map; exists 1%nat; split; [apply in_seq; lia | ].
    apply in_map_iff; exists 0%nat; split; [ | apply in_seq; lia].
    replace (ofNat64 32) with 32 by (vm_compute; reflexivity).
    replace (ofNat64 1) with 1 by (vm_compute; reflexivity).
    reflexivity. }
  subst pt.
  unfold halfStepCandidate64, distance64; cbn [x64 y64 width64 height64 cx64 cy64].
  replace (0 * (2 * Math_PI64 / 32) + 2 * Math_PI64 / 32 / 2)
    with 0x1.921fb54442d18p-4 by (vm_compute; reflexivity).
  cbn [In] in Hcos, Hsin.
  repeat (destruct Hcos as [Hcos | Hcos]; [ | ]); try contradiction;
    repeat (destruct Hsin as [Hsin | Hsin]; [ | ]); try contradiction;
    rewrite <- Hcos, <- Hsin;
    (split; [vm_compute; reflexivity | ]);
    (eexists; eexists;
     split; [vm_compute; reflexivity | split; [vm_compute; reflexivity | ]]);
    vm_compute; reflexivity.
Qed.

Lemma half_step_candidate_below_floor_witness :
  let pt := mkPoint64 50 60 40 12 in
  exists c,
    In c (halfStepRings64 (fun _ => 0x1.fd88da3d12526p-1)
            (fun _ => 0x1.917a6bc29b42cp-4) 5 5 32 pt) /\
    (distance64 pt c <? exclusionRadius64) = true /\
    exists qx qy,
      toQ (cx64 c) = Some qx /\ toQ (cy64 c) = Some qy /\
      ((qx + 40 / 2 - 50) * (qx + 40 / 2 - 50)
       + (qy + 12 / 2 - 60) * (qy + 12 / 2 - 60) < 7 * 7)%Q.
Proof.
  apply (half_step_candidate_below_floor
           (fun _ => 0x1.fd88da3d12526p-1) (fun _ => 0x1.917a6bc29b42cp-4));
    do 2 right; left; reflexivity.
Defined.

End HalfStepBinary64.

(** ** C9: degenerate input *)




(** ** C10: the exclusion zone of the label's own point *)

(** C10 (the code departs from it): in the chart 0 x 0 the pass over the
    point (11, 0), with a 20 x 10 label, returns a label that overlaps the
    square around that point.  The candidate receives the penalty of
    -100000 for it, but its score is NaN before and after, and the test
    [chosen.score <= -100000] that should drop it is false for NaN. *)
Lemma label_on_own_point_without_area :
  exists label, placed zeroEngine wideHeap [0%nat] = Ok [label] /\
                ~ ClearOfOwnPoint wideHeap label.
Proof.
  unfold placed, placeAll.
  rewrite (sortedGroups_single wideHeap 0%nat) by reflexivity.
  cbn [placeGroups]; unfold placeGroup; cbn [groupPoint].
  destruct (zero_area_edge_label (reset zeroEngine) wideHeap (Existing 0%nat)
              11 20 10 "A" (Some [0%nat])) as (info & E);
    try reflexivity; try (cbn; lia); try lra.
  { repeat split; reflexivity. }
  { apply sqrt_lt_7; nra. }
  rewrite E; eexists; split; [reflexivity | ].
  intros (px & py & a & b & w & hh & Ex & Ey & Ea & Eb & Ew & Eh & Hsq & _).
  cbn in Ex, Ey, Ea, Eb, Ew, Eh.
  inversion Ex; inversion Ey; inversion Ea; inversion Eb; inversion Ew;
    inversion Eh; subst.
  apply Hsq; lra.
Qed.

